(** * Tibia clone: the authoritative multiplayer server

    A shallow embedding of [server.js] (world state, spatial rules, intent
    handler, broadcast dispatcher, monster AI tick) and of the entity code of
    the single-player client [game.js] that the server logic was derived
    from, together with the properties of the protocol.

    Conventions of the embedding.
    - JavaScript numbers that hold grid coordinates, health, ids and
      timestamps are integers of [Z].
    - A [TypeError] (reading a property of [undefined]) is the result
      [Throw]; a loop that has not finished within the supplied random
      draws is the result [Spin].
    - [Math.floor(Math.random() * n)] is [randomInt n e] for an entropy
      value [e] supplied by the environment; it ranges over exactly
      [0 .. n-1].  The distribution of the draws is not modelled.
    - [Date.now()] is supplied by the environment. *)

From Stdlib Require Import ZArith List Bool Lia.
Import ListNotations.
Local Open Scope Z_scope.

(** ** Results of JavaScript computations *)

Inductive Result (A : Type) : Type :=
| Ok (a : A)
| Throw
| Spin.
Arguments Ok {A} a.
Arguments Throw {A}.
Arguments Spin {A}.

Definition bind {A B : Type} (c : Result A) (k : A -> Result B) : Result B :=
  match c with
  | Ok a => k a
  | Throw => Throw
  | Spin => Spin
  end.

Notation "x <- c ;; k" := (bind c (fun x => k))
  (at level 61, c at next level, right associativity).
Notation "' p <- c ;; k" := (bind c (fun x => let p := x in k))
  (at level 61, p pattern, c at next level, right associativity).

(** ** Configuration *)

Module CONFIG.
Definition TILE_SIZE : Z := 32.
Definition MAP_WIDTH : Z := 20.
Definition MAP_HEIGHT : Z := 15.
Definition MONSTER_COUNT : nat := 3.
Definition TICK_RATE : Z := 60.
End CONFIG.

(** ** Tiles and the map *)

Inductive Tile : Type := GRASS | WATER | TREE | STONE | DIRT.

Definition walkable (t : Tile) : bool :=
  match t with
  | GRASS => true
  | WATER => false
  | TREE => false
  | STONE => false
  | DIRT => true
  end.

(** Row-major grid: [map[y][x]]. *)
Definition GameMap : Type := list (list Tile).

(** Array indexing [a[i]]: [None] is JavaScript's [undefined]. *)
Definition index {A : Type} (a : list A) (i : Z) : option A :=
  if i <? 0 then None else nth_error a (Z.to_nat i).

Definition tileAt (map : GameMap) (x y : Z) : option Tile :=
  match index map y with
  | Some row => index row x
  | None => None
  end.

(** [map[y][x].walkable] *)
Definition tileWalkable (map : GameMap) (x y : Z) : Result bool :=
  match tileAt map x y with
  | Some t => Ok (walkable t)
  | None => Throw
  end.

Definition range (n : Z) : list Z := List.map Z.of_nat (seq 0 (Z.to_nat n)).

(** [generateMap]: the border is water; [pick x y] is the tile that the
    chain of comparisons on [Math.random()] selects for an inner cell. *)
Definition generateMap (pick : Z -> Z -> Tile) : GameMap :=
  List.map
    (fun y =>
       List.map
         (fun x =>
            if (x =? 0) || (x =? CONFIG.MAP_WIDTH - 1)
               || (y =? 0) || (y =? CONFIG.MAP_HEIGHT - 1)
            then WATER
            else pick x y)
         (range CONFIG.MAP_WIDTH))
    (range CONFIG.MAP_HEIGHT).

(** The shape every generated map has: [MAP_HEIGHT] rows of [MAP_WIDTH]. *)
Definition wellFormed (map : GameMap) : bool :=
  (Z.of_nat (length map) =? CONFIG.MAP_HEIGHT)
  && forallb (fun row => Z.of_nat (length row) =? CONFIG.MAP_WIDTH) map.

Definition inBounds (x y : Z) : bool :=
  (0 <=? x) && (x <? CONFIG.MAP_WIDTH) && (0 <=? y) && (y <? CONFIG.MAP_HEIGHT).

(** The tile at [(x,y)] exists and is walkable. *)
Definition walkableAt (map : GameMap) (x y : Z) : bool :=
  match tileAt map x y with
  | Some t => walkable t
  | None => false
  end.

(** ** Spatial rules *)

Definition isValidMove (map : GameMap) (x y : Z) : Result bool :=
  if (x <? 0) || (x >=? CONFIG.MAP_WIDTH) || (y <? 0) || (y >=? CONFIG.MAP_HEIGHT)
  then Ok false
  else tileWalkable map x y.

(** [Math.floor(Math.random() * n)] *)
Definition randomInt (n : Z) (e : Z) : Z := e mod n.

(** The position sampled by one iteration of the spawn search. *)
Definition spawnSample (e : Z * Z) : Z * Z :=
  (randomInt (CONFIG.MAP_WIDTH - 4) (fst e) + 2,
   randomInt (CONFIG.MAP_HEIGHT - 4) (snd e) + 2).

(** The [do ... while] of [findSpawnPosition]. [attempts] is the counter of
    the source before the iteration; [more] is the number of further
    iterations the test [attempts < 100] still allows after this one, so the
    search starts with [attempts = 0] and [more = 99]. *)
Fixpoint spawnSearch (map : GameMap) (rnd : nat -> Z * Z)
         (attempts more : nat) : Result (Z * Z * nat) :=
  let (x, y) := spawnSample (rnd attempts) in
  w <- tileWalkable map x y ;;
  match more with
  | S more' =>
      if negb w then spawnSearch map rnd (S attempts) more'
      else Ok (x, y, S attempts)
  | O => Ok (x, y, S attempts)
  end.

(** Returns the position and the final value of [attempts]. *)
Definition findSpawnPositionCount (map : GameMap) (rnd : nat -> Z * Z)
  : Result (Z * Z * nat) :=
  spawnSearch map rnd 0 99.

Definition findSpawnPosition (map : GameMap) (rnd : nat -> Z * Z)
  : Result (Z * Z) :=
  '(x, y, _) <- findSpawnPositionCount map rnd ;; Ok (x, y).

(** ** Entities of the world model *)

Module Player.
(** [name] is [`Player${id}`] and [emoji] is constant: both are determined
    by the other fields and are left out. *)
Record t : Type := mk
  { id : Z; x : Z; y : Z; health : Z; maxHealth : Z }.
Definition setPos (p : t) (x' y' : Z) : t :=
  mk (id p) x' y' (health p) (maxHealth p).
Definition setHealth (p : t) (h : Z) : t :=
  mk (id p) (x p) (y p) h (maxHealth p).
End Player.

Module Monster.
Record t : Type := mk
  { id : Z; x : Z; y : Z; health : Z; maxHealth : Z; lastMove : Z }.
Definition setPos (m : t) (x' y' : Z) : t :=
  mk (id m) x' y' (health m) (maxHealth m) (lastMove m).
Definition setHealth (m : t) (h : Z) : t :=
  mk (id m) (x m) (y m) h (maxHealth m) (lastMove m).
Definition setLastMove (m : t) (now : Z) : t :=
  mk (id m) (x m) (y m) (health m) (maxHealth m) now.
End Monster.

Module Fireball.
Record t : Type := mk
  { id : Z; playerId : Z; startX : Z; startY : Z;
    targetX : Z; targetY : Z; timestamp : Z }.
End Fireball.

(** ** The player collection: a JavaScript [Map] keyed by player id

    Iteration follows insertion order, which the nearest-player scan of the
    monster AI depends on, so the collection is an association list. *)

Module JsMap.
Definition t (V : Type) : Type := list (Z * V).

Fixpoint get {V : Type} (m : t V) (k : Z) : option V :=
  match m with
  | [] => None
  | (k', v) :: rest => if k' =? k then Some v else get rest k
  end.

(** [set] overwrites in place when the key exists and appends otherwise. *)
Fixpoint set {V : Type} (m : t V) (k : Z) (v : V) : t V :=
  match m with
  | [] => [(k, v)]
  | (k', v') :: rest =>
      if k' =? k then (k, v) :: rest else (k', v') :: set rest k v
  end.

Definition delete {V : Type} (m : t V) (k : Z) : t V :=
  filter (fun kv => negb (fst kv =? k)) m.

Definition values {V : Type} (m : t V) : list V := List.map snd m.
End JsMap.

(** ** Messages *)

Inductive ClientMsg : Type :=
| move (x y : Z)
| fireball (targetX targetY : Z)
| attack (monsterId : Z)
| fireballHit (monsterId : Z)
| unknownType.

Inductive ServerMsg : Type :=
| init (playerId : Z) (map : GameMap)
       (players : list Player.t) (monsters : list Monster.t)
| playerJoined (player : Player.t)
| playerLeft (playerId : Z)
| playerMoved (playerId x y : Z)
| playerDamaged (playerId health damage : Z)
| playerDied (playerId : Z)
| fireballCast (fireball : Fireball.t)
| monsterMoved (monsterId x y : Z)
| monsterDamaged (monsterId health damage : Z)
| monsterDied (monsterId : Z)
| monsterSpawned (monster : Monster.t).

(** ** Sessions and the broadcast dispatcher *)

Inductive ReadyState : Type := CONNECTING | OPEN | CLOSING | CLOSED.

Definition isOpen (r : ReadyState) : bool :=
  match r with OPEN => true | _ => false end.

(** A connection object [ws]: [sock] is its identity (what [!==] compares),
    [playerId] the property the connection handler attaches to it. *)
Record WebSocket : Type := mkWs
  { sock : nat; playerId : Z; readyState : ReadyState }.

(** What a handler does besides changing the game state: each call of
    [client.send] and each call of [setTimeout]. *)
Inductive Effect : Type :=
| Send (to : nat) (message : ServerMsg)
| SetTimeoutRespawn (delay : Z).

Definition sameClient (c : nat) (excludeClient : option nat) : bool :=
  match excludeClient with
  | Some e => Nat.eqb c e
  | None => false
  end.

(** [broadcast(message, excludeClient = null)] *)
Definition broadcast (clients : list WebSocket) (message : ServerMsg)
           (excludeClient : option nat) : list Effect :=
  flat_map
    (fun client =>
       if negb (sameClient (sock client) excludeClient)
          && isOpen (readyState client)
       then [Send (sock client) message]
       else [])
    clients.

Definition sendToClient (client : WebSocket) (message : ServerMsg)
  : list Effect :=
  if isOpen (readyState client) then [Send (sock client) message] else [].

(** The sockets a list of effects sent [message] to, in order. *)
Definition recipients (message_is : ServerMsg -> bool) (effs : list Effect)
  : list nat :=
  flat_map
    (fun e =>
       match e with
       | Send to m => if message_is m then [to] else []
       | SetTimeoutRespawn _ => []
       end)
    effs.

(** ** Game state *)

Record GameState : Type := mkGameState
  { players : JsMap.t Player.t;
    monsters : list Monster.t;
    fireballs : list Fireball.t;
    map : GameMap;
    nextPlayerId : Z }.

Definition setPlayers (g : GameState) (ps : JsMap.t Player.t) : GameState :=
  mkGameState ps (monsters g) (fireballs g) (map g) (nextPlayerId g).
Definition setMonsters (g : GameState) (ms : list Monster.t) : GameState :=
  mkGameState (players g) ms (fireballs g) (map g) (nextPlayerId g).
Definition setFireballs (g : GameState) (fs : list Fireball.t) : GameState :=
  mkGameState (players g) (monsters g) fs (map g) (nextPlayerId g).

(** [monsters.find(m => m.id === id)] *)
Definition findMonster (ms : list Monster.t) (id : Z) : option Monster.t :=
  find (fun m => Monster.id m =? id) ms.

(** The effect of mutating, through the reference that [find] returned, the
    first monster whose id is [id]. *)
Fixpoint updateFound (ms : list Monster.t) (id : Z)
         (f : Monster.t -> Monster.t) : list Monster.t :=
  match ms with
  | [] => []
  | m :: rest =>
      if Monster.id m =? id then f m :: rest else m :: updateFound rest id f
  end.

(** What the environment supplies to one message handler run. *)
Record Env : Type := mkEnv
  { now : Z;          (* Date.now() *)
    freshId : Z;      (* Date.now() + Math.random() *)
    entropy : Z }.    (* drives Math.floor(Math.random() * 5) *)

(** ** The intent handler *)

Definition handleClientMessage (g : GameState) (clients : list WebSocket)
           (ws : WebSocket) (message : ClientMsg) (env : Env)
  : Result (GameState * list Effect) :=
  let playerId := playerId ws in
  match JsMap.get (players g) playerId with
  | None => Ok (g, [])
  | Some player =>
      match message with
      | move x y =>
          valid <- isValidMove (map g) x y ;;
          if valid then
            let player' := Player.setPos player x y in
            Ok (setPlayers g (JsMap.set (players g) playerId player'),
                broadcast clients (playerMoved playerId x y) None)
          else Ok (g, [])
      | fireball targetX targetY =>
          let fireball :=
            Fireball.mk (freshId env) playerId
                        (Player.x player) (Player.y player)
                        targetX targetY (now env) in
          Ok (setFireballs g (fireballs g ++ [fireball]),
              broadcast clients (fireballCast fireball) None)
      | attack targetMonsterId =>
          match findMonster (monsters g) targetMonsterId with
          | Some monster =>
              let damage := randomInt 5 (entropy env) + 8 in
              let health := Monster.health monster - damage in
              if health <=? 0 then
                Ok (setMonsters g
                      (filter (fun m => negb (Monster.id m =? targetMonsterId))
                              (monsters g)),
                    broadcast clients (monsterDied targetMonsterId) None
                    ++ [SetTimeoutRespawn 5000])
              else
                Ok (setMonsters g
                      (updateFound (monsters g) targetMonsterId
                                   (fun m => Monster.setHealth m health)),
                    broadcast clients
                              (monsterDamaged targetMonsterId health damage)
                              None)
          | None => Ok (g, [])
          end
      | fireballHit hitMonsterId =>
          match findMonster (monsters g) hitMonsterId with
          | Some hitMonster =>
              let damage := 15 in
              let health := Monster.health hitMonster - damage in
              if health <=? 0 then
                Ok (setMonsters g
                      (filter (fun m => negb (Monster.id m =? hitMonsterId))
                              (monsters g)),
                    broadcast clients (monsterDied hitMonsterId) None
                    ++ [SetTimeoutRespawn 5000])
              else
                Ok (setMonsters g
                      (updateFound (monsters g) hitMonsterId
                                   (fun m => Monster.setHealth m health)),
                    broadcast clients
                              (monsterDamaged hitMonsterId health damage)
                              None)
          | None => Ok (g, [])
          end
      | unknownType => Ok (g, [])
      end
  end.

(** The ['message'] listener: [handleClientMessage] inside [try]/[catch].
    The only statement of the handler that can throw is the map lookup of
    [isValidMove], which runs before any assignment, so a caught exception
    leaves the game state as it was. *)
Definition onMessage (g : GameState) (clients : list WebSocket)
           (ws : WebSocket) (message : ClientMsg) (env : Env)
  : GameState * list Effect :=
  match handleClientMessage g clients ws message env with
  | Ok r => r
  | Throw => (g, [])
  | Spin => (g, [])
  end.

(** ** The monster AI tick *)

(** [Math.pow(px - mx, 2) + Math.pow(py - my, 2)].  The source compares
    square roots of these sums; on integers [Math.sqrt] is strictly
    increasing, so the embedding compares the sums themselves, and
    [distance <= 1.5] is [distance2 <= 2]. *)
Definition distance2 (px py mx my : Z) : Z :=
  (px - mx) * (px - mx) + (py - my) * (py - my).

(** One iteration of the nearest-player scan. The accumulator is
    [(nearestPlayer, minDistance)], [None] standing for [(null, Infinity)];
    the player is kept with its key in the collection, which stands for the
    object reference. *)
Definition nearestStep (monster : Monster.t)
           (acc : option (Z * Player.t * Z)) (entry : Z * Player.t)
  : option (Z * Player.t * Z) :=
  let player := snd entry in
  let distance :=
    distance2 (Player.x player) (Player.y player)
              (Monster.x monster) (Monster.y monster) in
  match acc with
  | None => Some (fst entry, player, distance)
  | Some (_, _, minDistance) =>
      if distance <? minDistance then Some (fst entry, player, distance)
      else acc
  end.

Definition nearestPlayer (ps : JsMap.t Player.t) (monster : Monster.t)
  : option (Z * Player.t * Z) :=
  fold_left (nearestStep monster) ps None.

(** [d > 0 ? 1 : -1] *)
Definition toward (d : Z) : Z := if d >? 0 then 1 else -1.

(** The greedy direction shared by the server tick and the client
    [moveTowardsPlayer]. *)
Definition direction (dx dy : Z) : Z * Z :=
  if Z.abs dx >? Z.abs dy then (toward dx, 0)
  else if Z.abs dy >? Z.abs dx then (0, toward dy)
  else if negb (dx =? 0) then (toward dx, toward dy)
  else (0, 0).

(** The body of [gameState.monsters.forEach] for one monster. [roll] is the
    outcome of [Math.random() < 0.3] and [e] drives the damage draw. *)
Definition monsterTick (gmap : GameMap) (clients : list WebSocket) (now : Z)
           (roll : bool) (e : Z)
           (ps : JsMap.t Player.t) (monster : Monster.t)
  : Result (Monster.t * JsMap.t Player.t * list Effect) :=
  if now - Monster.lastMove monster >? 500 then
    let monster := Monster.setLastMove monster now in
    match nearestPlayer ps monster with
    | Some (key, nearest, minDistance) =>
        let dx := Player.x nearest - Monster.x monster in
        let dy := Player.y nearest - Monster.y monster in
        let (moveX, moveY) := direction dx dy in
        let newX := Monster.x monster + moveX in
        let newY := Monster.y monster + moveY in
        valid <- isValidMove gmap newX newY ;;
        let (monster, moved) :=
          if valid
          then (Monster.setPos monster newX newY,
                broadcast clients
                          (monsterMoved (Monster.id monster) newX newY) None)
          else (monster, []) in
        if (minDistance <=? 2) && roll then
          let damage := randomInt 6 e + 5 in
          let health := Player.health nearest - damage in
          Ok (monster,
              JsMap.set ps key (Player.setHealth nearest health),
              moved
              ++ broadcast clients
                           (playerDamaged (Player.id nearest) health damage)
                           None
              ++ (if health <=? 0
                  then broadcast clients (playerDied (Player.id nearest)) None
                  else []))
        else Ok (monster, ps, moved)
    | None => Ok (monster, ps, [])
    end
  else Ok (monster, ps, []).

(** [gameState.monsters.forEach]: the monsters are visited in order, each
    seeing the players as the earlier ones left them; [rnd i] are the random
    draws of the [i]-th visit. *)
Fixpoint forEachMonster (gmap : GameMap) (clients : list WebSocket) (now : Z)
         (rnd : nat -> bool * Z) (i : nat)
         (ms : list Monster.t) (ps : JsMap.t Player.t)
  : Result (list Monster.t * JsMap.t Player.t * list Effect) :=
  match ms with
  | [] => Ok ([], ps, [])
  | m :: rest =>
      '(m', ps', eff) <-
        monsterTick gmap clients now (fst (rnd i)) (snd (rnd i)) ps m ;;
      '(rest', ps'', eff') <-
        forEachMonster gmap clients now rnd (S i) rest ps' ;;
      Ok (m' :: rest', ps'', eff ++ eff')
  end.

Definition gameLoop (g : GameState) (clients : list WebSocket) (now : Z)
           (rnd : nat -> bool * Z) : Result (GameState * list Effect) :=
  '(ms, ps, eff) <-
    forEachMonster (map g) clients now rnd 0 (monsters g) (players g) ;;
  Ok (setPlayers (setMonsters g ms) ps, eff).

(** ** Spawning monsters *)

(** What the environment supplies to one run of [spawnMonster]; [spawnFuel]
    bounds the iterations of its [do ... while] that are observed. *)
Record SpawnEnv : Type := mkSpawnEnv
  { spawnId : Z;                  (* Date.now() + Math.random() *)
    spawnNow : Z;                 (* Date.now() *)
    spawnRnd : nat -> Z * Z;
    spawnFuel : nat }.

Fixpoint spawnMonsterSearch (gmap : GameMap) (rnd : nat -> Z * Z)
         (i fuel : nat) : Result (Z * Z) :=
  match fuel with
  | O => Spin
  | S fuel' =>
      let x := randomInt CONFIG.MAP_WIDTH (fst (rnd i)) in
      let y := randomInt CONFIG.MAP_HEIGHT (snd (rnd i)) in
      w <- tileWalkable gmap x y ;;
      if negb w then spawnMonsterSearch gmap rnd (S i) fuel' else Ok (x, y)
  end.

Definition spawnMonster (g : GameState) (env : SpawnEnv)
  : Result (GameState * Monster.t) :=
  '(x, y) <- spawnMonsterSearch (map g) (spawnRnd env) 0 (spawnFuel env) ;;
  let monster := Monster.mk (spawnId env) x y 50 50 (spawnNow env) in
  Ok (setMonsters g (monsters g ++ [monster]), monster).

Fixpoint spawnMonsters (g : GameState) (envs : nat -> SpawnEnv)
         (i count : nat) : Result GameState :=
  match count with
  | O => Ok g
  | S count' =>
      '(g', _) <- spawnMonster g (envs i) ;;
      spawnMonsters g' envs (S i) count'
  end.

Definition initGame (pick : Z -> Z -> Tile) (envs : nat -> SpawnEnv)
  : Result GameState :=
  spawnMonsters (mkGameState [] [] [] (generateMap pick) 1)
                envs 0 CONFIG.MONSTER_COUNT.

(** The callback of [setTimeout(..., 5000)]. *)
Definition respawnCallback (g : GameState) (clients : list WebSocket)
           (env : SpawnEnv) : Result (GameState * list Effect) :=
  '(g', newMonster) <- spawnMonster g env ;;
  Ok (g', broadcast clients (monsterSpawned newMonster) None).

(** ** The session registry *)

(** The ['connection'] listener. When it runs, the new socket [ws] is
    already a member of [wss.clients] and open. *)
Definition onConnection (g : GameState) (clients : list WebSocket)
           (sock : nat) (rnd : nat -> Z * Z)
  : Result (GameState * list WebSocket * list Effect) :=
  let playerId := nextPlayerId g in
  let g := mkGameState (players g) (monsters g) (fireballs g) (map g)
                       (nextPlayerId g + 1) in
  '(x, y) <- findSpawnPosition (map g) rnd ;;
  let player := Player.mk playerId x y 100 100 in
  let g := setPlayers g (JsMap.set (players g) playerId player) in
  let ws := mkWs sock playerId OPEN in
  let clients := clients ++ [ws] in
  Ok (g, clients,
      sendToClient ws (init playerId (map g) (JsMap.values (players g))
                            (monsters g))
      ++ broadcast clients (playerJoined player) (Some sock)).

(** The ['close'] listener. When it runs, [ws] has left [wss.clients]. *)
Definition onClose (g : GameState) (clients : list WebSocket) (ws : WebSocket)
  : GameState * list WebSocket * list Effect :=
  let playerId := playerId ws in
  let clients := filter (fun c => negb (Nat.eqb (sock c) (sock ws))) clients in
  (setPlayers g (JsMap.delete (players g) playerId),
   clients,
   broadcast clients (playerLeft playerId) None).

(** ** The server as a transition system *)

Record World : Type := mkWorld
  { gameState : GameState;
    wssClients : list WebSocket;
    pendingRespawns : nat }.

Inductive Event : Type :=
| EvConnection (sock : nat) (rnd : nat -> Z * Z)
| EvMessage (sock : nat) (message : ClientMsg) (env : Env)
| EvClosing (sock : nat)
| EvClose (sock : nat)
| EvTick (now : Z) (rnd : nat -> bool * Z)
| EvRespawn (env : SpawnEnv).

Definition findClient (clients : list WebSocket) (s : nat)
  : option WebSocket :=
  find (fun c => Nat.eqb (sock c) s) clients.

Definition isTimeout (e : Effect) : bool :=
  match e with SetTimeoutRespawn _ => true | Send _ _ => false end.

Definition timeoutsSet (effs : list Effect) : nat :=
  length (filter isTimeout effs).

(** One event of the event loop, run to completion. [None]: the event cannot
    happen in this world, or its callback does not return (an uncaught
    exception ends the process, an unfinished loop blocks it). *)
Definition step (w : World) (ev : Event) : option (World * list Effect) :=
  let g := gameState w in
  let clients := wssClients w in
  match ev with
  | EvConnection s rnd =>
      match findClient clients s with
      | Some _ => None
      | None =>
          match onConnection g clients s rnd with
          | Ok (g', clients', eff) =>
              Some (mkWorld g' clients' (pendingRespawns w), eff)
          | _ => None
          end
      end
  | EvMessage s message env =>
      match findClient clients s with
      | Some ws =>
          let (g', eff) := onMessage g clients ws message env in
          Some (mkWorld g' clients (pendingRespawns w + timeoutsSet eff), eff)
      | None => None
      end
  | EvClosing s =>
      match findClient clients s with
      | Some _ =>
          Some (mkWorld g
                  (List.map
                     (fun c => if Nat.eqb (sock c) s
                               then mkWs (sock c) (playerId c) CLOSING
                               else c)
                     clients)
                  (pendingRespawns w), [])
      | None => None
      end
  | EvClose s =>
      match findClient clients s with
      | Some ws =>
          let '(g', clients', eff) := onClose g clients ws in
          Some (mkWorld g' clients' (pendingRespawns w), eff)
      | None => None
      end
  | EvTick now rnd =>
      match gameLoop g clients now rnd with
      | Ok (g', eff) => Some (mkWorld g' clients (pendingRespawns w), eff)
      | _ => None
      end
  | EvRespawn env =>
      match pendingRespawns w with
      | O => None
      | S n =>
          match respawnCallback g clients env with
          | Ok (g', eff) => Some (mkWorld g' clients n, eff)
          | _ => None
          end
      end
  end.

(** Running a list of events, collecting the effects. *)
Fixpoint run (w : World) (evs : list Event) : option (World * list Effect) :=
  match evs with
  | [] => Some (w, [])
  | ev :: rest =>
      match step w ev with
      | Some (w', eff) =>
          match run w' rest with
          | Some (w'', eff') => Some (w'', eff ++ eff')
          | None => None
          end
      | None => None
      end
  end.

(** The worlds the server can be in: after [initGame] at start-up, and
    after any event. *)
Inductive reachable : World -> Prop :=
| reachable_init pick envs g :
    initGame pick envs = Ok g ->
    reachable (mkWorld g [] 0)
| reachable_step w ev w' eff :
    reachable w ->
    step w ev = Some (w', eff) ->
    reachable w'.

(** ** The single-player client ([game.js])

    The entity code the server's monster AI and damage handling were
    derived from. *)

Module Client.
Record Entity : Type := mkEntity
  { x : Z; y : Z; health : Z; maxHealth : Z }.

Definition canMoveTo (gmap : GameMap) (x y : Z) : Result bool :=
  if (x <? 0) || (x >=? CONFIG.MAP_WIDTH)
     || (y <? 0) || (y >=? CONFIG.MAP_HEIGHT)
  then Ok false
  else tileWalkable gmap x y.

(** Returns the entity after the call and the method's result. *)
Definition moveTo (gmap : GameMap) (this : Entity) (x y : Z)
  : Result (Entity * bool) :=
  ok <- canMoveTo gmap x y ;;
  if ok then Ok (mkEntity x y (health this) (maxHealth this), true)
  else Ok (this, false).

Definition takeDamage (this : Entity) (damage : Z) : Entity * bool :=
  let this :=
    mkEntity (x this) (y this) (Z.max 0 (health this - damage))
             (maxHealth this) in
  (this, health this <=? 0).

(** [Monster.moveTowardsPlayer], with [game.map] and [game.player] as
    arguments. *)
Definition moveTowardsPlayer (gmap : GameMap) (player this : Entity)
  : Result Entity :=
  let dx := x player - x this in
  let dy := y player - y this in
  let (moveX, moveY) := direction dx dy in
  '(this, moved) <- moveTo gmap this (x this + moveX) (y this + moveY) ;;
  if negb moved then
    if negb (moveX =? 0) then
      '(this, moved) <- moveTo gmap this (x this + moveX) (y this) ;;
      if negb moved then
        '(this, _) <- moveTo gmap this (x this) (y this + moveY) ;;
        Ok this
      else Ok this
    else Ok this
  else Ok this.
End Client.

(** ** The specification's wording, for comparison with the code *)

Module Spec.
(** The damage-application contract of [meleeAttack] and [fireballHit]:
    look the monster up; if absent, no-op; otherwise subtract the damage
    and either broadcast a damage update if health remains positive, or
    remove the monster, broadcast its death and schedule a respawn after
    5000 ms. Intents of a session without a player are ignored. *)
Definition applyDamage (damage : Z) (g : GameState)
           (clients : list WebSocket) (ws : WebSocket) (monsterId : Z)
  : GameState * list Effect :=
  match JsMap.get (players g) (playerId ws) with
  | None => (g, [])
  | Some _ =>
      match findMonster (monsters g) monsterId with
      | None => (g, [])
      | Some monster =>
          let health := Monster.health monster - damage in
          if 0 <? health then
            (setMonsters g
               (updateFound (monsters g) monsterId
                            (fun m => Monster.setHealth m health)),
             broadcast clients (monsterDamaged monsterId health damage) None)
          else
            (setMonsters g
               (filter (fun m => negb (Monster.id m =? monsterId))
                       (monsters g)),
             broadcast clients (monsterDied monsterId) None
             ++ [SetTimeoutRespawn 5000])
      end
  end.

(** [stepToward]: the greedy step, then its fallbacks in the order
    diagonal, horizontal-only, vertical-only; the first candidate that is
    in bounds and walkable is taken, and the position stays when none is. *)
Definition candidates (fromX fromY toX toY : Z) : list (Z * Z) :=
  let (moveX, moveY) := direction (toX - fromX) (toY - fromY) in
  [(fromX + moveX, fromY + moveY);
   (fromX + moveX, fromY);
   (fromX, fromY + moveY)].

Definition stepToward (gmap : GameMap) (fromX fromY toX toY : Z) : Z * Z :=
  match
    find (fun c => inBounds (fst c) (snd c) && walkableAt gmap (fst c) (snd c))
         (candidates fromX fromY toX toY)
  with
  | Some c => c
  | None => (fromX, fromY)
  end.

(** A broadcast that reaches every other open session and not the sender. *)
Definition deliveredToOthersOnly (clients : list WebSocket) (sender : nat)
           (message : ServerMsg) (effs : list Effect) : Prop :=
  (forall c, In c clients -> isOpen (readyState c) = true ->
             sock c <> sender -> In (Send (sock c) message) effs)
  /\ ~ In (Send sender message) effs.

(** Every entity stands in bounds on a walkable tile. *)
Definition everyEntityOnWalkableTile (w : World) : Prop :=
  let g := gameState w in
  (forall k p, In (k, p) (players g) ->
     inBounds (Player.x p) (Player.y p) = true
     /\ walkableAt (map g) (Player.x p) (Player.y p) = true)
  /\ (forall m, In m (monsters g) ->
     inBounds (Monster.x m) (Monster.y m) = true
     /\ walkableAt (map g) (Monster.x m) (Monster.y m) = true).

(** Every player's health lies in [0 .. maxHealth]. *)
Definition playerHealthInRange (w : World) : Prop :=
  forall k p, In (k, p) (players (gameState w)) ->
    0 <= Player.health p <= Player.maxHealth p.

(** The server keeps no fireball record after the spawn broadcast. *)
Definition noFireballPersisted (w : World) : Prop :=
  fireballs (gameState w) = [].
End Spec.

(** The health values carried by the [playerDamaged] messages sent. *)
Definition reportedPlayerHealth (effs : list Effect) : list Z :=
  flat_map
    (fun e =>
       match e with
       | Send _ (playerDamaged _ health _) => [health]
       | _ => []
       end)
    effs.

(** The sockets of the open sessions, in the order of [wss.clients]. *)
Definition openSockets (clients : list WebSocket) : list nat :=
  List.map sock (filter (fun c => isOpen (readyState c)) clients).

(** A world that differs from [w] only in having no stored fireballs. *)
Definition forgetFireballs (w : World) : World :=
  mkWorld (setFireballs (gameState w) []) (wssClients w) (pendingRespawns w).

Definition forgetResult (r : option (World * list Effect))
  : option (World * list Effect) :=
  match r with
  | Some (w, eff) => Some (forgetFireballs w, eff)
  | None => None
  end.

(** ** A concrete game *)

Module Demo.
(** Grass everywhere inside the border, but a tree at (6,6) and a stone
    at (2,2). *)
Definition pick (x y : Z) : Tile :=
  if (x =? 6) && (y =? 6) then TREE
  else if (x =? 2) && (y =? 2) then STONE
  else GRASS.

Definition gmap : GameMap := generateMap pick.

(** The three initial monsters land on (5,5), (8,7) and (7,8). *)
Definition spawnEnvs (i : nat) : SpawnEnv :=
  match i with
  | O => mkSpawnEnv 101 0 (fun _ => (5, 5)) 1
  | S O => mkSpawnEnv 102 0 (fun _ => (8, 7)) 1
  | _ => mkSpawnEnv 103 0 (fun _ => (7, 8)) 1
  end.

Definition started : World :=
  mkWorld
    (mkGameState []
       [Monster.mk 101 5 5 50 50 0;
        Monster.mk 102 8 7 50 50 0;
        Monster.mk 103 7 8 50 50 0]
       [] gmap 1)
    [] 0.

(** Socket 1 connects and is placed on (7,7). *)
Definition join1 : Event := EvConnection 1 (fun _ => (5, 5)).
(** Socket 2 connects and is placed on (10,3). *)
Definition join2 : Event := EvConnection 2 (fun _ => (8, 1)).
(** A connection all of whose 100 samples hit the stone at (2,2). *)
Definition joinUnlucky : Event := EvConnection 1 (fun _ => (0, 0)).

Definition player1 : Player.t := Player.mk 1 7 7 100 100.
Definition player2 : Player.t := Player.mk 2 10 3 100 100.
Definition ws1 : WebSocket := mkWs 1 1 OPEN.
Definition ws2 : WebSocket := mkWs 2 2 OPEN.

Definition onePlayer : World :=
  mkWorld
    (mkGameState [(1, player1)] (monsters (gameState started)) [] gmap 2)
    [ws1] 0.

Definition twoPlayers : World :=
  mkWorld
    (mkGameState [(1, player1); (2, player2)]
                 (monsters (gameState started)) [] gmap 3)
    [ws1; ws2] 0.

Definition unluckyPlayer : World :=
  mkWorld
    (mkGameState [(1, Player.mk 1 2 2 100 100)]
                 (monsters (gameState started)) [] gmap 2)
    [ws1] 0.

Definition env0 : Env := mkEnv 0 900 0.

(** Every monster attack of a tick lands, each for 10 damage. *)
Definition hits (_ : nat) : bool * Z := (true, 5).

Definition sixTicks : list Event :=
  [EvTick 1000 hits; EvTick 2000 hits; EvTick 3000 hits;
   EvTick 4000 hits; EvTick 5000 hits; EvTick 6000 hits].

(** The world those six ticks lead to from [onePlayer]. *)
Definition afterSixTicks : World :=
  mkWorld
    (mkGameState [(1, Player.mk 1 7 7 (-20) 100)]
       [Monster.mk 101 5 5 50 50 6000;
        Monster.mk 102 7 7 50 50 6000;
        Monster.mk 103 7 7 50 50 6000]
       [] gmap 2)
    [ws1] 0.

Definition fourFireballHits : list Event :=
  [EvMessage 1 (fireballHit 101) env0; EvMessage 1 (fireballHit 101) env0;
   EvMessage 1 (fireballHit 101) env0; EvMessage 1 (fireballHit 101) env0].
End Demo.

(** ** The invariant of the reachable worlds *)

Definition monsterOk (gmap : GameMap) (m : Monster.t) : Prop :=
  inBounds (Monster.x m) (Monster.y m) = true
  /\ walkableAt gmap (Monster.x m) (Monster.y m) = true
  /\ 0 < Monster.health m <= Monster.maxHealth m.

(** With [strict] the player must also stand on a walkable tile. *)
Definition playerOk (strict : bool) (gmap : GameMap) (entry : Z * Player.t)
  : Prop :=
  inBounds (Player.x (snd entry)) (Player.y (snd entry)) = true
  /\ (strict = true ->
      walkableAt gmap (Player.x (snd entry)) (Player.y (snd entry)) = true)
  /\ Player.health (snd entry) <= Player.maxHealth (snd entry).

Definition stateOk (strict : bool) (g : GameState) : Prop :=
  wellFormed (map g) = true
  /\ Forall (monsterOk (map g)) (monsters g)
  /\ Forall (playerOk strict (map g)) (players g).

Definition invariant (w : World) : Prop := stateOk false (gameState w).

(** One of the at most 100 positions the spawn search samples is walkable. *)
Definition luckySpawn (gmap : GameMap) (rnd : nat -> Z * Z) : Prop :=
  exists i : nat,
    (i < 100)%nat
    /\ walkableAt gmap (fst (spawnSample (rnd i))) (snd (spawnSample (rnd i)))
       = true.

(** Every event but a connection whose spawn search finds no walkable tile. *)
Definition noUnluckySpawn (gmap : GameMap) (ev : Event) : Prop :=
  match ev with
  | EvConnection _ rnd => luckySpawn gmap rnd
  | _ => True
  end.

(** What identifies a monster and its health, apart from where it stands
    and when it last moved. *)
Definition vitals (m : Monster.t) : Z * Z * Z :=
  (Monster.id m, Monster.health m, Monster.maxHealth m).

(** * The rest of the server, and the two clients *)

(** ** Further vocabulary for the properties of the server *)

(** The cells of the outer ring of the map. *)
Definition border (x y : Z) : bool :=
  (x =? 0) || (x =? CONFIG.MAP_WIDTH - 1)
  || (y =? 0) || (y =? CONFIG.MAP_HEIGHT - 1).

(** The position sampled by one iteration of the loop of [spawnMonster]. *)
Definition monsterSample (e : Z * Z) : Z * Z :=
  (randomInt CONFIG.MAP_WIDTH (fst e), randomInt CONFIG.MAP_HEIGHT (snd e)).

(** The messages a list of effects sent to socket [s], in order. *)
Definition messagesTo (s : nat) (effs : list Effect) : list ServerMsg :=
  flat_map
    (fun e =>
       match e with
       | Send to m => if Nat.eqb to s then [m] else []
       | SetTimeoutRespawn _ => []
       end)
    effs.

(** The players listed in the [init] payloads among a list of effects. *)
Definition initPlayers (effs : list Effect) : list Player.t :=
  flat_map
    (fun e =>
       match e with
       | Send _ (init _ _ ps _) => ps
       | _ => []
       end)
    effs.

(** Sessions and players correspond one to one, in the same order, and
    player ids are the keys, all below the counter. *)
Definition sessionsOk (w : World) : Prop :=
  let g := gameState w in
  List.map fst (players g) = List.map playerId (wssClients w)
  /\ NoDup (List.map sock (wssClients w))
  /\ NoDup (List.map fst (players g))
  /\ Forall (fun kp => Player.id (snd kp) = fst kp
                       /\ fst kp < nextPlayerId g
                       /\ Player.maxHealth (snd kp) = 100)
            (players g).

(** A player entry before and after a tick: only its health may differ,
    and only downwards. *)
Definition tickedPlayer (kp kp' : Z * Player.t) : Prop :=
  fst kp' = fst kp
  /\ Player.id (snd kp') = Player.id (snd kp)
  /\ Player.x (snd kp') = Player.x (snd kp)
  /\ Player.y (snd kp') = Player.y (snd kp)
  /\ Player.maxHealth (snd kp') = Player.maxHealth (snd kp)
  /\ Player.health (snd kp') <= Player.health (snd kp).

(** A monster before and after a tick at [now]: identity and health stay,
    and it is not due again at [now]. *)
Definition tickedMonster (now : Z) (m m' : Monster.t) : Prop :=
  Monster.id m' = Monster.id m
  /\ Monster.health m' = Monster.health m
  /\ Monster.maxHealth m' = Monster.maxHealth m
  /\ now - Monster.lastMove m' <= 500.

(** A position that is in bounds and not on the border. *)
Definition interior (x y : Z) : Prop :=
  inBounds x y = true /\ border x y = false.

(** ** The single-player game ([game.js]): combat and the monster's update

    The part of the single-player client that decides the game: the
    player's melee attack, the monster's update with its two states, and
    the keyboard handler. Drawing, the log and the health bars are left out;
    so are the fireballs, whose positions are floating-point pixels. The
    monster object is the one stored in [game.monster], and the player
    object the one in [game.player]: a method that mutates [this] or its
    target returns the game with that object replaced. *)

Module SinglePlayer.

Definition MONSTER_MOVE_INTERVAL : Z := 500.
Definition MONSTER_ATTACK_INTERVAL : Z := 1500.
Definition PLAYER_ATTACK_COOLDOWN : Z := 500.

Inductive MonsterState : Type := hunting | attacking.

Record Monster : Type := mkMonster
  { entity : Client.Entity; state : MonsterState }.

Record Game : Type := mkGame
  { gmap : GameMap;
    player : option Client.Entity;
    monster : option Monster;
    lastMonsterMove : Z;
    lastMonsterAttack : Z;
    lastPlayerAttack : Z;
    running : bool }.

Definition setMonster (g : Game) (m : option Monster) : Game :=
  mkGame (gmap g) (player g) m (lastMonsterMove g) (lastMonsterAttack g)
         (lastPlayerAttack g) (running g).
Definition setPlayer (g : Game) (p : option Client.Entity) : Game :=
  mkGame (gmap g) p (monster g) (lastMonsterMove g) (lastMonsterAttack g)
         (lastPlayerAttack g) (running g).

(** [getDistance], squared (see [distance2]). *)
Definition getDistance2 (a b : Client.Entity) : Z :=
  distance2 (Client.x a) (Client.y a) (Client.x b) (Client.y b).

(** [gameOver()] *)
Definition gameOver (g : Game) : Game :=
  mkGame (gmap g) (player g) (monster g) (lastMonsterMove g)
         (lastMonsterAttack g) (lastPlayerAttack g) false.

(** [Player.attack(target)], called on [game.player] with
    [target = game.monster]; [minDamage = 8], [maxDamage = 12]. *)
Definition attack (g : Game) (this : Client.Entity) (target : Monster)
           (now e : Z) : Game :=
  if now - lastPlayerAttack g <? PLAYER_ATTACK_COOLDOWN then g
  else
    let distance := getDistance2 this (entity target) in
    if distance <=? 2 then
      let damage := randomInt (12 - 8 + 1) e + 8 in
      let (target', killed) := Client.takeDamage (entity target) damage in
      let g := mkGame (gmap g) (player g)
                      (Some (mkMonster target' (state target)))
                      (lastMonsterMove g) (lastMonsterAttack g) now
                      (running g) in
      if killed then setMonster g None else g
    else g.

(** [Monster.attackPlayer()]; [minDamage = 5], [maxDamage = 10]. *)
Definition attackPlayer (g : Game) (player : Client.Entity) (e : Z) : Game :=
  let damage := randomInt (10 - 5 + 1) e + 5 in
  let (player', killed) := Client.takeDamage player damage in
  let g := setPlayer g (Some player') in
  if killed then gameOver g else g.

(** [Monster.update()], called on [game.monster]. *)
Definition update (g : Game) (this : Monster) (now e : Z) : Result Game :=
  match player g with
  | None => Ok g
  | Some player =>
      let distance := getDistance2 (entity this) player in
      if distance <=? 2 then
        let g :=
          if now - lastMonsterAttack g >=? MONSTER_ATTACK_INTERVAL then
            let g := attackPlayer g player e in
            mkGame (gmap g) (SinglePlayer.player g) (monster g)
                   (lastMonsterMove g) now (lastPlayerAttack g) (running g)
          else g in
        Ok (setMonster g (Some (mkMonster (entity this) attacking)))
      else
        let this := mkMonster (entity this) hunting in
        if now - lastMonsterMove g >=? MONSTER_MOVE_INTERVAL then
          moved <- Client.moveTowardsPlayer (gmap g) player (entity this) ;;
          let g := setMonster g (Some (mkMonster moved (state this))) in
          Ok (mkGame (gmap g) (SinglePlayer.player g) (monster g)
                     now (lastMonsterAttack g) (lastPlayerAttack g)
                     (running g))
        else Ok (setMonster g (Some this))
  end.

Inductive Key : Type := KeyW | KeyS | KeyA | KeyD | KeySpace | KeyOther.

(** The [keydown] listener, as far as it changes the game. *)
Definition keydown (g : Game) (key : Key) (now e : Z) : Result Game :=
  if running g then
    match player g with
    | Some p =>
        let tryMove x y :=
          '(p', _) <- Client.moveTo (gmap g) p x y ;;
          Ok (setPlayer g (Some p')) in
        match key with
        | KeyW => tryMove (Client.x p) (Client.y p - 1)
        | KeyS => tryMove (Client.x p) (Client.y p + 1)
        | KeyA => tryMove (Client.x p - 1) (Client.y p)
        | KeyD => tryMove (Client.x p + 1) (Client.y p)
        | KeySpace =>
            match monster g with
            | Some m => Ok (attack g p m now e)
            | None => Ok g
            end
        | KeyOther => Ok g
        end
    | None => Ok g
    end
  else Ok g.

End SinglePlayer.

(** The step of [gameLoop] that concerns the monster: nothing happens once
    the game is over or the monster is dead. *)
Definition monsterFrame (g : SinglePlayer.Game) (now e : Z)
  : Result SinglePlayer.Game :=
  if SinglePlayer.running g then
    match SinglePlayer.monster g with
    | Some m => SinglePlayer.update g m now e
    | None => Ok g
    end
  else Ok g.

(** An entity of the client that stands on a walkable tile in bounds. *)
Definition onWalkable (gmap : GameMap) (a : Client.Entity) : Prop :=
  inBounds (Client.x a) (Client.y a)
  && walkableAt gmap (Client.x a) (Client.y a) = true.

(** The state of a single-player game in play: both entities on walkable
    tiles, the player's health within [0 .. maxHealth] and zero only when
    the game is over, a stored monster alive. *)
Definition singlePlayerOk (g : SinglePlayer.Game) : Prop :=
  wellFormed (SinglePlayer.gmap g) = true
  /\ (forall p, SinglePlayer.player g = Some p ->
        onWalkable (SinglePlayer.gmap g) p
        /\ 0 <= Client.health p <= Client.maxHealth p
        /\ (Client.health p = 0 -> SinglePlayer.running g = false))
  /\ (forall m, SinglePlayer.monster g = Some m ->
        onWalkable (SinglePlayer.gmap g) (SinglePlayer.entity m)
        /\ 0 < Client.health (SinglePlayer.entity m)
           <= Client.maxHealth (SinglePlayer.entity m)).

(** ** The multiplayer client ([game-multiplayer.js]): the replica

    The client keeps a copy of the players and the monsters and updates it
    from the server's messages. Drawing, the log and the fireballs' flight
    (floating-point pixels) are left out; a fireball is kept as the record
    it was constructed from. *)

Module Multiplayer.

(** [Player] and [Monster] of the client: an [Entity] with constant emoji,
    and for a player the name [`Player${id}`] sent by the server. *)
Record Entity : Type := mkEntity
  { id : Z; x : Z; y : Z; health : Z; maxHealth : Z }.

(** [new Player(id, x, y, name)] *)
Definition newPlayer (id x y : Z) : Entity := mkEntity id x y 100 100.
(** [new Monster(id, x, y)] *)
Definition newMonster (id x y : Z) : Entity := mkEntity id x y 50 50.

Definition setPos (a : Entity) (x' y' : Z) : Entity :=
  mkEntity (id a) x' y' (health a) (maxHealth a).
Definition setHealth (a : Entity) (h : Z) : Entity :=
  mkEntity (id a) (x a) (y a) h (maxHealth a).

(** The fields of [game] that the message handler and the key listener
    read or write. A client fireball is kept as the record it is constructed
    from; its pixel position and velocity, and the animation loop that moves
    and removes fireballs, are outside this model. *)
Record Game : Type := mkGame
  { running : bool;
    gmap : GameMap;
    players : JsMap.t Entity;
    myPlayerId : option Z;
    monsters : JsMap.t Entity;
    fireballs : list Fireball.t }.

(** The [game] object when the page has loaded. *)
Definition initial : Game := mkGame false [] [] None [] [].

(** Mutating, through the reference that [get] returned, the entry of a key
    that is present; nothing when it is absent. *)
Definition update (m : JsMap.t Entity) (k : Z) (f : Entity -> Entity)
  : JsMap.t Entity :=
  match JsMap.get m k with
  | Some a => JsMap.set m k (f a)
  | None => m
  end.

(** [handleServerMessage]. The boolean is false when the handler ends in a
    [TypeError]: only the last statement of the [init] case can throw, the
    log line that reads the name of the client's own player, after the game
    has been updated. *)
Definition handleServerMessage (g : Game) (message : ServerMsg)
  : Game * bool :=
  match message with
  | init playerId map players monsters =>
      let ps :=
        fold_left
          (fun acc playerData =>
             JsMap.set acc (Player.id playerData)
               (setHealth (newPlayer (Player.id playerData)
                                     (Player.x playerData)
                                     (Player.y playerData))
                          (Player.health playerData)))
          players (Multiplayer.players g) in
      let ms :=
        fold_left
          (fun acc monsterData =>
             JsMap.set acc (Monster.id monsterData)
               (setHealth (newMonster (Monster.id monsterData)
                                      (Monster.x monsterData)
                                      (Monster.y monsterData))
                          (Monster.health monsterData)))
          monsters (Multiplayer.monsters g) in
      (mkGame true map ps (Some playerId) ms (fireballs g),
       match JsMap.get ps playerId with Some _ => true | None => false end)
  | playerJoined player =>
      (mkGame (running g) (gmap g)
              (JsMap.set (Multiplayer.players g) (Player.id player)
                 (setHealth (newPlayer (Player.id player) (Player.x player)
                                       (Player.y player))
                            (Player.health player)))
              (myPlayerId g) (Multiplayer.monsters g) (fireballs g),
       true)
  | playerLeft playerId =>
      (match JsMap.get (Multiplayer.players g) playerId with
       | Some _ =>
           mkGame (running g) (gmap g)
                  (JsMap.delete (Multiplayer.players g) playerId)
                  (myPlayerId g) (Multiplayer.monsters g) (fireballs g)
       | None => g
       end, true)
  | playerMoved playerId x y =>
      (mkGame (running g) (gmap g)
              (update (Multiplayer.players g) playerId
                      (fun a => setPos a x y))
              (myPlayerId g) (Multiplayer.monsters g) (fireballs g),
       true)
  | fireballCast fb =>
      (mkGame (running g) (gmap g) (Multiplayer.players g) (myPlayerId g)
              (Multiplayer.monsters g) (fireballs g ++ [fb]),
       true)
  | monsterMoved monsterId x y =>
      (mkGame (running g) (gmap g) (Multiplayer.players g) (myPlayerId g)
              (update (Multiplayer.monsters g) monsterId
                      (fun a => setPos a x y))
              (fireballs g),
       true)
  | monsterDamaged monsterId health _ =>
      (mkGame (running g) (gmap g) (Multiplayer.players g) (myPlayerId g)
              (update (Multiplayer.monsters g) monsterId
                      (fun a => setHealth a health))
              (fireballs g),
       true)
  | monsterDied monsterId =>
      (mkGame (running g) (gmap g) (Multiplayer.players g) (myPlayerId g)
              (JsMap.delete (Multiplayer.monsters g) monsterId)
              (fireballs g),
       true)
  | monsterSpawned monster =>
      (mkGame (running g) (gmap g) (Multiplayer.players g) (myPlayerId g)
              (JsMap.set (Multiplayer.monsters g) (Monster.id monster)
                 (setHealth (newMonster (Monster.id monster)
                                        (Monster.x monster)
                                        (Monster.y monster))
                            (Monster.health monster)))
              (fireballs g),
       true)
  | playerDamaged playerId health _ =>
      (mkGame (running g) (gmap g)
              (update (Multiplayer.players g) playerId
                      (fun a => setHealth a health))
              (myPlayerId g) (Multiplayer.monsters g) (fireballs g),
       true)
  | playerDied playerId =>
      (match myPlayerId g with
       | Some mine =>
           if playerId =? mine
           then mkGame false (gmap g) (Multiplayer.players g) (myPlayerId g)
                       (Multiplayer.monsters g) (fireballs g)
           else g
       | None => g
       end, true)
  end.

(** [ws.onmessage] for each message of a list in turn: an exception ends
    one handler run, not the connection. *)
Definition receive (g : Game) (messages : list ServerMsg) : Game :=
  fold_left (fun g m => fst (handleServerMessage g m)) messages g.

(** [canMoveTo(x, y)] over [game.map]. *)
Definition canMoveTo (g : Game) (x y : Z) : Result bool :=
  if (x <? 0) || (x >=? CONFIG.MAP_WIDTH)
     || (y <? 0) || (y >=? CONFIG.MAP_HEIGHT)
  then Ok false
  else tileWalkable (gmap g) x y.

Inductive Key : Type := KeyW | KeyS | KeyA | KeyD | KeyOther.

(** The [keydown] listener: the optimistic move and the [move] message it
    sends. [game.myPlayerId] is tested for truthiness, so an id of 0 counts
    as no id. *)
Definition keydown (g : Game) (key : Key)
  : Result (Game * option ClientMsg) :=
  if running g then
    match myPlayerId g with
    | Some mine =>
        if mine =? 0 then Ok (g, None) else
        match JsMap.get (Multiplayer.players g) mine with
        | None => Ok (g, None)
        | Some myPlayer =>
            let '(newX, newY, moved) :=
              match key with
              | KeyW => (x myPlayer, y myPlayer - 1, true)
              | KeyS => (x myPlayer, y myPlayer + 1, true)
              | KeyA => (x myPlayer - 1, y myPlayer, true)
              | KeyD => (x myPlayer + 1, y myPlayer, true)
              | KeyOther => (x myPlayer, y myPlayer, false)
              end in
            if moved then
              ok <- canMoveTo g newX newY ;;
              if ok then
                Ok (mkGame (running g) (gmap g)
                           (JsMap.set (Multiplayer.players g) mine
                                      (setPos myPlayer newX newY))
                           (myPlayerId g) (Multiplayer.monsters g)
                           (fireballs g),
                    Some (move newX newY))
              else Ok (g, None)
            else Ok (g, None)
        end
    | None => Ok (g, None)
    end
  else Ok (g, None).

End Multiplayer.

(** The server's players and monsters as a client holds them. *)
Definition viewPlayers (ps : JsMap.t Player.t) : JsMap.t Multiplayer.Entity :=
  List.map
    (fun kp =>
       (fst kp,
        Multiplayer.mkEntity (Player.id (snd kp)) (Player.x (snd kp))
                             (Player.y (snd kp)) (Player.health (snd kp))
                             100))
    ps.

Definition viewMonsters (ms : list Monster.t) : JsMap.t Multiplayer.Entity :=
  List.map
    (fun m =>
       (Monster.id m,
        Multiplayer.mkEntity (Monster.id m) (Monster.x m) (Monster.y m)
                             (Monster.health m) 50))
    ms.

(** The client's copy agrees with the players, the monsters and the map of
    the server. *)
Definition inSync (ps : JsMap.t Player.t) (ms : list Monster.t)
           (gm : GameMap) (c : Multiplayer.Game) : Prop :=
  Multiplayer.players c = viewPlayers ps
  /\ Multiplayer.monsters c = viewMonsters ms
  /\ Multiplayer.gmap c = gm.

Definition replicaOf (g : GameState) (c : Multiplayer.Game) : Prop :=
  inSync (players g) (monsters g) (map g) c.

(** Socket [s] is an open session of the world. *)
Definition openSession (w : World) (s : nat) : Prop :=
  exists ws, In ws (wssClients w) /\ sock ws = s /\ readyState ws = OPEN.

(** The events after which socket [s] keeps receiving: all but its own
    closing and close. *)
Definition keepsOpen (s : nat) (ev : Event) : Prop :=
  match ev with
  | EvClosing s' => s' <> s
  | EvClose s' => s' <> s
  | _ => True
  end.

(** Monster ids are pairwise distinct, as [Date.now() + Math.random()] makes
    them in practice. *)
Definition uniqueMonsterIds (w : World) : Prop :=
  NoDup (List.map Monster.id (monsters (gameState w))).

(** A run along which monster ids stay distinct and socket [s] stays open:
    the final world and the messages sent to [s]. *)
Inductive runsWith (s : nat) : World -> list Event -> World -> list ServerMsg -> Prop :=
| runsWith_nil w : runsWith s w [] w []
| runsWith_cons w ev w1 eff evs w2 msgs :
    step w ev = Some (w1, eff) ->
    keepsOpen s ev ->
    uniqueMonsterIds w1 ->
    runsWith s w1 evs w2 msgs ->
    runsWith s w (ev :: evs) w2 (messagesTo s eff ++ msgs).

(** A run after the first player has joined: a tick in which two monsters
    close in and hit, a melee attack, a second player who joins, moves and
    leaves, four fireball hits that kill a monster, and its respawn. *)
Definition busyRun : list Event :=
  [EvTick 1000 Demo.hits;
   EvMessage 1 (attack 102) Demo.env0;
   Demo.join2;
   EvMessage 2 (move 10 4) Demo.env0;
   EvMessage 1 (fireballHit 101) Demo.env0;
   EvMessage 1 (fireballHit 101) Demo.env0;
   EvMessage 1 (fireballHit 101) Demo.env0;
   EvMessage 1 (fireballHit 101) Demo.env0;
   EvRespawn (mkSpawnEnv 104 5000 (fun _ => (3, 3)) 5);
   EvClose 2].

(** The first player's client once it has handled its [init]. *)
Definition firstClient : Multiplayer.Game :=
  Multiplayer.mkGame true Demo.gmap
    (viewPlayers (players (gameState Demo.onePlayer))) (Some 1)
    (viewMonsters (monsters (gameState Demo.onePlayer))) [].

(** * Properties *)

(** ** Spatial rules *)

Lemma index_Some {A} (a : list A) i :
  0 <= i < Z.of_nat (length a) -> exists v, index a i = Some v /\ In v a.
Proof.
  intros H. unfold index.
  destruct (i <? 0) eqn:E; [lia|].
  destruct (nth_error a (Z.to_nat i)) eqn:N.
  - exists a0. split; [reflexivity|]. eapply nth_error_In; eauto.
  - apply nth_error_None in N. lia.
Qed.

Lemma inBounds_spec x y :
  inBounds x y = true <-> (0 <= x < CONFIG.MAP_WIDTH /\ 0 <= y < CONFIG.MAP_HEIGHT).
Proof.
  unfold inBounds. rewrite !andb_true_iff, !Z.leb_le, !Z.ltb_lt. lia.
Qed.

Lemma tileAt_inBounds gmap x y :
  wellFormed gmap = true -> inBounds x y = true ->
  exists t, tileAt gmap x y = Some t.
Proof.
  unfold wellFormed. rewrite andb_true_iff, Z.eqb_eq, forallb_forall.
  intros [Hh Hw] Hb. apply inBounds_spec in Hb.
  destruct (index_Some gmap y) as (row & Hr & Hin); [lia|].
  specialize (Hw _ Hin). apply Z.eqb_eq in Hw.
  destruct (index_Some row x) as (t & Ht & _); [lia|].
  exists t. unfold tileAt. now rewrite Hr.
Qed.

Lemma tileWalkable_inBounds gmap x y :
  wellFormed gmap = true -> inBounds x y = true ->
  tileWalkable gmap x y = Ok (walkableAt gmap x y).
Proof.
  intros Hwf Hb. destruct (tileAt_inBounds _ _ _ Hwf Hb) as [t Ht].
  unfold tileWalkable, walkableAt. now rewrite Ht.
Qed.

Lemma randomInt_range n e : 0 < n -> 0 <= randomInt n e < n.
Proof. intros. unfold randomInt. apply Z.mod_pos_bound; lia. Qed.

Lemma randomInt_onto n k : 0 <= k < n -> randomInt n k = k.
Proof. intros. unfold randomInt. apply Z.mod_small; lia. Qed.

Lemma spawnSample_range e :
  2 <= fst (spawnSample e) <= CONFIG.MAP_WIDTH - 3
  /\ 2 <= snd (spawnSample e) <= CONFIG.MAP_HEIGHT - 3.
Proof.
  unfold spawnSample, CONFIG.MAP_WIDTH, CONFIG.MAP_HEIGHT; simpl.
  pose proof (randomInt_range 16 (fst e)). pose proof (randomInt_range 11 (snd e)). lia.
Qed.

Lemma spawnSample_inBounds e :
  inBounds (fst (spawnSample e)) (snd (spawnSample e)) = true.
Proof.
  apply inBounds_spec. pose proof (spawnSample_range e).
  unfold CONFIG.MAP_WIDTH, CONFIG.MAP_HEIGHT in *. lia.
Qed.

Lemma spawnSearch_unfold gmap rnd attempts more :
  spawnSearch gmap rnd attempts more =
  (w <- tileWalkable gmap (fst (spawnSample (rnd attempts)))
                     (snd (spawnSample (rnd attempts))) ;;
   match more with
   | S more' =>
       if negb w then spawnSearch gmap rnd (S attempts) more'
       else Ok (spawnSample (rnd attempts), S attempts)
   | O => Ok (spawnSample (rnd attempts), S attempts)
   end).
Proof.
  destruct more; cbn [spawnSearch];
    destruct (spawnSample (rnd attempts)); reflexivity.
Qed.

Lemma spawnSearch_spec gmap rnd :
  wellFormed gmap = true ->
  forall more attempts,
  exists x y n,
    spawnSearch gmap rnd attempts more = Ok (x, y, n)
    /\ (attempts < n <= attempts + more + 1)%nat
    /\ (x, y) = spawnSample (rnd (n - 1)%nat)
    /\ (forall i, (attempts <= i < n - 1)%nat ->
          walkableAt gmap (fst (spawnSample (rnd i))) (snd (spawnSample (rnd i))) = false)
    /\ (walkableAt gmap x y = true \/ n = (attempts + more + 1)%nat).
Proof.
  intros Hwf. induction more as [|more IH]; intros attempts;
    rewrite spawnSearch_unfold;
    rewrite (tileWalkable_inBounds _ _ _ Hwf (spawnSample_inBounds (rnd attempts)));
    cbn [bind];
    destruct (spawnSample (rnd attempts)) as [x y] eqn:E; cbn [fst snd].
  - exists x, y, (S attempts).
    replace (S attempts - 1)%nat with attempts by lia.
    repeat split; try lia; auto.
  - destruct (walkableAt gmap x y) eqn:W; cbn [negb].
    + exists x, y, (S attempts).
      replace (S attempts - 1)%nat with attempts by lia.
      repeat split; try lia; auto.
    + destruct (IH (S attempts)) as (x' & y' & n & Hr & Hn & Hs & Hprev & Hlast).
      exists x', y', n. repeat split; try lia; auto.
      * intros i Hi. destruct (Nat.eq_dec i attempts) as [->|Hne].
        -- now rewrite E.
        -- apply Hprev; lia.
      * destruct Hlast; [now left | right; lia].
Qed.

(** ** Message handling *)

Lemma isValidMove_true gmap x y :
  isValidMove gmap x y = Ok true <->
  inBounds x y && walkableAt gmap x y = true.
Proof.
  unfold isValidMove, inBounds, tileWalkable, walkableAt.
  destruct (x <? 0) eqn:E1, (x >=? CONFIG.MAP_WIDTH) eqn:E2,
           (y <? 0) eqn:E3, (y >=? CONFIG.MAP_HEIGHT) eqn:E4;
    cbn [orb];
    try (split; [discriminate | rewrite !andb_true_iff, !Z.leb_le, !Z.ltb_lt; lia]).
  replace (0 <=? x) with true by (symmetry; apply Z.leb_le; lia).
  replace (x <? CONFIG.MAP_WIDTH) with true by (symmetry; apply Z.ltb_lt; lia).
  replace (0 <=? y) with true by (symmetry; apply Z.leb_le; lia).
  replace (y <? CONFIG.MAP_HEIGHT) with true by (symmetry; apply Z.ltb_lt; lia).
  cbn [andb]. destruct (tileAt gmap x y) as [t|].
  - split; [now inversion 1 | now intros ->].
  - split; discriminate.
Qed.

Lemma isValidMove_not_true gmap x y :
  inBounds x y && walkableAt gmap x y = false ->
  isValidMove gmap x y = Ok false \/ isValidMove gmap x y = Throw.
Proof.
  intros H. destruct (isValidMove gmap x y) as [[|]| |] eqn:E; auto.
  - apply isValidMove_true in E. congruence.
  - exfalso. unfold isValidMove, tileWalkable in E.
    destruct (_ || _); [discriminate|]. destruct (tileAt gmap x y); discriminate.
Qed.

Lemma get_set_same {V} (m : JsMap.t V) k v :
  JsMap.get (JsMap.set m k v) k = Some v.
Proof.
  induction m as [|[k' v'] m IH]; cbn.
  - now rewrite Z.eqb_refl.
  - destruct (k' =? k) eqn:E; cbn.
    + now rewrite Z.eqb_refl.
    + now rewrite E.
Qed.

Lemma In_set {V} (m : JsMap.t V) k v k' v' :
  In (k', v') (JsMap.set m k v) -> (k', v') = (k, v) \/ In (k', v') m.
Proof.
  induction m as [|[k0 v0] m IH]; cbn.
  - intros [H|[]]; auto.
  - destruct (k0 =? k); cbn; intros [H|H]; auto.
    destruct (IH H); auto.
Qed.

Lemma timeoutsSet_broadcast clients message excl :
  timeoutsSet (broadcast clients message excl) = 0%nat.
Proof.
  unfold timeoutsSet, broadcast.
  induction clients as [|c cs IH]; cbn; [reflexivity|].
  destruct (negb _ && _); cbn; exact IH.
Qed.

Lemma broadcast_all clients message :
  broadcast clients message None
  = List.map (fun s => Send s message) (openSockets clients).
Proof.
  unfold broadcast, openSockets.
  induction clients as [|c cs IH]; cbn; [reflexivity|].
  destruct (isOpen (readyState c)); cbn; [f_equal|]; exact IH.
Qed.

Lemma In_openSockets clients c :
  In c clients -> isOpen (readyState c) = true -> In (sock c) (openSockets clients).
Proof.
  intros Hin Ho. unfold openSockets. apply in_map.
  apply filter_In. auto.
Qed.

(** C10. A message of any type from a session whose player id is not in
    the player collection leaves the whole game state unchanged and
    broadcasts nothing, both in [handleClientMessage] itself and in the
    event-loop step that runs it. *)
Theorem message_without_player_ignored :
  forall (w : World) (s : nat) (ws : WebSocket) (message : ClientMsg) (env : Env),
    findClient (wssClients w) s = Some ws ->
    JsMap.get (players (gameState w)) (playerId ws) = None ->
    handleClientMessage (gameState w) (wssClients w) ws message env
      = Ok (gameState w, [])
    /\ step w (EvMessage s message env) = Some (w, []).
Proof.
  intros w s ws message env Hc Hp.
  assert (H : handleClientMessage (gameState w) (wssClients w) ws message env
              = Ok (gameState w, [])).
  { unfold handleClientMessage. now rewrite Hp. }
  split; [exact H|].
  unfold step. rewrite Hc. unfold onMessage. rewrite H.
  destruct w; cbn. now rewrite Nat.add_0_r.
Qed.

(** C1. For a session whose player exists, a [move(x,y)] is accepted
    exactly when [(x,y)] is in bounds ([0 <= x < 20], [0 <= y < 15]) and
    the tile there is walkable. When accepted, the player's position
    becomes [(x,y)] and [playerMoved] is broadcast; when rejected, the world
    (game state and sessions) is unchanged and nothing is sent. *)
Theorem move_accepted_iff_valid :
  forall (w : World) (s : nat) (ws : WebSocket) (player : Player.t)
         (x y : Z) (env : Env),
    findClient (wssClients w) s = Some ws ->
    JsMap.get (players (gameState w)) (playerId ws) = Some player ->
    let valid := inBounds x y && walkableAt (map (gameState w)) x y in
    (inBounds x y = true <-> 0 <= x < 20 /\ 0 <= y < 15)
    /\ (valid = true ->
        exists w',
          step w (EvMessage s (move x y) env)
            = Some (w', broadcast (wssClients w)
                                  (playerMoved (playerId ws) x y) None)
          /\ gameState w'
             = setPlayers (gameState w)
                 (JsMap.set (players (gameState w)) (playerId ws)
                            (Player.setPos player x y))
          /\ JsMap.get (players (gameState w')) (playerId ws)
             = Some (Player.mk (Player.id player) x y
                               (Player.health player) (Player.maxHealth player))
          /\ wssClients w' = wssClients w
          /\ pendingRespawns w' = pendingRespawns w)
    /\ (valid = false -> step w (EvMessage s (move x y) env) = Some (w, [])).
Proof.
  intros w s ws player x y env Hc Hp valid. split; [|split].
  - rewrite inBounds_spec. unfold CONFIG.MAP_WIDTH, CONFIG.MAP_HEIGHT. lia.
  - intros Hv. apply isValidMove_true in Hv.
    unfold step. rewrite Hc. unfold onMessage, handleClientMessage.
    rewrite Hp, Hv. cbn [bind].
    rewrite timeoutsSet_broadcast, Nat.add_0_r.
    eexists. split; [reflexivity|]. cbn.
    rewrite get_set_same. auto.
  - intros Hv. unfold step. rewrite Hc. unfold onMessage, handleClientMessage.
    rewrite Hp.
    destruct (isValidMove_not_true _ _ _ Hv) as [-> | ->]; cbn;
      destruct w; cbn; now rewrite Nat.add_0_r.
Qed.

(** C3, as the code has it. For every accepted move request, the
    [playerMoved] broadcast is sent once to every open session, in the order
    of [wss.clients], the sender's own session included when it is open. *)
Theorem playerMoved_reaches_every_open_session :
  forall (g : GameState) (clients : list WebSocket) (ws : WebSocket)
         (player : Player.t) (x y : Z) (env : Env),
    JsMap.get (players g) (playerId ws) = Some player ->
    isValidMove (map g) x y = Ok true ->
    snd (onMessage g clients ws (move x y) env)
      = List.map (fun s => Send s (playerMoved (playerId ws) x y))
                 (openSockets clients)
    /\ (In ws clients -> isOpen (readyState ws) = true ->
        In (Send (sock ws) (playerMoved (playerId ws) x y))
           (snd (onMessage g clients ws (move x y) env))).
Proof.
  intros g clients ws player x y env Hp Hv.
  assert (E : snd (onMessage g clients ws (move x y) env)
              = List.map (fun s => Send s (playerMoved (playerId ws) x y))
                         (openSockets clients)).
  { unfold onMessage, handleClientMessage. rewrite Hp, Hv. cbn.
    apply broadcast_all. }
  split; [exact E|].
  intros Hin Ho. rewrite E.
  apply (in_map (fun s => Send s (playerMoved (playerId ws) x y))).
  now apply In_openSockets.
Qed.


(** ** Monster damage *)

Lemma findMonster_Some ms id m :
  findMonster ms id = Some m -> In m ms /\ Monster.id m = id.
Proof.
  unfold findMonster. intros H. apply find_some in H.
  destruct H as [Hin He]. apply Z.eqb_eq in He. auto.
Qed.

Lemma findMonster_filtered ms id :
  findMonster (filter (fun m => negb (Monster.id m =? id)) ms) id = None.
Proof.
  unfold findMonster. induction ms as [|m ms IH]; cbn; [reflexivity|].
  destruct (Monster.id m =? id) eqn:E; cbn; [exact IH|].
  now rewrite E.
Qed.

Lemma findMonster_updateFound ms id m f :
  findMonster ms id = Some m ->
  Monster.id (f m) = Monster.id m ->
  findMonster (updateFound ms id f) id = Some (f m).
Proof.
  unfold findMonster. induction ms as [|m0 ms IH]; cbn; [discriminate|].
  destruct (Monster.id m0 =? id) eqn:E; cbn.
  - intros [= ->] Hid. rewrite Hid, E. reflexivity.
  - intros H Hid. rewrite E. auto.
Qed.

Lemma In_updateFound ms id f m0 m' :
  findMonster ms id = Some m0 ->
  In m' (updateFound ms id f) ->
  In m' ms \/ m' = f m0.
Proof.
  unfold findMonster. induction ms as [|m ms IH]; cbn; [discriminate|].
  destruct (Monster.id m =? id) eqn:E; cbn.
  - intros [= ->] [<-|H]; auto.
  - intros Hf [<-|H]; auto.
    destruct (IH Hf H); auto.
Qed.

Lemma Forall_updateFound (P : Monster.t -> Prop) ms id f m0 :
  findMonster ms id = Some m0 ->
  Forall P ms -> P (f m0) ->
  Forall P (updateFound ms id f).
Proof.
  unfold findMonster. intros Hf H. revert Hf.
  induction H as [|m ms Hm Hms IH]; cbn; [discriminate|].
  destruct (Monster.id m =? id) eqn:E.
  - intros [= ->] Hp. constructor; auto.
  - intros Hf Hp. constructor; auto.
Qed.

Lemma attack_is_applyDamage g clients ws monsterId env :
  handleClientMessage g clients ws (attack monsterId) env
  = Ok (Spec.applyDamage (randomInt 5 (entropy env) + 8) g clients ws monsterId).
Proof.
  unfold handleClientMessage, Spec.applyDamage.
  destruct (JsMap.get (players g) (playerId ws)); [|reflexivity].
  destruct (findMonster (monsters g) monsterId) as [m|]; [|reflexivity].
  cbv zeta.
  destruct (Z.leb_spec (Monster.health m - (randomInt 5 (entropy env) + 8)) 0);
    destruct (Z.ltb_spec 0 (Monster.health m - (randomInt 5 (entropy env) + 8)));
    try lia; reflexivity.
Qed.

Lemma fireballHit_is_applyDamage g clients ws monsterId env :
  handleClientMessage g clients ws (fireballHit monsterId) env
  = Ok (Spec.applyDamage 15 g clients ws monsterId).
Proof.
  unfold handleClientMessage, Spec.applyDamage.
  destruct (JsMap.get (players g) (playerId ws)); [|reflexivity].
  destruct (findMonster (monsters g) monsterId) as [m|]; [|reflexivity].
  cbv zeta.
  destruct (Z.leb_spec (Monster.health m - 15) 0);
    destruct (Z.ltb_spec 0 (Monster.health m - 15));
    try lia; reflexivity.
Qed.

(** What a damage message does to a monster that is found, for any positive
    damage value: the shape shared by the two handlers. *)
Lemma applyDamage_found damage g clients ws player id monster :
  JsMap.get (players g) (playerId ws) = Some player ->
  findMonster (monsters g) id = Some monster ->
  0 < damage ->
  let health := Monster.health monster - damage in
  let r := Spec.applyDamage damage g clients ws id in
  (health <= 0 ->
     snd r = broadcast clients (monsterDied id) None ++ [SetTimeoutRespawn 5000]
     /\ monsters (fst r)
        = filter (fun m => negb (Monster.id m =? id)) (monsters g)
     /\ findMonster (monsters (fst r)) id = None)
  /\ (0 < health ->
     snd r = broadcast clients (monsterDamaged id health damage) None
     /\ findMonster (monsters (fst r)) id
        = Some (Monster.setHealth monster health))
  /\ (forall m', In m' (monsters (fst r)) ->
        exists m, In m (monsters g) /\ Monster.id m' = Monster.id m
                  /\ (m' = m \/ 0 < Monster.health m' < Monster.health m)).
Proof.
  intros Hp Hf Hd health r. subst r. unfold Spec.applyDamage.
  rewrite Hp, Hf. fold health.
  destruct (Z.ltb_spec 0 health) as [Hpos|Hneg];
    cbn [fst snd monsters setMonsters].
  - split; [lia|]. split.
    + intros _. split; [reflexivity|].
      now apply (findMonster_updateFound _ _ _ (fun m => Monster.setHealth m health)).
    + intros m' Hin. apply (In_updateFound _ _ _ _ _ Hf) in Hin.
      destruct Hin as [Hin| ->].
      * exists m'. auto.
      * exists monster. apply findMonster_Some in Hf.
        split; [tauto|]. split; [reflexivity|]. right. cbn. lia.
  - split; [|split; [lia|]].
    + intros _. split; [reflexivity|]. split; [reflexivity|].
      apply findMonster_filtered.
    + intros m' Hin. apply filter_In in Hin. exists m'. tauto.
Qed.

(** C5. The [fireballHit] handler and the [attack] (melee) handler are the
    same damage-application contract, instantiated with the fixed damage 15
    and with a drawn damage respectively; the drawn damage is an integer
    between 8 and 12 inclusive, and each of 8, 9, 10, 11, 12 is drawn for
    some outcome of the random source. *)
Theorem fireballHit_same_contract_as_attack :
  forall (g : GameState) (clients : list WebSocket) (ws : WebSocket)
         (monsterId : Z) (env : Env),
    handleClientMessage g clients ws (attack monsterId) env
      = Ok (Spec.applyDamage (randomInt 5 (entropy env) + 8)
                             g clients ws monsterId)
    /\ handleClientMessage g clients ws (fireballHit monsterId) env
      = Ok (Spec.applyDamage 15 g clients ws monsterId)
    /\ 8 <= randomInt 5 (entropy env) + 8 <= 12
    /\ List.map (fun e => randomInt 5 e + 8) [0; 1; 2; 3; 4]
       = [8; 9; 10; 11; 12].
Proof.
  intros g clients ws monsterId env.
  split; [apply attack_is_applyDamage|].
  split; [apply fireballHit_is_applyDamage|].
  split; [|reflexivity].
  pose proof (randomInt_range 5 (entropy env)). lia.
Qed.

(** ** Preservation of the invariant *)

Lemma generateMap_wellFormed pick : wellFormed (generateMap pick) = true.
Proof. reflexivity. Qed.

Lemma tileWalkable_Ok gmap x y w :
  tileWalkable gmap x y = Ok w -> walkableAt gmap x y = w.
Proof.
  unfold tileWalkable, walkableAt.
  destruct (tileAt gmap x y); [now intros [= ->] | discriminate].
Qed.

Lemma spawnMonsterSearch_Ok gmap rnd fuel :
  forall i x y,
    spawnMonsterSearch gmap rnd i fuel = Ok (x, y) ->
    inBounds x y = true /\ walkableAt gmap x y = true.
Proof.
  induction fuel as [|fuel IH]; intros i x y; cbn; [discriminate|].
  destruct (tileWalkable gmap _ _) as [w| |] eqn:E; cbn; try discriminate.
  destruct w; cbn.
  - intros [= <- <-]. split.
    + apply inBounds_spec.
      pose proof (randomInt_range CONFIG.MAP_WIDTH (fst (rnd i))).
      pose proof (randomInt_range CONFIG.MAP_HEIGHT (snd (rnd i))).
      unfold CONFIG.MAP_WIDTH, CONFIG.MAP_HEIGHT in *. lia.
    + now apply tileWalkable_Ok.
  - apply IH.
Qed.

Lemma spawnMonster_Ok g env g' m :
  spawnMonster g env = Ok (g', m) ->
  g' = setMonsters g (monsters g ++ [m])
  /\ monsterOk (map g) m
  /\ Monster.health m = 50 /\ Monster.maxHealth m = 50.
Proof.
  unfold spawnMonster.
  destruct (spawnMonsterSearch _ _ _ _) as [[x y]| |] eqn:E; cbn; try discriminate.
  intros [= <- <-]. apply spawnMonsterSearch_Ok in E.
  unfold monsterOk; cbn. intuition lia.
Qed.

Lemma spawnMonsters_inv envs count :
  forall i g g',
    spawnMonsters g envs i count = Ok g' ->
    forall strict, stateOk strict g -> stateOk strict g'.
Proof.
  induction count as [|count IH]; intros i g g'; cbn.
  - now intros [= ->].
  - destruct (spawnMonster g (envs i)) as [[g1 m]| |] eqn:E; cbn; try discriminate.
    intros H strict Hinv. apply (IH _ _ _ H).
    apply spawnMonster_Ok in E. destruct E as (-> & Hm & _).
    destruct Hinv as (Hwf & Hms & Hps). unfold stateOk; cbn in *.
    repeat split; auto. apply Forall_app. auto.
Qed.

Lemma initGame_inv pick envs g strict :
  initGame pick envs = Ok g -> stateOk strict g.
Proof.
  unfold initGame. intros H. apply (spawnMonsters_inv _ _ _ _ _ H).
  unfold stateOk; cbn. split; [apply generateMap_wellFormed|]. auto.
Qed.

Lemma Forall_set {V} (P : Z * V -> Prop) (m : JsMap.t V) k v :
  Forall P m -> P (k, v) -> Forall P (JsMap.set m k v).
Proof.
  induction 1 as [|[k0 v0] m H0 Hm IH]; cbn; intros Hkv.
  - auto.
  - destruct (k0 =? k); constructor; auto.
Qed.

Lemma Forall_filter {A} (P : A -> Prop) f (l : list A) :
  Forall P l -> Forall P (filter f l).
Proof.
  rewrite !Forall_forall. intros H a Ha. apply filter_In in Ha. apply H, Ha.
Qed.

Lemma nearestPlayer_In ps monster k p d :
  nearestPlayer ps monster = Some (k, p, d) -> In (k, p) ps.
Proof.
  unfold nearestPlayer.
  assert (G : forall acc,
             fold_left (nearestStep monster) ps acc = Some (k, p, d) ->
             In (k, p) ps \/ acc = Some (k, p, d)).
  { induction ps as [|[k0 p0] ps IH]; cbn; intros acc H; [auto|].
    destruct (IH _ H) as [Hin|Hacc]; [auto|].
    unfold nearestStep in Hacc; cbn in Hacc.
    destruct acc as [[[k1 p1] d1]|].
    - destruct (_ <? d1); [inversion Hacc; subst; auto | auto].
    - inversion Hacc; subst; auto. }
  intros H. destruct (G _ H) as [Hin|Habs]; [exact Hin | discriminate].
Qed.

Lemma get_In {V} (m : JsMap.t V) k v :
  JsMap.get m k = Some v -> exists k', In (k', v) m.
Proof.
  induction m as [|[k0 v0] m IH]; cbn; [discriminate|].
  destruct (k0 =? k).
  - intros [= ->]. eauto.
  - intros H. destruct (IH H) as [k' Hk]. eauto.
Qed.

Lemma spawnSearch_lucky gmap rnd x y n :
  wellFormed gmap = true ->
  spawnSearch gmap rnd 0 99 = Ok (x, y, n) ->
  luckySpawn gmap rnd -> walkableAt gmap x y = true.
Proof.
  intros Hwf Hr (i & Hi & Hw).
  destruct (spawnSearch_spec _ rnd Hwf 99 0) as (x' & y' & n' & Hr' & Hn & Hs & Hprev & Hlast).
  rewrite Hr in Hr'. inversion Hr'; subst x' y' n'.
  destruct (walkableAt gmap x y) eqn:E; [reflexivity|].
  destruct Hlast as [Habs| ->]; [discriminate|].
  destruct (Nat.eq_dec i 99) as [->|Hne].
  - cbn in Hs. rewrite <- Hs in Hw. cbn in Hw. congruence.
  - rewrite Hprev in Hw; [discriminate | lia].
Qed.

Lemma onConnection_inv strict g clients s rnd g' clients' eff :
  stateOk strict g ->
  (strict = true -> luckySpawn (map g) rnd) ->
  onConnection g clients s rnd = Ok (g', clients', eff) ->
  stateOk strict g'.
Proof.
  intros (Hwf & Hms & Hps) Hl.
  unfold onConnection, findSpawnPosition, findSpawnPositionCount.
  cbn [map].
  destruct (spawnSearch_spec _ rnd Hwf 99 0) as (x & y & n & Hr & _ & Hs & _).
  rewrite Hr. cbn. intros [= <- <- <-]. unfold stateOk; cbn.
  repeat split; auto. apply Forall_set; auto.
  unfold playerOk; cbn. split; [|split; [|lia]].
  - pose proof (spawnSample_inBounds (rnd (n - 1)%nat)) as Hb.
    now rewrite <- Hs in Hb.
  - intros Hst. eapply spawnSearch_lucky; eauto.
Qed.

Lemma applyDamage_inv strict damage g clients ws id :
  0 < damage -> stateOk strict g ->
  stateOk strict (fst (Spec.applyDamage damage g clients ws id)).
Proof.
  intros Hd Hinv. pose proof Hinv as (Hwf & Hms & Hps).
  unfold Spec.applyDamage.
  destruct (JsMap.get _ _) as [player|]; [|exact Hinv].
  destruct (findMonster _ id) as [m|] eqn:Hf; [|exact Hinv].
  cbv zeta.
  destruct (Z.ltb_spec 0 (Monster.health m - damage));
    unfold stateOk; cbn; repeat split; auto.
  - apply (Forall_updateFound _ _ _ _ m); auto.
    apply findMonster_Some in Hf. destruct Hf as [Hin _].
    rewrite Forall_forall in Hms. destruct (Hms _ Hin) as (Hb & Hw & Hh).
    unfold monsterOk; cbn. repeat split; auto; lia.
  - now apply Forall_filter.
Qed.

Lemma onMessage_inv strict g clients ws message env :
  stateOk strict g -> stateOk strict (fst (onMessage g clients ws message env)).
Proof.
  intros Hinv. pose proof Hinv as (Hwf & Hms & Hps).
  unfold onMessage.
  destruct message as [x y|tx ty|id|id|].
  - unfold handleClientMessage.
    destruct (JsMap.get _ _) as [player|] eqn:Hp; [|exact Hinv].
    destruct (isValidMove _ x y) as [[|]| |] eqn:Hv; cbn; try exact Hinv.
    apply isValidMove_true in Hv. apply andb_true_iff in Hv.
    unfold stateOk; cbn. repeat split; auto.
    apply Forall_set; auto. unfold playerOk; cbn.
    split; [tauto|]. split; [tauto|].
    destruct (get_In _ _ _ Hp) as [k Hk].
    rewrite Forall_forall in Hps. apply (Hps _ Hk).
  - unfold handleClientMessage.
    destruct (JsMap.get _ _) as [player|] eqn:Hp; [|exact Hinv].
    cbn. unfold stateOk; cbn. auto.
  - rewrite attack_is_applyDamage. cbn [fst].
    apply applyDamage_inv; auto.
    pose proof (randomInt_range 5 (entropy env)). lia.
  - rewrite fireballHit_is_applyDamage. cbn [fst].
    apply applyDamage_inv; auto. lia.
  - unfold handleClientMessage.
    destruct (JsMap.get _ _); exact Hinv.
Qed.

Lemma onClose_inv strict g clients ws :
  stateOk strict g -> stateOk strict (fst (fst (onClose g clients ws))).
Proof.
  intros (Hwf & Hms & Hps). unfold onClose, stateOk; cbn.
  repeat split; auto. unfold JsMap.delete. now apply Forall_filter.
Qed.

Lemma monsterTick_inv strict gmap clients now roll e ps m m' ps' eff :
  monsterTick gmap clients now roll e ps m = Ok (m', ps', eff) ->
  monsterOk gmap m -> Forall (playerOk strict gmap) ps ->
  monsterOk gmap m' /\ Forall (playerOk strict gmap) ps'.
Proof.
  unfold monsterTick. intros H Hm Hps.
  destruct (now - Monster.lastMove m >? 500); [|inversion H; subst; auto].
  destruct (nearestPlayer ps _) as [[[key nearest] minDistance]|] eqn:Hn;
    [|inversion H; subst; auto].
  destruct (direction _ _) as [moveX moveY].
  cbn [Monster.setLastMove Monster.x Monster.y Monster.id] in H.
  destruct (isValidMove gmap _ _) as [valid| |] eqn:Hv; cbn [bind] in H;
    try discriminate.
  assert (Hm1 : monsterOk gmap
                  (fst (if valid
                        then (Monster.setPos (Monster.setLastMove m now)
                                (Monster.x m + moveX) (Monster.y m + moveY),
                              broadcast clients
                                (monsterMoved (Monster.id m)
                                   (Monster.x m + moveX) (Monster.y m + moveY)) None)
                        else (Monster.setLastMove m now, [])))).
  { destruct valid; cbn.
    - apply isValidMove_true in Hv. apply andb_true_iff in Hv.
      destruct Hm as (_ & _ & Hh). unfold monsterOk; cbn. tauto.
    - exact Hm. }
  destruct (if valid then _ else _) as [m1 moved]. cbn [fst] in Hm1.
  destruct ((minDistance <=? 2) && roll).
  - inversion H; subst. split; [exact Hm1|].
    apply Forall_set; auto.
    apply nearestPlayer_In in Hn. rewrite Forall_forall in Hps.
    destruct (Hps _ Hn) as (Hb & Hw & Hh). cbn in Hb, Hw, Hh.
    unfold playerOk; cbn. split; [exact Hb|]. split; [exact Hw|].
    pose proof (randomInt_range 6 e). lia.
  - inversion H; subst. auto.
Qed.

Lemma forEachMonster_inv strict gmap clients now rnd ms :
  forall i ps ms' ps' eff,
    forEachMonster gmap clients now rnd i ms ps = Ok (ms', ps', eff) ->
    Forall (monsterOk gmap) ms -> Forall (playerOk strict gmap) ps ->
    Forall (monsterOk gmap) ms' /\ Forall (playerOk strict gmap) ps'.
Proof.
  induction ms as [|m ms IH]; intros i ps ms' ps' eff; cbn.
  - intros [= <- <- <-]; auto.
  - destruct (monsterTick _ _ _ _ _ _ _) as [[[m1 ps1] eff1]| |] eqn:E1;
      cbn; try discriminate.
    destruct (forEachMonster _ _ _ _ _ _ _) as [[[ms2 ps2] eff2]| |] eqn:E2;
      cbn; try discriminate.
    intros [= <- <- <-] Hms Hps. inversion Hms; subst.
    destruct (monsterTick_inv strict _ _ _ _ _ _ _ _ _ _ E1) as [Hm1 Hps1]; auto.
    destruct (IH _ _ _ _ _ E2) as [Hms2 Hps2]; auto.
Qed.

Lemma gameLoop_inv strict g clients now rnd g' eff :
  gameLoop g clients now rnd = Ok (g', eff) ->
  stateOk strict g -> stateOk strict g'.
Proof.
  unfold gameLoop. intros H (Hwf & Hms & Hps).
  destruct (forEachMonster _ _ _ _ _ _ _) as [[[ms ps] eff1]| |] eqn:E;
    cbn in H; try discriminate.
  inversion H; subst.
  destruct (forEachMonster_inv strict _ _ _ _ _ _ _ _ _ _ E) as [H1 H2]; auto.
  unfold stateOk; cbn. auto.
Qed.

Lemma respawnCallback_inv strict g clients env g' eff :
  respawnCallback g clients env = Ok (g', eff) ->
  stateOk strict g -> stateOk strict g'.
Proof.
  unfold respawnCallback. intros H (Hwf & Hms & Hps).
  destruct (spawnMonster g env) as [[g1 m]| |] eqn:E; cbn in H; try discriminate.
  inversion H; subst. apply spawnMonster_Ok in E. destruct E as (-> & Hm & _).
  unfold stateOk; cbn. repeat split; auto. apply Forall_app. auto.
Qed.

Lemma step_inv strict w ev w' eff :
  step w ev = Some (w', eff) ->
  stateOk strict (gameState w) ->
  (strict = true -> noUnluckySpawn (map (gameState w)) ev) ->
  stateOk strict (gameState w').
Proof.
  unfold step. intros H Hinv Hl.
  destruct ev as [s rnd|s message env|s|s|now rnd|env].
  - destruct (findClient _ s); [discriminate|].
    destruct (onConnection _ _ _ _) as [[[g1 c1] e1]| |] eqn:E; try discriminate.
    inversion H; subst. cbn. eapply onConnection_inv; eauto.
  - destruct (findClient _ s) as [ws|]; [|discriminate].
    pose proof (onMessage_inv _ _ (wssClients w) ws message env Hinv) as Hi.
    destruct (onMessage _ _ _ _ _) as [g1 e1]. inversion H; subst. exact Hi.
  - destruct (findClient _ s); [|discriminate]. inversion H; subst. exact Hinv.
  - destruct (findClient _ s) as [ws|]; [|discriminate].
    pose proof (onClose_inv _ _ (wssClients w) ws Hinv) as Hi.
    destruct (onClose _ _ _) as [[g1 c1] e1]. inversion H; subst. exact Hi.
  - destruct (gameLoop _ _ _ _) as [[g1 e1]| |] eqn:E; try discriminate.
    inversion H; subst. cbn. eapply gameLoop_inv; eauto.
  - destruct (pendingRespawns w); [discriminate|].
    destruct (respawnCallback _ _ _) as [[g1 e1]| |] eqn:E; try discriminate.
    inversion H; subst. cbn. eapply respawnCallback_inv; eauto.
Qed.

Lemma reachable_invariant w : reachable w -> invariant w.
Proof.
  induction 1 as [pick envs g Hg | w ev w' eff Hr IH Hs].
  - unfold invariant; cbn. eapply initGame_inv; eauto.
  - eapply step_inv; eauto. discriminate.
Qed.

(** ** Concrete worlds are reachable *)

Lemma step_reachable w ev w' :
  reachable w -> option_map fst (step w ev) = Some w' -> reachable w'.
Proof.
  intros Hr H. destruct (step w ev) as [[w1 eff]|] eqn:E; [|discriminate].
  cbn in H. inversion H; subst. eapply reachable_step; eauto.
Qed.

Lemma run_reachable evs :
  forall w w' eff, reachable w -> run w evs = Some (w', eff) -> reachable w'.
Proof.
  induction evs as [|ev evs IH]; intros w w' eff Hr; cbn.
  - now intros [= <- _].
  - destruct (step w ev) as [[w1 e1]|] eqn:E; [|discriminate].
    destruct (run w1 evs) as [[w2 e2]|] eqn:E2; [|discriminate].
    intros [= <- _]. eapply IH; [|exact E2]. eapply reachable_step; eauto.
Qed.

Lemma run_reachable_fst evs w w' :
  reachable w -> option_map fst (run w evs) = Some w' -> reachable w'.
Proof.
  intros Hr H. destruct (run w evs) as [[w1 eff]|] eqn:E; [|discriminate].
  cbn in H. inversion H; subst. eapply run_reachable; eauto.
Qed.

Lemma started_reachable : reachable Demo.started.
Proof. apply (reachable_init Demo.pick Demo.spawnEnvs). reflexivity. Qed.

Lemma onePlayer_reachable : reachable Demo.onePlayer.
Proof.
  apply (step_reachable _ Demo.join1 _ started_reachable). reflexivity.
Qed.

Lemma twoPlayers_reachable : reachable Demo.twoPlayers.
Proof.
  apply (step_reachable _ Demo.join2 _ onePlayer_reachable). reflexivity.
Qed.

Lemma unluckyPlayer_reachable : reachable Demo.unluckyPlayer.
Proof.
  apply (step_reachable _ Demo.joinUnlucky _ started_reachable). reflexivity.
Qed.

(** ** Every player's position: the spawn fallback *)

(** C6 fails as stated: in a started game whose map has a stone at (2,2),
    a connection whose 100 samples all hit (2,2) leaves the new player on
    that non-walkable tile. *)
Lemma spawn_fallback_breaks_walkability :
  reachable Demo.unluckyPlayer
  /\ ~ Spec.everyEntityOnWalkableTile Demo.unluckyPlayer.
Proof.
  split; [exact unluckyPlayer_reachable|].
  intros [Hp _].
  destruct (Hp 1 (Player.mk 1 2 2 100 100)) as [_ Hw]; [left; reflexivity|].
  discriminate Hw.
Qed.

(** ** Fireball records *)

(** C8 fails as stated: the record built for a [fireball] message is pushed
    onto [gameState.fireballs] and is still there after later operations. *)
Lemma fireball_record_is_kept :
  exists w' eff,
    run Demo.onePlayer
        [EvMessage 1 (fireball 9 9) Demo.env0; EvTick 1000 Demo.hits]
      = Some (w', eff)
    /\ fireballs (gameState w') = [Fireball.mk 900 1 7 7 9 9 0]
    /\ ~ Spec.noFireballPersisted w'.
Proof.
  eexists. eexists. split; [reflexivity|]. split; [reflexivity|].
  discriminate.
Qed.

Lemma forget_fireballs_step w ev :
  forgetResult (step (forgetFireballs w) ev) = forgetResult (step w ev).
Proof.
  destruct w as [[ps ms fs gmap nid] clients pend].
  unfold forgetFireballs, step; cbn [gameState wssClients pendingRespawns].
  destruct ev as [s rnd|s message env|s|s|now rnd|env].
  - destruct (findClient clients s); [reflexivity|].
    unfold onConnection; cbn.
    destruct (findSpawnPosition gmap rnd) as [[x y]| |]; reflexivity.
  - destruct (findClient clients s) as [ws|]; [|reflexivity].
    unfold onMessage, handleClientMessage;
      cbn -[findMonster isValidMove broadcast JsMap.get].
    destruct (JsMap.get ps (playerId ws)); [|reflexivity].
    destruct message as [x y|tx ty|id|id|];
      cbn -[findMonster isValidMove broadcast]; try reflexivity.
    + destruct (isValidMove gmap x y) as [[|]| |]; reflexivity.
    + destruct (findMonster ms id); [|reflexivity].
      destruct (_ <=? 0); reflexivity.
    + destruct (findMonster ms id); [|reflexivity].
      destruct (_ <=? 0); reflexivity.
  - destruct (findClient clients s); reflexivity.
  - destruct (findClient clients s); reflexivity.
  - unfold gameLoop; cbn.
    destruct (forEachMonster _ _ _ _ _ _ _) as [[[ms' ps'] e]| |]; reflexivity.
  - destruct pend; [reflexivity|].
    unfold respawnCallback, spawnMonster; cbn.
    destruct (spawnMonsterSearch _ _ _ _) as [[x y]| |]; reflexivity.
Qed.

(** Closes a case in which the step stores no new fireball. *)
Ltac no_new_fireball :=
  intros [= <- _]; exists []; cbn; now rewrite app_nil_r.

Lemma fireballs_only_grow w ev w' eff :
  step w ev = Some (w', eff) ->
  exists new, fireballs (gameState w') = fireballs (gameState w) ++ new.
Proof.
  destruct w as [[ps ms fs gmap nid] clients pend].
  unfold step; cbn [gameState wssClients pendingRespawns].
  destruct ev as [s rnd|s message env|s|s|now rnd|env].
  - destruct (findClient clients s); [discriminate|].
    unfold onConnection; cbn.
    destruct (findSpawnPosition gmap rnd) as [[x y]| |]; cbn; try discriminate.
    no_new_fireball.
  - destruct (findClient clients s) as [ws|]; [|discriminate].
    unfold onMessage, handleClientMessage;
      cbn -[findMonster isValidMove broadcast JsMap.get].
    destruct (JsMap.get ps (playerId ws));
      [|no_new_fireball].
    destruct message as [x y|tx ty|id|id|];
      cbn -[findMonster isValidMove broadcast].
    + destruct (isValidMove gmap x y) as [[|]| |]; cbn;
        no_new_fireball.
    + intros [= <- _]. eexists. reflexivity.
    + destruct (findMonster ms id); [destruct (_ <=? 0)|];
        no_new_fireball.
    + destruct (findMonster ms id); [destruct (_ <=? 0)|];
        no_new_fireball.
    + no_new_fireball.
  - destruct (findClient clients s); [|discriminate].
    no_new_fireball.
  - destruct (findClient clients s); [|discriminate].
    no_new_fireball.
  - unfold gameLoop; cbn.
    destruct (forEachMonster _ _ _ _ _ _ _) as [[[ms' ps'] e]| |]; cbn;
      try discriminate.
    no_new_fireball.
  - destruct pend; [discriminate|].
    unfold respawnCallback, spawnMonster; cbn.
    destruct (spawnMonsterSearch _ _ _ _) as [[x y]| |]; cbn; try discriminate.
    no_new_fireball.
Qed.

(** C8, as the code has it. Handling [fireball(targetX,targetY)] sends
    [fireballCast] to every open session, the caster's included, and appends
    the record to [gameState.fireballs]. The server keeps the stored records
    but never tracks them: every operation leaves the records already stored
    in place and unchanged, and what an operation sends and how it changes
    the rest of the world does not depend on the stored records. *)
Theorem fireball_broadcast_and_untracked_record :
  forall (w : World) (s : nat) (ws : WebSocket) (player : Player.t)
         (targetX targetY : Z) (env : Env),
    findClient (wssClients w) s = Some ws ->
    JsMap.get (players (gameState w)) (playerId ws) = Some player ->
    let record :=
      Fireball.mk (freshId env) (playerId ws) (Player.x player)
                  (Player.y player) targetX targetY (now env) in
    step w (EvMessage s (fireball targetX targetY) env)
      = Some (mkWorld (setFireballs (gameState w)
                                    (fireballs (gameState w) ++ [record]))
                      (wssClients w) (pendingRespawns w),
              List.map (fun c => Send c (fireballCast record))
                       (openSockets (wssClients w)))
    /\ (isOpen (readyState ws) = true -> In (sock ws) (openSockets (wssClients w)))
    /\ (forall ev w' eff,
          step w ev = Some (w', eff) ->
          exists new,
            fireballs (gameState w') = fireballs (gameState w) ++ new)
    /\ (forall ev,
          forgetResult (step (forgetFireballs w) ev) = forgetResult (step w ev)).
Proof.
  intros w s ws player targetX targetY env Hc Hp record.
  split; [|split; [|split]].
  - unfold step. rewrite Hc. unfold onMessage, handleClientMessage.
    rewrite Hp. fold record.
    rewrite timeoutsSet_broadcast, Nat.add_0_r, broadcast_all. reflexivity.
  - intros Ho. apply find_some in Hc. destruct Hc as [Hin _].
    now apply In_openSockets.
  - intros ev w' eff. apply fireballs_only_grow.
  - intros ev. apply forget_fireballs_step.
Qed.

Lemma fireball_broadcast_and_untracked_record_witness :
  findClient (wssClients Demo.twoPlayers) 1 = Some Demo.ws1
  /\ JsMap.get (players (gameState Demo.twoPlayers)) (playerId Demo.ws1)
     = Some Demo.player1
  /\ step Demo.twoPlayers (EvMessage 1 (fireball 9 9) Demo.env0)
     = Some (mkWorld
               (setFireballs (gameState Demo.twoPlayers)
                             [Fireball.mk 900 1 7 7 9 9 0])
               [Demo.ws1; Demo.ws2] 0,
             [Send 1%nat (fireballCast (Fireball.mk 900 1 7 7 9 9 0));
              Send 2%nat (fireballCast (Fireball.mk 900 1 7 7 9 9 0))]).
Proof.
  split; [reflexivity|]. split; [reflexivity|].
  exact (proj1 (fireball_broadcast_and_untracked_record
                  Demo.twoPlayers 1 Demo.ws1 Demo.player1 9 9 Demo.env0
                  eq_refl eq_refl)).
Defined.

(** ** The greedy monster step *)

Lemma isValidMove_wellFormed gmap x y :
  wellFormed gmap = true ->
  isValidMove gmap x y = Ok (inBounds x y && walkableAt gmap x y).
Proof.
  intros Hwf.
  destruct (inBounds x y && walkableAt gmap x y) eqn:E.
  - now apply isValidMove_true.
  - destruct (isValidMove_not_true _ _ _ E) as [H|H]; [exact H|].
    exfalso. unfold isValidMove in H.
    destruct (_ || _) eqn:Eb; [discriminate|].
    rewrite tileWalkable_inBounds in H; [discriminate | exact Hwf |].
    apply inBounds_spec. rewrite !orb_false_iff, !Z.geb_leb in Eb.
    rewrite !Z.ltb_ge, !Z.leb_gt in Eb. lia.
Qed.

Lemma canMoveTo_wellFormed gmap x y :
  wellFormed gmap = true ->
  Client.canMoveTo gmap x y = Ok (inBounds x y && walkableAt gmap x y).
Proof. exact (isValidMove_wellFormed gmap x y). Qed.

(** The client's [moveTowardsPlayer] is the specification's [stepToward]:
    it moves to the first walkable candidate in the order diagonal,
    horizontal-only, vertical-only, and stays put when there is none. *)
Lemma client_moveTowardsPlayer_is_stepToward gmap player this :
  wellFormed gmap = true ->
  exists e,
    Client.moveTowardsPlayer gmap player this = Ok e
    /\ (Client.x e, Client.y e)
       = Spec.stepToward gmap (Client.x this) (Client.y this)
                         (Client.x player) (Client.y player)
    /\ Client.health e = Client.health this
    /\ Client.maxHealth e = Client.maxHealth this.
Proof.
  intros Hwf.
  unfold Client.moveTowardsPlayer, Spec.stepToward, Spec.candidates.
  destruct (direction _ _) as [moveX moveY].
  unfold Client.moveTo. rewrite !canMoveTo_wellFormed by exact Hwf.
  cbn [bind find fst snd].
  destruct (inBounds (Client.x this + moveX) (Client.y this + moveY)
            && walkableAt gmap (Client.x this + moveX) (Client.y this + moveY))
    eqn:E1; cbn [bind negb].
  - eexists; split; [reflexivity|]; cbn; auto.
  - destruct (Z.eqb_spec moveX 0) as [->|Hx]; cbn [negb].
    + rewrite Z.add_0_r in *. rewrite E1.
      destruct (inBounds (Client.x this) (Client.y this)
                && walkableAt gmap (Client.x this) (Client.y this));
        eexists; (split; [reflexivity|]); destruct this; cbn; auto.
    + rewrite !canMoveTo_wellFormed by exact Hwf. cbn [bind].
      destruct (inBounds (Client.x this + moveX) (Client.y this)
                && walkableAt gmap (Client.x this + moveX) (Client.y this))
        eqn:E2; cbn [bind negb].
      * eexists; split; [reflexivity|]; cbn; auto.
      * rewrite !canMoveTo_wellFormed by exact Hwf. cbn [bind].
        destruct (inBounds (Client.x this) (Client.y this + moveY)
                  && walkableAt gmap (Client.x this) (Client.y this + moveY));
          eexists; (split; [reflexivity|]); destruct this; cbn; auto.
Qed.

(** The server's tick tries the greedy step only: a monster ends a tick
    either where it was or on the first candidate. *)
Lemma monsterTick_greedy_or_stay gmap clients now roll e ps m m' ps' eff :
  monsterTick gmap clients now roll e ps m = Ok (m', ps', eff) ->
  (Monster.x m', Monster.y m') = (Monster.x m, Monster.y m)
  \/ exists key nearest minDistance,
       nearestPlayer ps (Monster.setLastMove m now)
         = Some (key, nearest, minDistance)
       /\ (Monster.x m', Monster.y m')
          = (Monster.x m
             + fst (direction (Player.x nearest - Monster.x m)
                              (Player.y nearest - Monster.y m)),
             Monster.y m
             + snd (direction (Player.x nearest - Monster.x m)
                              (Player.y nearest - Monster.y m))).
Proof.
  unfold monsterTick. intros H.
  destruct (now - Monster.lastMove m >? 500); [|inversion H; subst; auto].
  destruct (nearestPlayer ps _) as [[[key nearest] minDistance]|] eqn:Hn;
    [|inversion H; subst; auto].
  cbn [Monster.setLastMove Monster.x Monster.y Monster.id] in H.
  destruct (direction _ _) as [moveX moveY] eqn:Ed.
  destruct (isValidMove gmap _ _) as [valid| |] eqn:Hv; cbn [bind] in H;
    try discriminate.
  destruct valid; destruct ((minDistance <=? 2) && roll);
    inversion H; subst; cbn [Monster.setPos Monster.x Monster.y fst snd];
    auto; right; exists key, nearest, minDistance; rewrite Ed; split; auto.
Qed.

(** On a well-formed map the tick of one monster returns. *)
Lemma monsterTick_returns gmap clients now roll e ps m :
  wellFormed gmap = true ->
  exists r, monsterTick gmap clients now roll e ps m = Ok r.
Proof.
  intros Hwf. unfold monsterTick.
  destruct (now - Monster.lastMove m >? 500); [|eauto].
  destruct (nearestPlayer ps _) as [[[key nearest] minDistance]|]; [|eauto].
  destruct (direction _ _) as [moveX moveY].
  rewrite isValidMove_wellFormed by exact Hwf. cbn [bind].
  destruct (inBounds _ _ && walkableAt _ _ _);
    destruct ((minDistance <=? 2) && roll); eauto.
Qed.

Lemma gameLoop_returns g clients now rnd :
  wellFormed (map g) = true ->
  exists r, gameLoop g clients now rnd = Ok r.
Proof.
  intros Hwf. unfold gameLoop.
  assert (G : forall ms i ps,
             exists r, forEachMonster (map g) clients now rnd i ms ps = Ok r).
  { induction ms as [|m ms IH]; intros i ps; cbn; [eauto|].
    destruct (monsterTick_returns (map g) clients now (fst (rnd i))
                                  (snd (rnd i)) ps m Hwf)
      as [[[m1 ps1] e1] ->].
    cbn. destruct (IH (S i) ps1) as [[[ms2 ps2] e2] ->]. cbn. eauto. }
  destruct (G (monsters g) 0%nat (players g)) as [[[ms ps] e] ->].
  cbn. eauto.
Qed.

(** C4 on the server: where the diagonal step towards the nearest player is
    blocked, the server's tick leaves the monster where it is, while the
    fallback order of the claim, which the client's [moveTowardsPlayer]
    implements, takes the horizontal-only step. Monster 101 stands on (5,5),
    the only player on (7,7), with a tree on (6,6) and grass on (6,5). *)
Theorem server_monster_step_has_no_fallback :
  reachable Demo.onePlayer
  /\ (exists w' eff,
        step Demo.onePlayer (EvTick 1000 Demo.hits) = Some (w', eff)
        /\ findMonster (monsters (gameState w')) 101
           = Some (Monster.mk 101 5 5 50 50 1000)
        /\ ~ In (Send 1%nat (monsterMoved 101 6 5)) eff)
  /\ tileAt Demo.gmap 6 6 = Some TREE
  /\ tileAt Demo.gmap 6 5 = Some GRASS
  /\ Spec.stepToward Demo.gmap 5 5 7 7 = (6, 5)
  /\ Client.moveTowardsPlayer Demo.gmap (Client.mkEntity 7 7 100 100)
                              (Client.mkEntity 5 5 50 50)
     = Ok (Client.mkEntity 6 5 50 50).
Proof.
  split; [exact onePlayer_reachable|].
  split.
  - eexists. eexists. split; [reflexivity|]. split; [reflexivity|].
    cbn. intros H.
    repeat (destruct H as [H|H]; [discriminate H|]). exact H.
  - repeat split.
Qed.

(** ** Player health *)

(** C7 on the server: the tick subtracts the damage from the player's
    health without a lower bound. After six ticks in which the two monsters
    next to the only player hit for 10 each, the stored health is -20 and
    [playerDamaged] has carried -10 and -20; the client's [takeDamage]
    clamps the same subtraction at 0. *)
Theorem monster_attack_drives_player_health_negative :
  reachable Demo.onePlayer
  /\ option_map fst (run Demo.onePlayer Demo.sixTicks)
     = Some Demo.afterSixTicks
  /\ reachable Demo.afterSixTicks
  /\ JsMap.get (players (gameState Demo.afterSixTicks)) 1
     = Some (Player.mk 1 7 7 (-20) 100)
  /\ option_map (fun r => reportedPlayerHealth (snd r))
                (run Demo.onePlayer Demo.sixTicks)
     = Some [90; 80; 70; 60; 50; 40; 30; 20; 10; 0; -10; -20]
  /\ ~ Spec.playerHealthInRange Demo.afterSixTicks
  /\ Client.takeDamage (Client.mkEntity 7 7 10 100) 30
     = (Client.mkEntity 7 7 0 100, true).
Proof.
  assert (E : option_map fst (run Demo.onePlayer Demo.sixTicks)
              = Some Demo.afterSixTicks) by (vm_compute; reflexivity).
  split; [exact onePlayer_reachable|].
  split; [exact E|].
  split; [exact (run_reachable_fst _ _ _ onePlayer_reachable E)|].
  split; [reflexivity|].
  split; [vm_compute; reflexivity|].
  split; [|reflexivity].
  intros H. specialize (H 1 (Player.mk 1 7 7 (-20) 100) (or_introl eq_refl)).
  cbn in H. lia.
Qed.

(** ** The spawn search *)

(** C9. On every well-formed map [findSpawnPosition] returns, after at most
    100 sampling attempts; every position it samples has [x] in
    [2 .. width-3] and [y] in [2 .. height-3]; it returns the first walkable
    sample if one of the first 100 samples is walkable, and the 100th sample
    otherwise, walkable or not. *)
Theorem findSpawnPosition_bounded_search :
  forall (gmap : GameMap) (rnd : nat -> Z * Z),
    wellFormed gmap = true ->
    exists (x y : Z) (attempts : nat),
      findSpawnPositionCount gmap rnd = Ok (x, y, attempts)
      /\ findSpawnPosition gmap rnd = Ok (x, y)
      /\ (1 <= attempts <= 100)%nat
      /\ (x, y) = spawnSample (rnd (attempts - 1)%nat)
      /\ (forall i : nat,
            2 <= fst (spawnSample (rnd i)) <= CONFIG.MAP_WIDTH - 3
            /\ 2 <= snd (spawnSample (rnd i)) <= CONFIG.MAP_HEIGHT - 3)
      /\ (forall i : nat, (i < attempts - 1)%nat ->
            walkableAt gmap (fst (spawnSample (rnd i)))
                       (snd (spawnSample (rnd i))) = false)
      /\ (walkableAt gmap x y = true \/ attempts = 100%nat)
      /\ (luckySpawn gmap rnd -> walkableAt gmap x y = true).
Proof.
  intros gmap rnd Hwf.
  destruct (spawnSearch_spec _ rnd Hwf 99 0)
    as (x & y & n & Hr & Hn & Hs & Hprev & Hlast).
  exists x, y, n. unfold findSpawnPosition, findSpawnPositionCount.
  rewrite Hr. cbn [bind].
  split; [reflexivity|]. split; [reflexivity|]. split; [lia|].
  split; [exact Hs|]. split; [intros i; apply spawnSample_range|].
  split; [intros i Hi; apply Hprev; lia|].
  split; [destruct Hlast; [now left | right; lia]|].
  intros Hl. eapply spawnSearch_lucky; eauto.
Qed.

Lemma findSpawnPosition_bounded_search_witness :
  wellFormed Demo.gmap = true
  /\ exists (x y : Z) (attempts : nat),
       findSpawnPositionCount Demo.gmap (fun _ => (0, 0))
         = Ok (x, y, attempts)
       /\ findSpawnPosition Demo.gmap (fun _ => (0, 0)) = Ok (x, y)
       /\ (1 <= attempts <= 100)%nat.
Proof.
  split; [reflexivity|].
  destruct (findSpawnPosition_bounded_search Demo.gmap (fun _ => (0, 0)) eq_refl)
    as (x & y & n & H1 & H2 & H3 & _).
  exists x, y, n. auto.
Defined.

(** ** Witnesses and the counterexample for the move broadcast *)

Lemma message_without_player_ignored_witness :
  findClient [Demo.ws1] 1 = Some Demo.ws1
  /\ JsMap.get (players (gameState Demo.started)) (playerId Demo.ws1) = None
  /\ step (mkWorld (gameState Demo.started) [Demo.ws1] 0)
          (EvMessage 1 (move 8 8) Demo.env0)
     = Some (mkWorld (gameState Demo.started) [Demo.ws1] 0, []).
Proof.
  split; [reflexivity|]. split; [reflexivity|].
  exact (proj2 (message_without_player_ignored
                  (mkWorld (gameState Demo.started) [Demo.ws1] 0)
                  1 Demo.ws1 (move 8 8) Demo.env0 eq_refl eq_refl)).
Defined.

Lemma move_accepted_iff_valid_witness :
  findClient (wssClients Demo.twoPlayers) 1 = Some Demo.ws1
  /\ JsMap.get (players (gameState Demo.twoPlayers)) (playerId Demo.ws1)
     = Some Demo.player1
  /\ inBounds 0 0 && walkableAt (map (gameState Demo.twoPlayers)) 0 0 = false
  /\ step Demo.twoPlayers (EvMessage 1 (move 0 0) Demo.env0)
     = Some (Demo.twoPlayers, [])
  /\ inBounds 8 8 && walkableAt (map (gameState Demo.twoPlayers)) 8 8 = true
  /\ exists w',
       step Demo.twoPlayers (EvMessage 1 (move 8 8) Demo.env0)
         = Some (w', [Send 1%nat (playerMoved 1 8 8);
                      Send 2%nat (playerMoved 1 8 8)])
       /\ JsMap.get (players (gameState w')) 1
          = Some (Player.mk 1 8 8 100 100).
Proof.
  split; [reflexivity|]. split; [reflexivity|]. split; [reflexivity|].
  split.
  - exact (proj2 (proj2 (move_accepted_iff_valid
                    Demo.twoPlayers 1 Demo.ws1 Demo.player1 0 0 Demo.env0
                    eq_refl eq_refl)) eq_refl).
  - split; [reflexivity|].
    destruct (proj1 (proj2 (move_accepted_iff_valid
                      Demo.twoPlayers 1 Demo.ws1 Demo.player1 8 8 Demo.env0
                      eq_refl eq_refl)) eq_refl)
      as (w' & Hs & _ & Hp & _).
    exists w'. split; [exact Hs | exact Hp].
Defined.

(** C3 fails as stated: with two open sessions, the accepted move of
    session 1 to (8,8) is sent to session 1 as well. *)
Lemma playerMoved_is_sent_to_sender :
  isValidMove (map (gameState Demo.twoPlayers)) 8 8 = Ok true
  /\ snd (onMessage (gameState Demo.twoPlayers) (wssClients Demo.twoPlayers)
                    Demo.ws1 (move 8 8) Demo.env0)
     = [Send 1%nat (playerMoved 1 8 8); Send 2%nat (playerMoved 1 8 8)]
  /\ ~ Spec.deliveredToOthersOnly
         (wssClients Demo.twoPlayers) (sock Demo.ws1) (playerMoved 1 8 8)
         (snd (onMessage (gameState Demo.twoPlayers)
                         (wssClients Demo.twoPlayers)
                         Demo.ws1 (move 8 8) Demo.env0)).
Proof.
  split; [reflexivity|]. split; [reflexivity|].
  intros [_ Hn]. apply Hn. left. reflexivity.
Qed.

Lemma playerMoved_reaches_every_open_session_witness :
  JsMap.get (players (gameState Demo.twoPlayers)) (playerId Demo.ws1)
    = Some Demo.player1
  /\ isValidMove (map (gameState Demo.twoPlayers)) 8 8 = Ok true
  /\ snd (onMessage (gameState Demo.twoPlayers) (wssClients Demo.twoPlayers)
                    Demo.ws1 (move 8 8) Demo.env0)
     = List.map (fun s => Send s (playerMoved (playerId Demo.ws1) 8 8))
                (openSockets (wssClients Demo.twoPlayers)).
Proof.
  split; [reflexivity|]. split; [reflexivity|].
  exact (proj1 (playerMoved_reaches_every_open_session
                  (gameState Demo.twoPlayers) (wssClients Demo.twoPlayers)
                  Demo.ws1 Demo.player1 8 8 Demo.env0 eq_refl eq_refl)).
Defined.

(** * Further properties of the server *)

(** ** Map generation *)

Lemma index_map {A B} (f : A -> B) (l : list A) i :
  index (List.map f l) i = option_map f (index l i).
Proof.
  unfold index. destruct (i <? 0); [reflexivity|]. apply nth_error_map.
Qed.

Lemma index_range n i :
  0 <= i < n -> index (range n) i = Some i.
Proof.
  intros H. unfold range. rewrite index_map. unfold index.
  destruct (Z.ltb_spec i 0); [lia|].
  rewrite nth_error_seq.
  destruct (Nat.ltb_spec (Z.to_nat i) (Z.to_nat n)); [|lia].
  cbn. f_equal. lia.
Qed.

Lemma tileAt_generateMap pick x y :
  inBounds x y = true ->
  tileAt (generateMap pick) x y
  = Some (if border x y then WATER else pick x y).
Proof.
  intros Hb. apply inBounds_spec in Hb.
  unfold tileAt, generateMap. rewrite index_map, index_range by lia.
  cbn [option_map]. rewrite index_map, index_range by lia.
  reflexivity.
Qed.

(** X1. Every generated map has 15 rows of 20 tiles; its border cells are
    water, so no move onto the border is valid, and each inner cell holds
    the tile drawn for it. *)
Theorem generateMap_closed_arena :
  forall (pick : Z -> Z -> Tile) (x y : Z),
    inBounds x y = true ->
    wellFormed (generateMap pick) = true
    /\ (border x y = true ->
        tileAt (generateMap pick) x y = Some WATER
        /\ isValidMove (generateMap pick) x y = Ok false)
    /\ (border x y = false ->
        tileAt (generateMap pick) x y = Some (pick x y)
        /\ isValidMove (generateMap pick) x y = Ok (walkable (pick x y))).
Proof.
  intros pick x y Hb.
  pose proof (tileAt_generateMap pick x y Hb) as Ht.
  pose proof (isValidMove_wellFormed (generateMap pick) x y
                (generateMap_wellFormed pick)) as Hv.
  unfold walkableAt in Hv. rewrite Ht, Hb in Hv. cbn [andb] in Hv.
  split; [apply generateMap_wellFormed|].
  split; intros E; rewrite E in *; auto.
Qed.

Lemma generateMap_closed_arena_witness :
  inBounds 0 7 = true
  /\ border 0 7 = true
  /\ isValidMove (generateMap Demo.pick) 0 7 = Ok false.
Proof.
  split; [reflexivity|]. split; [reflexivity|].
  exact (proj2 (proj1 (proj2 (generateMap_closed_arena Demo.pick 0 7 eq_refl))
                      eq_refl)).
Defined.

(** ** Move validation *)

(** X2. [isValidMove] answers false for every out-of-range coordinate
    without looking at the map, even an empty one; on a map of the
    generated shape it never throws and answers whether the tile is
    walkable; it throws only when an in-range cell is missing. *)
Theorem isValidMove_error_behaviour :
  forall (gmap : GameMap) (x y : Z),
    (inBounds x y = false -> isValidMove gmap x y = Ok false)
    /\ (wellFormed gmap = true ->
        isValidMove gmap x y = Ok (inBounds x y && walkableAt gmap x y))
    /\ (isValidMove gmap x y = Throw <->
        inBounds x y = true /\ tileAt gmap x y = None).
Proof.
  intros gmap x y. split; [|split].
  - intros Hb. unfold isValidMove.
    destruct ((x <? 0) || (x >=? CONFIG.MAP_WIDTH)
              || (y <? 0) || (y >=? CONFIG.MAP_HEIGHT)) eqn:E; [reflexivity|].
    exfalso. unfold inBounds in Hb.
    rewrite !orb_false_iff, !Z.geb_leb, !Z.ltb_ge, !Z.leb_gt in E.
    rewrite !andb_false_iff, !Z.leb_gt, !Z.ltb_ge in Hb. lia.
  - apply isValidMove_wellFormed.
  - unfold isValidMove, tileWalkable.
    destruct ((x <? 0) || (x >=? CONFIG.MAP_WIDTH)
              || (y <? 0) || (y >=? CONFIG.MAP_HEIGHT)) eqn:E.
    + split; [discriminate|]. intros [Hb _]. exfalso.
      apply inBounds_spec in Hb.
      rewrite !orb_true_iff, !Z.geb_leb, !Z.ltb_lt, !Z.leb_le in E. lia.
    + assert (Hb : inBounds x y = true).
      { apply inBounds_spec.
        rewrite !orb_false_iff, !Z.geb_leb, !Z.ltb_ge, !Z.leb_gt in E. lia. }
      destruct (tileAt gmap x y); split; try discriminate; auto.
      intros [_ H]; discriminate.
Qed.

Lemma isValidMove_error_behaviour_witness :
  inBounds (-1) 3 = false
  /\ isValidMove [] (-1) 3 = Ok false
  /\ inBounds 0 0 = true /\ tileAt [] 0 0 = None
  /\ isValidMove [] 0 0 = Throw.
Proof.
  split; [reflexivity|].
  split; [exact (proj1 (isValidMove_error_behaviour [] (-1) 3) eq_refl)|].
  split; [reflexivity|]. split; [reflexivity|].
  exact (proj2 (proj2 (proj2 (isValidMove_error_behaviour [] 0 0)))
               (conj eq_refl eq_refl)).
Defined.

(** ** Spawning a monster *)

Lemma monsterSample_inBounds e :
  inBounds (fst (monsterSample e)) (snd (monsterSample e)) = true.
Proof.
  apply inBounds_spec. unfold monsterSample; cbn [fst snd].
  pose proof (randomInt_range CONFIG.MAP_WIDTH (fst e)).
  pose proof (randomInt_range CONFIG.MAP_HEIGHT (snd e)).
  unfold CONFIG.MAP_WIDTH, CONFIG.MAP_HEIGHT in *. lia.
Qed.

Lemma spawnMonsterSearch_unfold gmap rnd i fuel :
  spawnMonsterSearch gmap rnd i (S fuel)
  = (w <- tileWalkable gmap (fst (monsterSample (rnd i)))
                       (snd (monsterSample (rnd i))) ;;
     if negb w then spawnMonsterSearch gmap rnd (S i) fuel
     else Ok (monsterSample (rnd i))).
Proof. reflexivity. Qed.

(** The loop of [spawnMonster] on a well-formed map: it stops at the first
    walkable sample, and spins through the fuel when there is none. *)
Lemma spawnMonsterSearch_spec gmap rnd :
  wellFormed gmap = true ->
  forall fuel i,
    (exists k : nat,
        (k < fuel)%nat
        /\ spawnMonsterSearch gmap rnd i fuel = Ok (monsterSample (rnd (i + k)%nat))
        /\ walkableAt gmap (fst (monsterSample (rnd (i + k)%nat)))
                      (snd (monsterSample (rnd (i + k)%nat))) = true
        /\ forall j : nat, (j < k)%nat ->
             walkableAt gmap (fst (monsterSample (rnd (i + j)%nat)))
                        (snd (monsterSample (rnd (i + j)%nat))) = false)
    \/ (spawnMonsterSearch gmap rnd i fuel = Spin
        /\ forall j : nat, (j < fuel)%nat ->
             walkableAt gmap (fst (monsterSample (rnd (i + j)%nat)))
                        (snd (monsterSample (rnd (i + j)%nat))) = false).
Proof.
  intros Hwf. induction fuel as [|fuel IH]; intros i.
  - right. split; [reflexivity|]. intros j Hj. lia.
  - rewrite spawnMonsterSearch_unfold.
    rewrite (tileWalkable_inBounds _ _ _ Hwf (monsterSample_inBounds (rnd i))).
    cbn [bind].
    destruct (walkableAt gmap (fst (monsterSample (rnd i)))
                         (snd (monsterSample (rnd i)))) eqn:W; cbn [negb].
    + left. exists 0%nat. rewrite Nat.add_0_r.
      split; [lia|]. split; [reflexivity|]. split; [exact W|].
      intros j Hj. lia.
    + destruct (IH (S i)) as [(k & Hk & Hr & Hw & Hprev)|[Hr Hall]].
      * left. exists (S k).
        replace (i + S k)%nat with (S i + k)%nat by lia.
        split; [lia|]. split; [exact Hr|]. split; [exact Hw|].
        intros j Hj. destruct j as [|j].
        -- now rewrite Nat.add_0_r.
        -- replace (i + S j)%nat with (S i + j)%nat by lia. apply Hprev. lia.
      * right. split; [exact Hr|].
        intros j Hj. destruct j as [|j].
        -- now rewrite Nat.add_0_r.
        -- replace (i + S j)%nat with (S i + j)%nat by lia. apply Hall. lia.
Qed.

(** X3. On a well-formed map [spawnMonster] returns as soon as one of the
    sampled positions is walkable: it then appends, at the end of the
    monster list, a monster with full health 50/50 standing on the first
    walkable sample, and changes nothing else. While no sample is walkable
    its loop keeps running. *)
Theorem spawnMonster_first_walkable_sample :
  forall (g : GameState) (env : SpawnEnv),
    wellFormed (map g) = true ->
    (exists k : nat,
        (k < spawnFuel env)%nat
        /\ walkableAt (map g) (fst (monsterSample (spawnRnd env k)))
                      (snd (monsterSample (spawnRnd env k))) = true
        /\ (forall j : nat, (j < k)%nat ->
              walkableAt (map g) (fst (monsterSample (spawnRnd env j)))
                         (snd (monsterSample (spawnRnd env j))) = false)
        /\ let monster :=
             Monster.mk (spawnId env)
                        (fst (monsterSample (spawnRnd env k)))
                        (snd (monsterSample (spawnRnd env k)))
                        50 50 (spawnNow env) in
           spawnMonster g env
           = Ok (mkGameState (players g) (monsters g ++ [monster])
                             (fireballs g) (map g) (nextPlayerId g),
                 monster))
    \/ (spawnMonster g env = Spin
        /\ forall j : nat, (j < spawnFuel env)%nat ->
             walkableAt (map g) (fst (monsterSample (spawnRnd env j)))
                        (snd (monsterSample (spawnRnd env j))) = false).
Proof.
  intros g env Hwf. unfold spawnMonster.
  destruct (spawnMonsterSearch_spec (map g) (spawnRnd env) Hwf (spawnFuel env) 0)
    as [(k & Hk & Hr & Hw & Hprev)|[Hr Hall]]; cbn [Nat.add] in *.
  - left. exists k. split; [exact Hk|]. split; [exact Hw|].
    split; [exact Hprev|]. rewrite Hr.
    destruct (monsterSample (spawnRnd env k)); reflexivity.
  - right. rewrite Hr. split; [reflexivity | exact Hall].
Qed.

Lemma spawnMonster_first_walkable_sample_witness :
  wellFormed (map (gameState Demo.started)) = true
  /\ exists g' m,
       spawnMonster (gameState Demo.started)
                    (mkSpawnEnv 104 7000 (fun i => (Z.of_nat i, 1)) 5)
       = Ok (g', m)
       /\ (Monster.x m, Monster.y m) = (1, 1).
Proof.
  split; [reflexivity|].
  destruct (spawnMonster_first_walkable_sample
              (gameState Demo.started)
              (mkSpawnEnv 104 7000 (fun i => (Z.of_nat i, 1)) 5) eq_refl)
    as [(k & Hk & Hw & Hprev & Hr)|[Hr Hall]].
  - cbn [spawnFuel spawnRnd] in *.
    assert (Ek : k = 1%nat).
    { destruct k as [|[|k]].
      - vm_compute in Hw. discriminate Hw.
      - reflexivity.
      - assert (H1 : (1 < S (S k))%nat) by lia.
        specialize (Hprev 1%nat H1). vm_compute in Hprev. discriminate Hprev. }
    subst k. do 2 eexists. split; [exact Hr | reflexivity].
  - exfalso. cbn [spawnFuel spawnRnd] in Hall.
    assert (H1 : (1 < 5)%nat) by lia.
    specialize (Hall 1%nat H1). vm_compute in Hall. discriminate Hall.
Defined.

(** ** The broadcast dispatcher *)

Lemma broadcast_as_map clients message excl :
  broadcast clients message excl
  = List.map (fun c => Send (sock c) message)
      (filter (fun c => negb (sameClient (sock c) excl)
                        && isOpen (readyState c))
              clients).
Proof.
  unfold broadcast. induction clients as [|c cs IH]; [reflexivity|].
  cbn [flat_map filter].
  destruct (negb (sameClient (sock c) excl) && isOpen (readyState c));
    cbn [List.map app]; rewrite IH; reflexivity.
Qed.

Lemma In_broadcast clients message excl s m :
  In (Send s m) (broadcast clients message excl) <->
  m = message /\ excl <> Some s
  /\ exists c, In c clients /\ sock c = s /\ readyState c = OPEN.
Proof.
  rewrite broadcast_as_map, in_map_iff. split.
  - intros (c & Hc & Hin). apply filter_In in Hin. destruct Hin as [Hin Hf].
    inversion Hc; subst. apply andb_true_iff in Hf. destruct Hf as [Hx Ho].
    split; [reflexivity|]. split.
    + intros ->. cbn in Hx. now rewrite Nat.eqb_refl in Hx.
    + exists c. split; [exact Hin|]. split; [reflexivity|].
      destruct (readyState c); try discriminate; reflexivity.
  - intros (-> & Hx & c & Hin & <- & Ho). exists c. split; [reflexivity|].
    apply filter_In. split; [exact Hin|]. rewrite Ho. cbn.
    rewrite andb_true_r. destruct excl as [e|]; [|reflexivity]. cbn.
    destruct (Nat.eqb_spec (sock c) e); [|reflexivity]. congruence.
Qed.

(** X4. [broadcast] sends the message, and nothing else, once to each
    session that is open and is not the excluded one: a socket receives it
    exactly when some session of [wss.clients] with that socket is open and
    the socket is not excluded, and no timer is set. [sendToClient] sends to
    its socket exactly when the session is open. *)
Theorem broadcast_reaches_open_sessions_only :
  forall (clients : list WebSocket) (message : ServerMsg)
         (excludeClient : option nat),
    broadcast clients message excludeClient
    = List.map (fun c => Send (sock c) message)
        (filter (fun c => negb (sameClient (sock c) excludeClient)
                          && isOpen (readyState c))
                clients)
    /\ (forall s m,
          In (Send s m) (broadcast clients message excludeClient) <->
          m = message /\ excludeClient <> Some s
          /\ exists c, In c clients /\ sock c = s
                       /\ readyState c = OPEN)
    /\ (forall d, ~ In (SetTimeoutRespawn d)
                      (broadcast clients message excludeClient))
    /\ (forall c,
          sendToClient c message
          = if isOpen (readyState c) then [Send (sock c) message] else []).
Proof.
  intros clients message excl.
  split; [apply broadcast_as_map|]. split; [|split].
  - intros s m. apply In_broadcast.
  - intros d. rewrite broadcast_as_map, in_map_iff.
    intros (c & Hc & _). discriminate.
  - reflexivity.
Qed.

(** ** Accepting a connection *)

Lemma broadcast_app clients1 clients2 message excl :
  broadcast (clients1 ++ clients2) message excl
  = broadcast clients1 message excl ++ broadcast clients2 message excl.
Proof. unfold broadcast. apply flat_map_app. Qed.

(** X5. On a well-formed map the connection handler always returns: it
    gives the new player the current value of [nextPlayerId] as id and
    increments the counter, stores the player with health 100/100 on an
    in-bounds tile, appends the open session, sends [init] (listing the new
    player among the players) to the new socket only, and sends
    [playerJoined] to the open sessions then present, never to the new
    socket. Monsters, fireballs and the map are untouched. *)
Theorem connection_registers_player :
  forall (g : GameState) (clients : list WebSocket) (s : nat)
         (rnd : nat -> Z * Z),
    wellFormed (map g) = true ->
    exists x y : Z,
      let player := Player.mk (nextPlayerId g) x y 100 100 in
      let g' := mkGameState
                  (JsMap.set (players g) (nextPlayerId g) player)
                  (monsters g) (fireballs g) (map g) (nextPlayerId g + 1) in
      onConnection g clients s rnd
      = Ok (g', clients ++ [mkWs s (nextPlayerId g) OPEN],
            Send s (init (nextPlayerId g) (map g)
                         (JsMap.values (players g')) (monsters g))
            :: broadcast clients (playerJoined player) (Some s))
      /\ inBounds x y = true
      /\ In player (JsMap.values (players g'))
      /\ ~ In (Send s (playerJoined player))
              (broadcast clients (playerJoined player) (Some s)).
Proof.
  intros g clients s rnd Hwf.
  destruct (spawnSearch_spec _ rnd Hwf 99 0) as (x & y & n & Hr & _ & Hs & _).
  exists x, y. cbv zeta.
  split; [|split; [|split]].
  - unfold onConnection, findSpawnPosition, findSpawnPositionCount.
    cbn [map]. rewrite Hr. cbn [bind].
    rewrite broadcast_app. cbn [players setPlayers map monsters].
    f_equal. f_equal.
    cbn [sendToClient readyState isOpen sock app]. f_equal.
    unfold broadcast at 2. cbn. rewrite Nat.eqb_refl. cbn.
    now rewrite app_nil_r.
  - pose proof (spawnSample_inBounds (rnd (n - 1)%nat)) as Hb.
    now rewrite <- Hs in Hb.
  - cbn [players]. unfold JsMap.values.
    apply (in_map snd _ (nextPlayerId g, Player.mk (nextPlayerId g) x y 100 100)).
    clear. induction (players g) as [|[k v] m IH]; cbn; [auto|].
    destruct (k =? nextPlayerId g); cbn; auto.
  - intros H.
    apply In_broadcast in H.
    destruct H as (_ & Hx & _). now apply Hx.
Qed.

Lemma connection_registers_player_witness :
  wellFormed (map (gameState Demo.onePlayer)) = true
  /\ exists x y : Z,
       inBounds x y = true
       /\ fst (fst (match onConnection (gameState Demo.onePlayer) [Demo.ws1]
                                       2 (fun _ => (8, 1)) with
                    | Ok r => r
                    | _ => (gameState Demo.onePlayer, [], [])
                    end))
          = mkGameState
              (JsMap.set (players (gameState Demo.onePlayer)) 2
                         (Player.mk 2 x y 100 100))
              (monsters (gameState Demo.onePlayer)) [] Demo.gmap 3.
Proof.
  split; [reflexivity|].
  destruct (connection_registers_player (gameState Demo.onePlayer) [Demo.ws1]
              2 (fun _ => (8, 1)) eq_refl) as (x & y & Hr & Hb & _).
  exists x, y. split; [exact Hb|]. cbv zeta in Hr. rewrite Hr. reflexivity.
Defined.

(** ** Sessions and player ids *)

Lemma findClient_Some clients s ws :
  findClient clients s = Some ws -> In ws clients /\ sock ws = s.
Proof.
  unfold findClient. intros H. apply find_some in H.
  destruct H as [Hin He]. apply Nat.eqb_eq in He. auto.
Qed.

Lemma findClient_None clients s :
  findClient clients s = None -> ~ In s (List.map sock clients).
Proof.
  unfold findClient. intros H Hin. apply in_map_iff in Hin.
  destruct Hin as (c & Hc & Hin).
  apply (find_none _ _ H) in Hin. rewrite Hc, Nat.eqb_refl in Hin.
  discriminate.
Qed.

Lemma get_None_keys {V} (m : JsMap.t V) k :
  JsMap.get m k = None <-> ~ In k (List.map fst m).
Proof.
  induction m as [|[k0 v0] m IH]; cbn; [tauto|].
  destruct (Z.eqb_spec k0 k).
  - split; [discriminate | intros H; exfalso; apply H; auto].
  - rewrite IH. tauto.
Qed.

Lemma In_get_keys {V} (m : JsMap.t V) k v :
  In (k, v) m -> In k (List.map fst m).
Proof. intros H. apply (in_map fst) in H. exact H. Qed.

Lemma set_fresh {V} (m : JsMap.t V) k v :
  ~ In k (List.map fst m) -> JsMap.set m k v = m ++ [(k, v)].
Proof.
  induction m as [|[k0 v0] m IH]; cbn; [reflexivity|].
  intros H. destruct (Z.eqb_spec k0 k); [exfalso; auto|].
  rewrite IH; auto.
Qed.

Lemma keys_set_existing {V} (m : JsMap.t V) k v :
  In k (List.map fst m) ->
  List.map fst (JsMap.set m k v) = List.map fst m.
Proof.
  induction m as [|[k0 v0] m IH]; cbn; [tauto|].
  destruct (Z.eqb_spec k0 k); cbn; [congruence|].
  intros [H|H]; [congruence|]. now rewrite IH.
Qed.

Lemma get_set_other {V} (m : JsMap.t V) k v k' :
  k' <> k -> JsMap.get (JsMap.set m k v) k' = JsMap.get m k'.
Proof.
  intros Hne. induction m as [|[k0 v0] m IH]; cbn.
  - destruct (Z.eqb_spec k k'); [congruence | reflexivity].
  - destruct (Z.eqb_spec k0 k); cbn.
    + subst. destruct (Z.eqb_spec k k'); [congruence | reflexivity].
    + destruct (k0 =? k'); [reflexivity | exact IH].
Qed.

Lemma get_delete {V} (m : JsMap.t V) k k' :
  JsMap.get (JsMap.delete m k) k'
  = if k' =? k then None else JsMap.get m k'.
Proof.
  unfold JsMap.delete. induction m as [|[k0 v0] m IH]; cbn.
  - now destruct (k' =? k).
  - destruct (Z.eqb_spec k0 k); cbn.
    + subst. rewrite IH. destruct (Z.eqb_spec k' k).
      * reflexivity.
      * destruct (Z.eqb_spec k k'); [congruence | reflexivity].
    + destruct (Z.eqb_spec k0 k').
      * subst. destruct (Z.eqb_spec k' k); [congruence | reflexivity].
      * exact IH.
Qed.

(** What one monster's turn does to the player collection: nothing, or it
    lowers the health of one stored player by a damage between 5 and 10. *)
Lemma monsterTick_players gmap clients now roll e ps m m' ps' eff :
  monsterTick gmap clients now roll e ps m = Ok (m', ps', eff) ->
  ps' = ps
  \/ exists key nearest,
       In (key, nearest) ps
       /\ ps' = JsMap.set ps key
                  (Player.setHealth nearest
                     (Player.health nearest - (randomInt 6 e + 5))).
Proof.
  unfold monsterTick. intros H.
  destruct (now - Monster.lastMove m >? 500); [|inversion H; auto].
  destruct (nearestPlayer ps _) as [[[key nearest] minDistance]|] eqn:Hn;
    [|inversion H; auto].
  destruct (direction _ _) as [moveX moveY].
  destruct (isValidMove gmap _ _) as [valid| |]; cbn [bind] in H;
    try discriminate.
  destruct (if valid then _ else _) as [m1 moved].
  destruct ((minDistance <=? 2) && roll); inversion H; subst; auto.
  right. exists key, nearest. split; [|reflexivity].
  eapply nearestPlayer_In; eauto.
Qed.

(** A tick keeps the keys of the player collection and every property of
    its entries that survives a change of health. *)
Lemma forEachMonster_players (P : Z * Player.t -> Prop) gmap clients now rnd ms :
  (forall k p h, P (k, p) -> P (k, Player.setHealth p h)) ->
  forall i ps ms' ps' eff,
    forEachMonster gmap clients now rnd i ms ps = Ok (ms', ps', eff) ->
    List.map fst ps' = List.map fst ps /\ (Forall P ps -> Forall P ps').
Proof.
  intros HP. induction ms as [|m ms IH]; intros i ps ms' ps' eff; cbn.
  - intros [= <- <- <-]. auto.
  - destruct (monsterTick _ _ _ _ _ _ _) as [[[m1 ps1] eff1]| |] eqn:E1;
      cbn; try discriminate.
    destruct (forEachMonster _ _ _ _ _ _ _) as [[[ms2 ps2] eff2]| |] eqn:E2;
      cbn; try discriminate.
    intros [= <- <- <-].
    destruct (IH _ _ _ _ _ E2) as [Hk HF].
    apply monsterTick_players in E1.
    destruct E1 as [->|(key & nearest & Hin & ->)]; [auto|].
    split.
    + rewrite Hk. apply keys_set_existing. eapply In_get_keys; eauto.
    + intros H. apply HF. apply Forall_set; [exact H|].
      apply HP. rewrite Forall_forall in H. apply (H _ Hin).
Qed.

Lemma NoDup_map_inj {A B} (f : A -> B) (l : list A) a b :
  NoDup (List.map f l) -> In a l -> In b l -> f a = f b -> a = b.
Proof.
  induction l as [|c l IH]; cbn; [tauto|].
  intros Hnd Ha Hb Hf. inversion Hnd as [|? ? Hnotin Hnd']; subst.
  destruct Ha as [->|Ha], Hb as [->|Hb]; auto.
  - exfalso. apply Hnotin. rewrite Hf. now apply in_map.
  - exfalso. apply Hnotin. rewrite <- Hf. now apply in_map.
Qed.

Lemma NoDup_filter {A} (f : A -> bool) (l : list A) :
  NoDup l -> NoDup (filter f l).
Proof.
  induction 1 as [|a l Hnotin Hnd IH]; cbn; [constructor|].
  destruct (f a); [|exact IH].
  constructor; [|exact IH]. intros H. apply filter_In in H. tauto.
Qed.

Lemma map_filter_comm {A B} (f : A -> B) (p : B -> bool) (l : list A) :
  List.map f (filter (fun a => p (f a)) l) = filter p (List.map f l).
Proof.
  induction l as [|a l IH]; cbn; [reflexivity|].
  destruct (p (f a)); cbn; now rewrite IH.
Qed.

Lemma filter_ext_In' {A} (f g : A -> bool) (l : list A) :
  (forall a, In a l -> f a = g a) -> filter f l = filter g l.
Proof.
  induction l as [|a l IH]; cbn; intros H; [reflexivity|].
  rewrite (H a (or_introl eq_refl)), IH; auto.
Qed.

Lemma onMessage_players g clients ws message env :
  players (fst (onMessage g clients ws message env)) = players g
  \/ exists player x y,
       JsMap.get (players g) (playerId ws) = Some player
       /\ isValidMove (map g) x y = Ok true
       /\ message = move x y
       /\ players (fst (onMessage g clients ws message env))
          = JsMap.set (players g) (playerId ws) (Player.setPos player x y).
Proof.
  unfold onMessage.
  destruct message as [x y|tx ty|id|id|];
    [| |rewrite attack_is_applyDamage|rewrite fireballHit_is_applyDamage|];
    unfold handleClientMessage, Spec.applyDamage;
    destruct (JsMap.get (players g) (playerId ws)) as [player|] eqn:Hp;
    auto.
  - destruct (isValidMove (map g) x y) as [[|]| |] eqn:Hv; cbn; auto.
    right. exists player, x, y. auto.
  - destruct (findMonster _ _); auto. cbv zeta. destruct (0 <? _); auto.
  - destruct (findMonster _ _); auto. cbv zeta. destruct (0 <? _); auto.
Qed.

Lemma onMessage_nextPlayerId g clients ws message env :
  nextPlayerId (fst (onMessage g clients ws message env)) = nextPlayerId g.
Proof.
  unfold onMessage.
  destruct message as [x y|tx ty|id|id|];
    [| |rewrite attack_is_applyDamage|rewrite fireballHit_is_applyDamage|];
    unfold handleClientMessage, Spec.applyDamage;
    destruct (JsMap.get (players g) (playerId ws)) as [player|];
    try reflexivity.
  - destruct (isValidMove (map g) x y) as [[|]| |]; reflexivity.
  - destruct (findMonster _ _); [|reflexivity]. cbv zeta.
    destruct (0 <? _); reflexivity.
  - destruct (findMonster _ _); [|reflexivity]. cbv zeta.
    destruct (0 <? _); reflexivity.
Qed.

Lemma step_sessionsOk w ev w' eff :
  step w ev = Some (w', eff) -> sessionsOk w -> sessionsOk w'.
Proof.
  unfold step. intros H (Ikeys & Isock & Ind & Iall).
  destruct ev as [s rnd|s message env|s|s|now rnd|env].
  - destruct (findClient _ s) eqn:Hf; [discriminate|].
    apply findClient_None in Hf.
    unfold onConnection in H.
    destruct (findSpawnPosition _ _) as [[x y]| |]; cbn in H; try discriminate.
    inversion H; subst; clear H. unfold sessionsOk; cbn.
    assert (Hfresh : ~ In (nextPlayerId (gameState w))
                          (List.map fst (players (gameState w)))).
    { intros Hin. apply in_map_iff in Hin. destruct Hin as ([k p] & Hk & Hin).
      rewrite Forall_forall in Iall. specialize (Iall _ Hin). cbn in *. lia. }
    rewrite set_fresh by exact Hfresh.
    rewrite !map_app; cbn. split; [now rewrite Ikeys|].
    split; [|split].
    + apply NoDup_app; auto.
      * repeat constructor. auto.
      * intros a Ha1 [<-|[]]. auto.
    + apply NoDup_app; auto.
      * repeat constructor. auto.
      * intros a Ha1 [<-|[]]. auto.
    + apply Forall_app. split.
      * eapply Forall_impl; [|exact Iall]. cbn. intros a (H1 & H2 & H3).
        repeat split; auto; lia.
      * repeat constructor; cbn; lia.
  - destruct (findClient _ s) as [ws|]; [|discriminate].
    pose proof (onMessage_players (gameState w) (wssClients w) ws message env)
      as Hp.
    pose proof (onMessage_nextPlayerId (gameState w) (wssClients w) ws message env)
      as Hn.
    destruct (onMessage _ _ _ _ _) as [g1 e1]. cbn [fst] in Hp, Hn.
    inversion H; subst; clear H. unfold sessionsOk; cbn.
    destruct Hp as [->|(player & x & y & Hg & _ & _ & ->)]; rewrite Hn; auto.
    assert (Hk : In (playerId ws) (List.map fst (players (gameState w)))).
    { destruct (get_In _ _ _ Hg) as [k' Hk'].
      destruct (in_dec Z.eq_dec (playerId ws)
                       (List.map fst (players (gameState w)))); [auto|].
      apply get_None_keys in n. congruence. }
    rewrite keys_set_existing by exact Hk.
    repeat split; auto.
    apply Forall_set; [exact Iall|]. cbn.
    destruct (get_In _ _ _ Hg) as [k' Hk'].
    rewrite Forall_forall in Iall. destruct (Iall _ Hk') as (H1 & H2 & H3).
    cbn in *. repeat split; auto.
    + (* the stored player's id is its key *)
      clear - Hg Iall.
      induction (players (gameState w)) as [|[k0 p0] l IH]; cbn in *;
        [discriminate|].
      destruct (Z.eqb_spec k0 (playerId ws)).
      * inversion Hg; subst. apply (Iall _ (or_introl eq_refl)).
      * apply IH; auto.
    + clear - Hk Iall. apply in_map_iff in Hk.
      destruct Hk as ([k p] & Hk & Hin0). cbn in Hk. subst.
      apply (Iall _ Hin0).
  - destruct (findClient _ s); [|discriminate].
    inversion H; subst; clear H. unfold sessionsOk; cbn.
    rewrite !map_map.
    assert (E1 : List.map (fun c => playerId
                   (if Nat.eqb (sock c) s
                    then mkWs (sock c) (playerId c) CLOSING else c))
                   (wssClients w)
                 = List.map playerId (wssClients w)).
    { apply map_ext. intros c. now destruct (Nat.eqb (sock c) s). }
    assert (E2 : List.map (fun c => sock
                   (if Nat.eqb (sock c) s
                    then mkWs (sock c) (playerId c) CLOSING else c))
                   (wssClients w)
                 = List.map sock (wssClients w)).
    { apply map_ext. intros c. now destruct (Nat.eqb (sock c) s). }
    rewrite E1, E2. auto.
  - destruct (findClient _ s) as [ws|] eqn:Hf; [|discriminate].
    apply findClient_Some in Hf. destruct Hf as [Hin Hs].
    unfold onClose in H. inversion H; subst; clear H.
    unfold sessionsOk; cbn. unfold JsMap.delete.
    assert (E : filter (fun c => negb (Nat.eqb (sock c) (sock ws)))
                       (wssClients w)
                = filter (fun c => negb (playerId c =? playerId ws))
                         (wssClients w)).
    { apply filter_ext_In'. intros c Hc. f_equal.
      destruct (Nat.eqb_spec (sock c) (sock ws)) as [He|He];
        destruct (Z.eqb_spec (playerId c) (playerId ws)) as [Hp|Hp]; auto.
      - exfalso. apply Hp. f_equal.
        eapply (NoDup_map_inj sock); eauto.
      - exfalso. apply He. f_equal.
        eapply (NoDup_map_inj playerId); eauto. now rewrite <- Ikeys. }
    rewrite E.
    rewrite (map_filter_comm playerId (fun k => negb (k =? playerId ws))).
    rewrite (map_filter_comm fst (fun k => negb (k =? playerId ws))).
    rewrite Ikeys. split; [reflexivity|].
    split; [|split].
    + rewrite <- E.
      rewrite (map_filter_comm sock (fun k => negb (Nat.eqb k (sock ws)))).
      now apply NoDup_filter.
    + rewrite <- Ikeys. now apply NoDup_filter.
    + now apply Forall_filter.
  - unfold gameLoop in H.
    destruct (forEachMonster _ _ _ _ _ _ _) as [[[ms ps] e]| |] eqn:E;
      cbn in H; try discriminate.
    inversion H; subst; clear H. unfold sessionsOk; cbn.
    destruct (forEachMonster_players
                (fun kp => Player.id (snd kp) = fst kp
                           /\ fst kp < nextPlayerId (gameState w)
                           /\ Player.maxHealth (snd kp) = 100)
                _ _ _ _ _ (fun k p h H => H) _ _ _ _ _ E) as [Hk HF].
    rewrite Hk. auto.
  - destruct (pendingRespawns w); [discriminate|].
    unfold respawnCallback in H.
    destruct (spawnMonster _ _) as [[g1 m]| |] eqn:E; cbn in H;
      try discriminate.
    apply spawnMonster_Ok in E. destruct E as (-> & _).
    inversion H; subst; clear H. unfold sessionsOk; cbn. auto.
Qed.

Lemma spawnMonsters_players envs count :
  forall i g g',
    spawnMonsters g envs i count = Ok g' ->
    players g' = players g /\ nextPlayerId g' = nextPlayerId g
    /\ fireballs g' = fireballs g /\ map g' = map g
    /\ length (monsters g') = (length (monsters g) + count)%nat.
Proof.
  induction count as [|count IH]; intros i g g'; cbn.
  - intros [= ->]. repeat split; auto.
  - destruct (spawnMonster g (envs i)) as [[g1 m]| |] eqn:E; cbn;
      try discriminate.
    intros H. apply IH in H. apply spawnMonster_Ok in E.
    destruct E as (-> & _). cbn in H.
    destruct H as (H1 & H2 & H3 & H4 & H5). repeat split; auto.
    rewrite H5, length_app. cbn. lia.
Qed.

Lemma reachable_sessionsOk w : reachable w -> sessionsOk w.
Proof.
  induction 1 as [pick envs g Hg | w ev w' eff Hr IH Hs].
  - unfold initGame in Hg. apply spawnMonsters_players in Hg.
    destruct Hg as (Hp & _). unfold sessionsOk; cbn. rewrite Hp. cbn.
    repeat split; constructor.
  - eapply step_sessionsOk; eauto.
Qed.

Lemma gameLoop_frame g clients now rnd g' eff :
  gameLoop g clients now rnd = Ok (g', eff) ->
  map g' = map g /\ fireballs g' = fireballs g
  /\ nextPlayerId g' = nextPlayerId g
  /\ List.map fst (players g') = List.map fst (players g).
Proof.
  unfold gameLoop. intros H.
  destruct (forEachMonster _ _ _ _ _ _ _) as [[[ms ps] e]| |] eqn:E;
    cbn in H; try discriminate.
  inversion H; subst; cbn.
  destruct (forEachMonster_players (fun _ => True) _ _ _ _ _
              (fun _ _ _ H => H) _ _ _ _ _ E) as [Hk _].
  auto.
Qed.

Lemma step_nextPlayerId w ev w' eff :
  step w ev = Some (w', eff) ->
  nextPlayerId (gameState w')
  = match ev with
    | EvConnection _ _ => nextPlayerId (gameState w) + 1
    | _ => nextPlayerId (gameState w)
    end.
Proof.
  unfold step. intros H.
  destruct ev as [s rnd|s message env|s|s|now rnd|env].
  - destruct (findClient _ s); [discriminate|].
    unfold onConnection in H.
    destruct (findSpawnPosition _ _) as [[x y]| |]; cbn in H; try discriminate.
    inversion H; subst; reflexivity.
  - destruct (findClient _ s) as [ws|]; [|discriminate].
    pose proof (onMessage_nextPlayerId (gameState w) (wssClients w) ws message env)
      as Hn.
    destruct (onMessage _ _ _ _ _) as [g1 e1]. inversion H; subst. exact Hn.
  - destruct (findClient _ s); [|discriminate]. inversion H; subst; reflexivity.
  - destruct (findClient _ s); [|discriminate]. inversion H; subst; reflexivity.
  - destruct (gameLoop _ _ _ _) as [[g1 e1]| |] eqn:E; try discriminate.
    inversion H; subst. apply gameLoop_frame in E. cbn. tauto.
  - destruct (pendingRespawns w); [discriminate|].
    unfold respawnCallback in H.
    destruct (spawnMonster _ _) as [[g1 m]| |] eqn:E; cbn in H;
      try discriminate.
    apply spawnMonster_Ok in E. destruct E as (-> & _).
    inversion H; subst; reflexivity.
Qed.

(** X6. Player ids are never reused: in every reachable world the keys of
    the player collection are pairwise distinct, each stored player's [id]
    is its key and is below [nextPlayerId], and no operation ever lowers
    [nextPlayerId]; only a connection raises it, by one. *)
Theorem player_ids_unique_and_monotone :
  forall w : World, reachable w ->
    NoDup (List.map fst (players (gameState w)))
    /\ (forall k p, In (k, p) (players (gameState w)) ->
          Player.id p = k /\ k < nextPlayerId (gameState w))
    /\ (forall ev w' eff, step w ev = Some (w', eff) ->
          nextPlayerId (gameState w')
          = match ev with
            | EvConnection _ _ => nextPlayerId (gameState w) + 1
            | _ => nextPlayerId (gameState w)
            end).
Proof.
  intros w Hr. destruct (reachable_sessionsOk w Hr) as (_ & _ & Hnd & Hall).
  split; [exact Hnd|]. split.
  - intros k p Hin. rewrite Forall_forall in Hall.
    destruct (Hall _ Hin) as (H1 & H2 & _). auto.
  - intros ev w' eff. apply step_nextPlayerId.
Qed.

Lemma player_ids_unique_and_monotone_witness :
  reachable Demo.twoPlayers
  /\ NoDup (List.map fst (players (gameState Demo.twoPlayers))).
Proof.
  split; [exact twoPlayers_reachable|].
  exact (proj1 (player_ids_unique_and_monotone
                  Demo.twoPlayers twoPlayers_reachable)).
Defined.

(** The player of a live session is stored, under the session's player
    id, which is below the counter. *)
Lemma session_has_player w s ws :
  sessionsOk w ->
  findClient (wssClients w) s = Some ws ->
  exists p, JsMap.get (players (gameState w)) (playerId ws) = Some p
            /\ Player.id p = playerId ws
            /\ playerId ws < nextPlayerId (gameState w).
Proof.
  intros (Hk & Hs & Hnd & Hall) Hf.
  apply findClient_Some in Hf. destruct Hf as [Hin _].
  destruct (JsMap.get (players (gameState w)) (playerId ws)) as [p|] eqn:Hg.
  - exists p. split; [reflexivity|].
    clear - Hg Hall. rewrite Forall_forall in Hall.
    induction (players (gameState w)) as [|[k0 p0] l IH]; cbn in *;
      [discriminate|].
    destruct (Z.eqb_spec k0 (playerId ws)).
    + inversion Hg; subst.
      destruct (Hall _ (or_introl eq_refl)) as (H1 & H2 & _). auto.
    + apply IH; auto.
  - exfalso. apply get_None_keys in Hg. apply Hg. rewrite Hk.
    now apply in_map.
Qed.

(** X7. Sessions and players are bound one to one: in every reachable world
    the player ids of the sessions of [wss.clients] are, in order, the keys
    of the player collection, and sockets are pairwise distinct. So the
    handler of a message from a live session always finds its player, and
    every stored player belongs to a session. *)
Theorem sessions_bound_to_players :
  forall w : World, reachable w ->
    List.map fst (players (gameState w)) = List.map playerId (wssClients w)
    /\ NoDup (List.map sock (wssClients w))
    /\ (forall s ws, findClient (wssClients w) s = Some ws ->
          exists p, JsMap.get (players (gameState w)) (playerId ws) = Some p
                    /\ Player.id p = playerId ws)
    /\ (forall k p, In (k, p) (players (gameState w)) ->
          exists ws, In ws (wssClients w) /\ playerId ws = k).
Proof.
  intros w Hr. destruct (reachable_sessionsOk w Hr) as (Hk & Hs & Hnd & Hall).
  split; [exact Hk|]. split; [exact Hs|]. split.
  - intros s ws Hf.
    destruct (session_has_player w s ws (reachable_sessionsOk w Hr) Hf)
      as (p & H1 & H2 & _).
    eauto.
  - intros k p Hin. apply In_get_keys in Hin. rewrite Hk in Hin.
    apply in_map_iff in Hin. destruct Hin as (ws & H1 & H2). eauto.
Qed.

Lemma sessions_bound_to_players_witness :
  reachable Demo.twoPlayers
  /\ findClient (wssClients Demo.twoPlayers) 2 = Some Demo.ws2
  /\ exists p, JsMap.get (players (gameState Demo.twoPlayers))
                         (playerId Demo.ws2) = Some p
               /\ Player.id p = playerId Demo.ws2.
Proof.
  split; [exact twoPlayers_reachable|]. split; [reflexivity|].
  exact (proj1 (proj2 (proj2 (sessions_bound_to_players
                                Demo.twoPlayers twoPlayers_reachable)))
               2%nat Demo.ws2 eq_refl).
Defined.

(** ** Disconnecting *)

Lemma initPlayers_app effs1 effs2 :
  initPlayers (effs1 ++ effs2) = initPlayers effs1 ++ initPlayers effs2.
Proof. unfold initPlayers. apply flat_map_app. Qed.

Lemma initPlayers_broadcast clients message excl :
  match message with init _ _ _ _ => False | _ => True end ->
  initPlayers (broadcast clients message excl) = [].
Proof.
  intros H. rewrite broadcast_as_map.
  induction (filter _ clients) as [|c cs IH]; [reflexivity|].
  cbn [List.map]. unfold initPlayers in *. cbn [flat_map]. rewrite IH.
  destruct message; try reflexivity. destruct H.
Qed.

Lemma monsterTick_no_init gmap clients now roll e ps m m' ps' eff :
  monsterTick gmap clients now roll e ps m = Ok (m', ps', eff) ->
  initPlayers eff = [].
Proof.
  unfold monsterTick. intros H.
  destruct (now - Monster.lastMove m >? 500); [|inversion H; reflexivity].
  destruct (nearestPlayer ps _) as [[[key nearest] minDistance]|];
    [|inversion H; reflexivity].
  destruct (direction _ _) as [moveX moveY].
  destruct (isValidMove gmap _ _) as [valid| |]; cbn [bind] in H;
    try discriminate.
  assert (Hm : initPlayers
                 (snd (if valid
                       then (Monster.setPos (Monster.setLastMove m now)
                               (Monster.x (Monster.setLastMove m now) + moveX)
                               (Monster.y (Monster.setLastMove m now) + moveY),
                             broadcast clients
                               (monsterMoved (Monster.id (Monster.setLastMove m now))
                                  (Monster.x (Monster.setLastMove m now) + moveX)
                                  (Monster.y (Monster.setLastMove m now) + moveY))
                               None)
                       else (Monster.setLastMove m now, []))) = []).
  { destruct valid; cbn [snd]; [|reflexivity].
    apply initPlayers_broadcast. exact I. }
  destruct (if valid then _ else _) as [m1 moved]. cbn [snd] in Hm.
  destruct ((minDistance <=? 2) && roll); inversion H; subst; [|exact Hm].
  rewrite !initPlayers_app, Hm, initPlayers_broadcast by exact I.
  destruct (_ <=? 0); [apply initPlayers_broadcast; exact I | reflexivity].
Qed.

Lemma forEachMonster_no_init gmap clients now rnd ms :
  forall i ps ms' ps' eff,
    forEachMonster gmap clients now rnd i ms ps = Ok (ms', ps', eff) ->
    initPlayers eff = [].
Proof.
  induction ms as [|m ms IH]; intros i ps ms' ps' eff; cbn.
  - intros [= <- <- <-]. reflexivity.
  - destruct (monsterTick _ _ _ _ _ _ _) as [[[m1 ps1] eff1]| |] eqn:E1;
      cbn; try discriminate.
    destruct (forEachMonster _ _ _ _ _ _ _) as [[[ms2 ps2] eff2]| |] eqn:E2;
      cbn; try discriminate.
    intros [= <- <- <-]. rewrite initPlayers_app.
    rewrite (monsterTick_no_init _ _ _ _ _ _ _ _ _ _ E1).
    now rewrite (IH _ _ _ _ _ E2).
Qed.

Lemma onMessage_no_init g clients ws message env :
  initPlayers (snd (onMessage g clients ws message env)) = [].
Proof.
  unfold onMessage.
  destruct message as [x y|tx ty|id|id|];
    [| |rewrite attack_is_applyDamage|rewrite fireballHit_is_applyDamage|];
    unfold handleClientMessage, Spec.applyDamage;
    destruct (JsMap.get (players g) (playerId ws)) as [player|];
    try reflexivity.
  - destruct (isValidMove (map g) x y) as [[|]| |]; cbn; try reflexivity.
    apply initPlayers_broadcast. exact I.
  - cbn. apply initPlayers_broadcast. exact I.
  - destruct (findMonster _ _); [|reflexivity]. cbv zeta.
    destruct (0 <? _); cbn [snd].
    + apply initPlayers_broadcast. exact I.
    + rewrite initPlayers_app, initPlayers_broadcast by exact I. reflexivity.
  - destruct (findMonster _ _); [|reflexivity]. cbv zeta.
    destruct (0 <? _); cbn [snd].
    + apply initPlayers_broadcast. exact I.
    + rewrite initPlayers_app, initPlayers_broadcast by exact I. reflexivity.
Qed.

(** The players an [init] payload lists are the players stored when the
    step ends. *)
Lemma step_initPlayers w ev w' eff :
  step w ev = Some (w', eff) ->
  forall p, In p (initPlayers eff) ->
            In p (JsMap.values (players (gameState w'))).
Proof.
  unfold step. intros H.
  destruct ev as [s rnd|s message env|s|s|now rnd|env].
  - destruct (findClient _ s); [discriminate|].
    unfold onConnection in H.
    destruct (findSpawnPosition _ _) as [[x y]| |]; cbn [bind] in H;
      try discriminate.
    inversion H; subst; clear H. cbv zeta.
    change (initPlayers (?e :: ?l)) with (initPlayers ([e] ++ l)).
    rewrite initPlayers_app, initPlayers_broadcast, app_nil_r by exact I.
    cbn. rewrite app_nil_r. auto.
  - destruct (findClient _ s) as [ws|]; [|discriminate].
    pose proof (onMessage_no_init (gameState w) (wssClients w) ws message env)
      as Hn.
    destruct (onMessage _ _ _ _ _) as [g1 e1]. inversion H; subst.
    cbn [snd] in Hn. rewrite Hn. intros p [].
  - destruct (findClient _ s); [|discriminate]. inversion H; subst.
    intros p [].
  - destruct (findClient _ s) as [ws|]; [|discriminate].
    unfold onClose in H. inversion H; subst.
    rewrite initPlayers_broadcast by exact I. intros p [].
  - unfold gameLoop in H.
    destruct (forEachMonster _ _ _ _ _ _ _) as [[[ms ps] e]| |] eqn:E;
      cbn in H; try discriminate.
    inversion H; subst.
    rewrite (forEachMonster_no_init _ _ _ _ _ _ _ _ _ _ E). intros p [].
  - destruct (pendingRespawns w); [discriminate|].
    unfold respawnCallback in H.
    destruct (spawnMonster _ _) as [[g1 m]| |]; cbn in H; try discriminate.
    inversion H; subst.
    rewrite initPlayers_broadcast by exact I. intros p [].
Qed.

(** An id below the counter that is not a key stays that way. *)
Lemma step_keeps_absent w ev w' eff k :
  step w ev = Some (w', eff) ->
  k < nextPlayerId (gameState w) ->
  JsMap.get (players (gameState w)) k = None ->
  k < nextPlayerId (gameState w')
  /\ JsMap.get (players (gameState w')) k = None.
Proof.
  intros H Hk Hg. pose proof (step_nextPlayerId _ _ _ _ H) as Hn.
  split; [destruct ev; lia|]. clear Hn.
  unfold step in H.
  destruct ev as [s rnd|s message env|s|s|now rnd|env].
  - destruct (findClient _ s); [discriminate|].
    unfold onConnection in H.
    destruct (findSpawnPosition _ _) as [[x y]| |]; cbn [bind] in H;
      try discriminate.
    inversion H; subst; clear H. cbn.
    rewrite get_set_other by lia. exact Hg.
  - destruct (findClient _ s) as [ws|]; [|discriminate].
    pose proof (onMessage_players (gameState w) (wssClients w) ws message env)
      as Hp.
    destruct (onMessage _ _ _ _ _) as [g1 e1]. inversion H; subst; clear H.
    cbn in *. destruct Hp as [->|(player & x & y & Hgp & _ & _ & ->)];
      [exact Hg|].
    rewrite get_set_other; [exact Hg | congruence].
  - destruct (findClient _ s); [|discriminate]. inversion H; subst. exact Hg.
  - destruct (findClient _ s) as [ws|]; [|discriminate].
    unfold onClose in H. inversion H; subst. cbn.
    rewrite get_delete. destruct (k =? playerId ws); [reflexivity | exact Hg].
  - destruct (gameLoop _ _ _ _) as [[g1 e1]| |] eqn:E; try discriminate.
    inversion H; subst. apply gameLoop_frame in E.
    destruct E as (_ & _ & _ & Hkeys). cbn.
    apply get_None_keys. rewrite Hkeys. now apply get_None_keys.
  - destruct (pendingRespawns w); [discriminate|].
    unfold respawnCallback in H.
    destruct (spawnMonster _ _) as [[g1 m]| |] eqn:E; cbn in H;
      try discriminate.
    apply spawnMonster_Ok in E. destruct E as (-> & _).
    inversion H; subst. exact Hg.
Qed.

Lemma run_keeps_absent evs :
  forall w w' eff k,
    run w evs = Some (w', eff) ->
    sessionsOk w ->
    k < nextPlayerId (gameState w) ->
    JsMap.get (players (gameState w)) k = None ->
    JsMap.get (players (gameState w')) k = None
    /\ forall p, In p (initPlayers eff) -> Player.id p <> k.
Proof.
  induction evs as [|ev evs IH]; intros w w' eff k; cbn.
  - intros [= <- <-] _ _ Hg. split; [exact Hg | intros p []].
  - destruct (step w ev) as [[w1 e1]|] eqn:E; [|discriminate].
    destruct (run w1 evs) as [[w2 e2]|] eqn:E2; [|discriminate].
    intros [= <- <-] Hok Hk Hg.
    destruct (step_keeps_absent _ _ _ _ _ E Hk Hg) as [Hk1 Hg1].
    pose proof (step_sessionsOk _ _ _ _ E Hok) as Hok1.
    destruct (IH _ _ _ _ E2 Hok1 Hk1 Hg1) as [Hg2 Hi2].
    split; [exact Hg2|].
    intros p Hin. rewrite initPlayers_app in Hin.
    apply in_app_or in Hin. destruct Hin as [Hin|Hin]; [|now apply Hi2].
    apply (step_initPlayers _ _ _ _ E) in Hin.
    unfold JsMap.values in Hin. apply in_map_iff in Hin.
    destruct Hin as ([k0 p0] & Hp & Hin). cbn in Hp. subst p0.
    destruct Hok1 as (_ & _ & _ & Hall). rewrite Forall_forall in Hall.
    destruct (Hall _ Hin) as (Hid & _). cbn in Hid. rewrite Hid.
    intros ->. apply In_get_keys in Hin. apply get_None_keys in Hg1. auto.
Qed.

(** X8. When a session closes, its player leaves the collection and the
    session leaves [wss.clients]; [playerLeft] is sent to the remaining open
    sessions and never to the closed socket. The player never comes back:
    in every later world its id is not in the collection, and no later
    [init] payload lists a player with that id. *)
Theorem closed_session_player_is_gone_for_good :
  forall (w : World) (s : nat) (ws : WebSocket),
    reachable w ->
    findClient (wssClients w) s = Some ws ->
    exists w1,
      step w (EvClose s)
      = Some (w1, broadcast (wssClients w1) (playerLeft (playerId ws)) None)
      /\ wssClients w1
         = filter (fun c => negb (Nat.eqb (sock c) s)) (wssClients w)
      /\ findClient (wssClients w1) s = None
      /\ (forall m, ~ In (Send s m)
                       (broadcast (wssClients w1)
                                  (playerLeft (playerId ws)) None))
      /\ (forall evs w2 eff,
            run w1 evs = Some (w2, eff) ->
            JsMap.get (players (gameState w2)) (playerId ws) = None
            /\ forall p, In p (initPlayers eff) -> Player.id p <> playerId ws).
Proof.
  intros w s ws Hr Hf.
  pose proof (reachable_sessionsOk w Hr) as Hok.
  assert (Hstep : step w (EvClose s)
                  = Some (mkWorld
                            (setPlayers (gameState w)
                               (JsMap.delete (players (gameState w)) (playerId ws)))
                            (filter (fun c => negb (Nat.eqb (sock c) (sock ws)))
                                    (wssClients w))
                            (pendingRespawns w),
                          broadcast
                            (filter (fun c => negb (Nat.eqb (sock c) (sock ws)))
                                    (wssClients w))
                            (playerLeft (playerId ws)) None)).
  { unfold step. rewrite Hf. reflexivity. }
  pose proof (findClient_Some _ _ _ Hf) as [Hin Hs].
  rewrite Hs in Hstep.
  eexists. split; [exact Hstep|]. cbn [wssClients].
  assert (Hgone : findClient
                    (filter (fun c => negb (Nat.eqb (sock c) s)) (wssClients w))
                    s = None).
  { unfold findClient.
    destruct (find _ _) as [c|] eqn:E; [|reflexivity].
    apply find_some in E. destruct E as [E1 E2].
    apply filter_In in E1. destruct E1 as [_ E1].
    rewrite E2 in E1. discriminate. }
  split; [reflexivity|]. split; [exact Hgone|]. split.
  - intros m Hm.
    apply In_broadcast in Hm.
    destruct Hm as (_ & _ & c & Hc & Hsc & _).
    apply filter_In in Hc. destruct Hc as [_ Hc].
    rewrite Hsc, Nat.eqb_refl in Hc. discriminate.
  - intros evs w2 eff Hrun.
    pose proof (step_sessionsOk _ _ _ _ Hstep Hok) as Hok1.
    eapply run_keeps_absent; [exact Hrun | exact Hok1 | |].
    + cbn. destruct (session_has_player w s ws Hok Hf) as (p & _ & _ & Hlt).
      exact Hlt.
    + cbn. rewrite get_delete, Z.eqb_refl. reflexivity.
Qed.

Lemma closed_session_player_is_gone_for_good_witness :
  reachable Demo.twoPlayers
  /\ findClient (wssClients Demo.twoPlayers) 1 = Some Demo.ws1
  /\ exists w1,
       step Demo.twoPlayers (EvClose 1)
       = Some (w1, broadcast (wssClients w1)
                             (playerLeft (playerId Demo.ws1)) None)
       /\ findClient (wssClients w1) 1 = None.
Proof.
  split; [exact twoPlayers_reachable|]. split; [reflexivity|].
  destruct (closed_session_player_is_gone_for_good
              Demo.twoPlayers 1 Demo.ws1 twoPlayers_reachable eq_refl)
    as (w1 & H1 & _ & H2 & _).
  exists w1. split; [exact H1 | exact H2].
Defined.

(** ** The nearest-player scan *)

Lemma nearestPlayer_snoc ps entry monster :
  nearestPlayer (ps ++ [entry]) monster
  = nearestStep monster (nearestPlayer ps monster) entry.
Proof. unfold nearestPlayer. now rewrite fold_left_app. Qed.

(** X11. The scan of the monster AI returns nothing exactly when there is
    no player; otherwise it returns a stored player together with its
    squared distance to the monster, which is minimal among all players,
    and among the players at that minimal distance it returns the one that
    comes first in the iteration order of the collection. *)
Theorem nearestPlayer_first_minimum :
  forall (ps : JsMap.t Player.t) (monster : Monster.t),
    let dist := fun p : Player.t =>
      distance2 (Player.x p) (Player.y p)
                (Monster.x monster) (Monster.y monster) in
    (nearestPlayer ps monster = None <-> ps = [])
    /\ (forall k p d,
          nearestPlayer ps monster = Some (k, p, d) ->
          d = dist p
          /\ exists before after,
               ps = before ++ (k, p) :: after
               /\ (forall kp, In kp before -> d < dist (snd kp))
               /\ (forall kp, In kp after -> d <= dist (snd kp))).
Proof.
  intros ps monster dist.
  induction ps as [|entry ps IH] using rev_ind.
  - split; [split; reflexivity|]. intros k p d H. discriminate H.
  - destruct IH as [IHn IHs]. rewrite nearestPlayer_snoc. split.
    + split.
      * unfold nearestStep.
        destruct (nearestPlayer ps monster) as [[[k0 p0] d0]|];
          [destruct (_ <? d0)|]; discriminate.
      * intros H. destruct ps; discriminate H.
    + intros k p d H. unfold nearestStep in H.
      destruct (nearestPlayer ps monster) as [[[k0 p0] d0]|] eqn:E.
      * destruct (IHs k0 p0 d0 eq_refl) as (Hd & before & after & Hps & Hb & Ha).
        fold (dist (snd entry)) in H.
        destruct (Z.ltb_spec (dist (snd entry)) d0) as [Hlt|Hge].
        -- inversion H; subst k p d. split; [reflexivity|].
           exists ps, []. split; [now destruct entry|]. split; [|intros kp []].
           intros kp Hin. rewrite Hps in Hin. apply in_app_or in Hin.
           destruct Hin as [Hin|[<-|Hin]].
           ++ specialize (Hb _ Hin). lia.
           ++ cbn [snd]. lia.
           ++ specialize (Ha _ Hin). lia.
        -- inversion H; subst k p d. split; [exact Hd|].
           exists before, (after ++ [entry]).
           split; [rewrite Hps, <- app_assoc; reflexivity|].
           split; [exact Hb|].
           intros kp Hin. apply in_app_or in Hin.
           destruct Hin as [Hin|[<-|[]]]; [now apply Ha | exact Hge].
      * inversion H; subst k p d. split; [reflexivity|].
        assert (Hps : ps = []) by (apply IHn; reflexivity).
        subst ps. exists [], [].
        split; [now destruct entry|]. split; intros kp [].
Qed.

Lemma nearestPlayer_first_minimum_witness :
  nearestPlayer (players (gameState Demo.twoPlayers))
                (Monster.mk 102 8 7 50 50 0)
    = Some (1, Demo.player1, 1)
  /\ 1 = distance2 (Player.x Demo.player1) (Player.y Demo.player1) 8 7.
Proof.
  split; [reflexivity|].
  exact (proj1 (proj2 (nearestPlayer_first_minimum
                         (players (gameState Demo.twoPlayers))
                         (Monster.mk 102 8 7 50 50 0))
                      1 Demo.player1 1 eq_refl)).
Defined.

(** ** One monster's turn *)

(** Splits a conjunction into its parts without introducing hypotheses. *)
Ltac splits := repeat match goal with |- _ /\ _ => split end.


Lemma nearestPlayer_distance ps monster k p d :
  nearestPlayer ps monster = Some (k, p, d) ->
  d = distance2 (Player.x p) (Player.y p) (Monster.x monster) (Monster.y monster).
Proof.
  revert k p d. induction ps as [|entry ps IH] using rev_ind; intros k p d.
  - discriminate.
  - rewrite nearestPlayer_snoc. unfold nearestStep.
    destruct (nearestPlayer ps monster) as [[[k0 p0] d0]|].
    + destruct (_ <? d0); intros [= <- <- <-]; [reflexivity | now apply (IH k0 p0)].
    + intros [= <- <- <-]. reflexivity.
Qed.

Lemma direction_step dx dy :
  let mx := fst (direction dx dy) in
  let my := snd (direction dx dy) in
  -1 <= mx <= 1 /\ -1 <= my <= 1
  /\ ((mx, my) = (0, 0)
      \/ (dx - mx) * (dx - mx) + (dy - my) * (dy - my) < dx * dx + dy * dy).
Proof.
  unfold direction, toward.
  rewrite !Z.gtb_ltb.
  destruct (Z.ltb_spec (Z.abs dy) (Z.abs dx));
    [|destruct (Z.ltb_spec (Z.abs dx) (Z.abs dy));
      [|destruct (Z.eqb_spec dx 0)]];
    repeat match goal with |- context [0 <? ?a] => destruct (Z.ltb_spec 0 a) end;
    cbn [fst snd negb]; repeat split; try lia; auto; right; nia.
Qed.

(** X12. In its turn a monster keeps its id and health, and moves by at most
    one cell along each axis. When it changes cell, the new cell is in
    bounds and walkable and is strictly closer (in Euclidean distance) to
    the nearest player than the old one: a monster never steps away from
    its target, and it stays where it is when the greedy step is blocked. *)
Theorem monster_step_approaches_target :
  forall (gmap : GameMap) (clients : list WebSocket) (now : Z) (roll : bool)
         (e : Z) (ps ps' : JsMap.t Player.t) (m m' : Monster.t)
         (eff : list Effect),
    monsterTick gmap clients now roll e ps m = Ok (m', ps', eff) ->
    Monster.id m' = Monster.id m
    /\ Monster.health m' = Monster.health m
    /\ Monster.maxHealth m' = Monster.maxHealth m
    /\ (Monster.lastMove m' = Monster.lastMove m
        \/ Monster.lastMove m' = now /\ 500 < now - Monster.lastMove m)
    /\ Z.abs (Monster.x m' - Monster.x m) <= 1
    /\ Z.abs (Monster.y m' - Monster.y m) <= 1
    /\ ((Monster.x m', Monster.y m') <> (Monster.x m, Monster.y m) ->
        inBounds (Monster.x m') (Monster.y m')
        && walkableAt gmap (Monster.x m') (Monster.y m') = true
        /\ exists key nearest d,
             nearestPlayer ps (Monster.setLastMove m now)
               = Some (key, nearest, d)
             /\ distance2 (Player.x nearest) (Player.y nearest)
                          (Monster.x m') (Monster.y m') < d).
Proof.
  intros gmap clients now roll e ps ps' m m' eff. unfold monsterTick. intros H.
  destruct (Z.gtb_spec (now - Monster.lastMove m) 500) as [Hdue|Hdue];
    [|inversion H; subst; splits; auto; try (rewrite Z.sub_diag; cbn; lia);
      intros Hne; congruence].
  destruct (nearestPlayer ps _) as [[[key nearest] d]|] eqn:Hn;
    [|inversion H; subst; cbn; splits; auto;
      try (rewrite Z.sub_diag; cbn; lia); intros Hne; congruence].
  pose proof (nearestPlayer_distance _ _ _ _ _ Hn) as Hd.
  cbn [Monster.setLastMove Monster.x Monster.y Monster.id] in H, Hd.
  pose proof (direction_step (Player.x nearest - Monster.x m)
                             (Player.y nearest - Monster.y m)) as Hdir.
  destruct (direction _ _) as [moveX moveY]. cbn [fst snd] in Hdir.
  destruct Hdir as (Hx & Hy & Hcloser).
  destruct (isValidMove gmap _ _) as [valid| |] eqn:Hv; cbn [bind] in H;
    try discriminate.
  assert (Hm' : m' = if valid
                     then Monster.setPos (Monster.setLastMove m now)
                            (Monster.x m + moveX) (Monster.y m + moveY)
                     else Monster.setLastMove m now).
  { destruct valid; destruct ((d <=? 2) && roll); inversion H; reflexivity. }
  clear H. destruct valid; subst m'; cbn.
  - splits; auto; try lia. intros Hne. split.
    + apply isValidMove_true in Hv. exact Hv.
    + exists key, nearest, d. split; [reflexivity|].
      destruct Hcloser as [Hz|Hlt].
      * exfalso. inversion Hz; subst. apply Hne. now rewrite !Z.add_0_r.
      * unfold distance2 in *. subst d.
        replace (Player.x nearest - (Monster.x m + moveX))
          with (Player.x nearest - Monster.x m - moveX) by lia.
        replace (Player.y nearest - (Monster.y m + moveY))
          with (Player.y nearest - Monster.y m - moveY) by lia.
        exact Hlt.
  - splits; auto; try (rewrite Z.sub_diag; cbn; lia).
    intros Hne; congruence.
Qed.

Lemma monster_step_approaches_target_witness :
  monsterTick Demo.gmap [Demo.ws1] 1000 false 0
              (players (gameState Demo.onePlayer))
              (Monster.mk 102 9 7 50 50 0)
    = Ok (Monster.mk 102 8 7 50 50 1000,
          players (gameState Demo.onePlayer),
          [Send 1%nat (monsterMoved 102 8 7)])
  /\ Z.abs (8 - 9) <= 1.
Proof.
  split; [reflexivity|].
  exact (proj1 (proj2 (proj2 (proj2 (proj2
    (monster_step_approaches_target Demo.gmap [Demo.ws1] 1000 false 0
       (players (gameState Demo.onePlayer)) (players (gameState Demo.onePlayer))
       (Monster.mk 102 9 7 50 50 0) (Monster.mk 102 8 7 50 50 1000)
       [Send 1%nat (monsterMoved 102 8 7)] eq_refl)))))).
Defined.



(** ** The whole tick *)

Lemma monsterTick_monster gmap clients now roll e ps m m' ps' eff :
  monsterTick gmap clients now roll e ps m = Ok (m', ps', eff) ->
  Monster.id m' = Monster.id m
  /\ Monster.health m' = Monster.health m
  /\ Monster.maxHealth m' = Monster.maxHealth m
  /\ now - Monster.lastMove m' <= 500.
Proof.
  unfold monsterTick. intros H.
  destruct (Z.gtb_spec (now - Monster.lastMove m) 500) as [Hdue|Hdue];
    [|inversion H; subst; auto].
  destruct (nearestPlayer ps _) as [[[key nearest] d]|];
    [|inversion H; subst; cbn; rewrite Z.sub_diag; splits; auto; lia].
  destruct (direction _ _) as [moveX moveY].
  destruct (isValidMove gmap _ _) as [valid| |]; cbn [bind] in H;
    try discriminate.
  destruct valid; destruct ((d <=? 2) && roll); inversion H; subst; cbn;
    rewrite Z.sub_diag; splits; auto; lia.
Qed.

Lemma monsterTick_not_due gmap clients now roll e ps m :
  now - Monster.lastMove m <= 500 ->
  monsterTick gmap clients now roll e ps m = Ok (m, ps, []).
Proof.
  intros H. unfold monsterTick.
  destruct (Z.gtb_spec (now - Monster.lastMove m) 500); [lia | reflexivity].
Qed.

Lemma Forall2_refl {A} (R : A -> A -> Prop) (l : list A) :
  (forall a, R a a) -> Forall2 R l l.
Proof. intros H. induction l; constructor; auto. Qed.

Lemma Forall2_trans {A} (R : A -> A -> Prop) (l1 l2 l3 : list A) :
  (forall a b c, R a b -> R b c -> R a c) ->
  Forall2 R l1 l2 -> Forall2 R l2 l3 -> Forall2 R l1 l3.
Proof.
  intros HR H12. revert l3.
  induction H12; intros l3 H23; inversion H23; subst; constructor; eauto.
Qed.

Lemma tickedPlayer_refl kp : tickedPlayer kp kp.
Proof. unfold tickedPlayer. splits; auto; lia. Qed.

Lemma tickedPlayer_trans a b c :
  tickedPlayer a b -> tickedPlayer b c -> tickedPlayer a c.
Proof. unfold tickedPlayer. intuition (try congruence; try lia). Qed.

Lemma set_ticked ps key p p' :
  NoDup (List.map fst ps) -> In (key, p) ps ->
  tickedPlayer (key, p) (key, p') ->
  Forall2 tickedPlayer ps (JsMap.set ps key p').
Proof.
  induction ps as [|[k0 p0] ps IH]; cbn; [tauto|].
  intros Hnd Hin Hr. inversion Hnd as [|? ? Hnotin Hnd']; subst.
  destruct (Z.eqb_spec k0 key) as [->|Hne].
  - constructor; [|apply Forall2_refl, tickedPlayer_refl].
    destruct Hin as [Hin|Hin].
    + inversion Hin; subst. exact Hr.
    + exfalso. apply Hnotin. eapply In_get_keys; eauto.
  - constructor; [apply tickedPlayer_refl|].
    destruct Hin as [Hin|Hin]; [congruence|]. apply IH; auto.
Qed.

Lemma forEachMonster_ticked gmap clients now rnd ms :
  forall i ps ms' ps' eff,
    forEachMonster gmap clients now rnd i ms ps = Ok (ms', ps', eff) ->
    NoDup (List.map fst ps) ->
    Forall2 (tickedMonster now) ms ms' /\ Forall2 tickedPlayer ps ps'.
Proof.
  induction ms as [|m ms IH]; intros i ps ms' ps' eff; cbn.
  - intros [= <- <- <-] _. split; [constructor|].
    apply Forall2_refl, tickedPlayer_refl.
  - destruct (monsterTick _ _ _ _ _ _ _) as [[[m1 ps1] eff1]| |] eqn:E1;
      cbn; try discriminate.
    destruct (forEachMonster _ _ _ _ _ _ _) as [[[ms2 ps2] eff2]| |] eqn:E2;
      cbn; try discriminate.
    intros [= <- <- <-] Hnd.
    pose proof (monsterTick_monster _ _ _ _ _ _ _ _ _ _ E1) as Hm.
    pose proof (monsterTick_players _ _ _ _ _ _ _ _ _ _ E1) as Hp.
    assert (H1 : Forall2 tickedPlayer ps ps1
                 /\ List.map fst ps1 = List.map fst ps).
    { destruct Hp as [->|(key & nearest & Hin & ->)].
      - split; [apply Forall2_refl, tickedPlayer_refl | reflexivity].
      - split.
        + apply (set_ticked _ _ nearest); auto.
          unfold tickedPlayer; cbn. splits; auto.
          pose proof (randomInt_range 6 (snd (rnd i))). lia.
        + apply keys_set_existing. eapply In_get_keys; eauto. }
    destruct H1 as [H1 Hk1].
    destruct (IH _ _ _ _ _ E2) as [Hms Hps]; [now rewrite Hk1|].
    split; [constructor; auto|].
    eapply Forall2_trans; [exact tickedPlayer_trans | exact H1 | exact Hps].
Qed.

(** X9. On a reachable world the tick always returns. It changes neither
    the map, the stored fireballs, the player-id counter, the sessions nor
    the pending respawns; it keeps the monsters in place in the list with
    their ids and health, and leaves each of them not due again at the same
    instant; it keeps the players in place with their keys, ids, positions
    and maximal health, and never raises a player's health. *)
Theorem tick_changes_only_monster_moves_and_player_health :
  forall (w : World) (now : Z) (rnd : nat -> bool * Z),
    reachable w ->
    exists w' eff,
      step w (EvTick now rnd) = Some (w', eff)
      /\ wssClients w' = wssClients w
      /\ pendingRespawns w' = pendingRespawns w
      /\ map (gameState w') = map (gameState w)
      /\ fireballs (gameState w') = fireballs (gameState w)
      /\ nextPlayerId (gameState w') = nextPlayerId (gameState w)
      /\ Forall2 (tickedMonster now)
                 (monsters (gameState w)) (monsters (gameState w'))
      /\ Forall2 tickedPlayer
                 (players (gameState w)) (players (gameState w')).
Proof.
  intros w now rnd Hr.
  pose proof (reachable_invariant w Hr) as (Hwf & _).
  pose proof (reachable_sessionsOk w Hr) as (_ & _ & Hnd & _).
  destruct (gameLoop_returns (gameState w) (wssClients w) now rnd Hwf)
    as [[g' eff] Hg].
  exists (mkWorld g' (wssClients w) (pendingRespawns w)), eff.
  split; [unfold step; now rewrite Hg|].
  cbn [wssClients pendingRespawns gameState].
  unfold gameLoop in Hg.
  destruct (forEachMonster _ _ _ _ _ _ _) as [[[ms ps] e]| |] eqn:E;
    cbn in Hg; try discriminate.
  inversion Hg; subst; cbn.
  destruct (forEachMonster_ticked _ _ _ _ _ _ _ _ _ _ E Hnd) as [H1 H2].
  splits; auto.
Qed.

Lemma tick_changes_only_monster_moves_and_player_health_witness :
  reachable Demo.onePlayer
  /\ exists w' eff,
       step Demo.onePlayer (EvTick 1000 Demo.hits) = Some (w', eff)
       /\ map (gameState w') = map (gameState Demo.onePlayer).
Proof.
  split; [exact onePlayer_reachable|].
  destruct (tick_changes_only_monster_moves_and_player_health
              Demo.onePlayer 1000 Demo.hits onePlayer_reachable)
    as (w' & eff & H1 & _ & _ & H2 & _).
  exists w', eff. split; [exact H1 | exact H2].
Defined.

Lemma forEachMonster_not_due gmap clients now rnd ms :
  Forall (fun m => now - Monster.lastMove m <= 500) ms ->
  forall i ps, forEachMonster gmap clients now rnd i ms ps = Ok (ms, ps, []).
Proof.
  induction 1 as [|m ms Hm Hms IH]; intros i ps; cbn; [reflexivity|].
  rewrite monsterTick_not_due by exact Hm. cbn. rewrite IH. reflexivity.
Qed.

Lemma forEachMonster_leaves_none_due gmap clients now rnd ms :
  forall i ps ms' ps' eff,
    forEachMonster gmap clients now rnd i ms ps = Ok (ms', ps', eff) ->
    Forall (fun m => now - Monster.lastMove m <= 500) ms'.
Proof.
  induction ms as [|m ms IH]; intros i ps ms' ps' eff; cbn.
  - intros [= <- <- <-]. constructor.
  - destruct (monsterTick _ _ _ _ _ _ _) as [[[m1 ps1] eff1]| |] eqn:E1;
      cbn; try discriminate.
    destruct (forEachMonster _ _ _ _ _ _ _) as [[[ms2 ps2] eff2]| |] eqn:E2;
      cbn; try discriminate.
    intros [= <- <- <-]. constructor.
    + apply (monsterTick_monster _ _ _ _ _ _ _ _ _ _ E1).
    + eapply IH; eauto.
Qed.

(** X10. Monster pacing: a tick in which no monster is due (less than 501 ms
    since each one's last turn) changes nothing and sends nothing; and after
    any tick at time [now] no monster is due at [now], so running the loop
    again at the same instant changes nothing and sends nothing. *)
Theorem tick_paces_monsters :
  forall (g : GameState) (clients : list WebSocket) (now : Z)
         (rnd : nat -> bool * Z),
    (Forall (fun m => now - Monster.lastMove m <= 500) (monsters g) ->
     gameLoop g clients now rnd = Ok (g, []))
    /\ (forall g' eff,
          gameLoop g clients now rnd = Ok (g', eff) ->
          Forall (fun m => now - Monster.lastMove m <= 500) (monsters g')
          /\ forall rnd', gameLoop g' clients now rnd' = Ok (g', [])).
Proof.
  intros g clients now rnd.
  assert (Hidle : forall g0 rnd0,
             Forall (fun m => now - Monster.lastMove m <= 500) (monsters g0) ->
             gameLoop g0 clients now rnd0 = Ok (g0, [])).
  { intros g0 rnd0 H. unfold gameLoop.
    rewrite forEachMonster_not_due by exact H. cbn. now destruct g0. }
  split; [apply Hidle|].
  intros g' eff H.
  assert (Hdue : Forall (fun m => now - Monster.lastMove m <= 500) (monsters g')).
  { unfold gameLoop in H.
    destruct (forEachMonster _ _ _ _ _ _ _) as [[[ms ps] e]| |] eqn:E;
      cbn in H; try discriminate.
    inversion H; subst; cbn.
    eapply forEachMonster_leaves_none_due; eauto. }
  split; [exact Hdue|]. intros rnd'. now apply Hidle.
Qed.

Lemma tick_paces_monsters_witness :
  Forall (fun m => 400 - Monster.lastMove m <= 500)
         (monsters (gameState Demo.onePlayer))
  /\ gameLoop (gameState Demo.onePlayer) [Demo.ws1] 400 Demo.hits
     = Ok (gameState Demo.onePlayer, []).
Proof.
  assert (H : Forall (fun m => 400 - Monster.lastMove m <= 500)
                     (monsters (gameState Demo.onePlayer))).
  { repeat constructor; cbn; lia. }
  split; [exact H|].
  exact (proj1 (tick_paces_monsters (gameState Demo.onePlayer) [Demo.ws1]
                                    400 Demo.hits) H).
Defined.

(** ** The monster population *)

Lemma length_updateFound ms id f :
  length (updateFound ms id f) = length ms.
Proof.
  induction ms as [|m ms IH]; cbn; [reflexivity|].
  destruct (Monster.id m =? id); cbn; now rewrite ?IH.
Qed.

Lemma filter_found_shorter ms id m :
  findMonster ms id = Some m ->
  (length (filter (fun m => negb (Z.eqb (Monster.id m) id)) ms)
   < length ms)%nat.
Proof.
  unfold findMonster. induction ms as [|m0 ms IH]; cbn; [discriminate|].
  destruct (Monster.id m0 =? id) eqn:E; cbn.
  - intros _. pose proof (filter_length_le
                            (fun m => negb (Monster.id m =? id)) ms). lia.
  - intros H. apply IH in H. lia.
Qed.

Lemma timeoutsSet_app effs1 effs2 :
  timeoutsSet (effs1 ++ effs2) = (timeoutsSet effs1 + timeoutsSet effs2)%nat.
Proof. unfold timeoutsSet. now rewrite filter_app, length_app. Qed.

Lemma applyDamage_population damage g clients ws id :
  (length (monsters (fst (Spec.applyDamage damage g clients ws id)))
   + timeoutsSet (snd (Spec.applyDamage damage g clients ws id))
   <= length (monsters g))%nat.
Proof.
  unfold Spec.applyDamage.
  destruct (JsMap.get _ _); [|cbn; lia].
  destruct (findMonster _ id) as [m|] eqn:Hf; [|cbn; lia].
  cbv zeta. destruct (0 <? _); cbn [fst snd monsters setMonsters].
  - rewrite timeoutsSet_broadcast, length_updateFound. lia.
  - rewrite timeoutsSet_app, timeoutsSet_broadcast. cbn.
    pose proof (filter_found_shorter _ _ _ Hf). lia.
Qed.

Lemma onMessage_population g clients ws message env :
  (length (monsters (fst (onMessage g clients ws message env)))
   + timeoutsSet (snd (onMessage g clients ws message env))
   <= length (monsters g))%nat.
Proof.
  unfold onMessage.
  destruct message as [x y|tx ty|id|id|];
    [| |rewrite attack_is_applyDamage; apply applyDamage_population
     |rewrite fireballHit_is_applyDamage; apply applyDamage_population|];
    unfold handleClientMessage;
    destruct (JsMap.get (players g) (playerId ws)) as [player|];
    try (cbn; lia).
  - destruct (isValidMove (map g) x y) as [[|]| |]; cbn [bind fst snd];
      try (cbn; lia).
    cbn [monsters setPlayers]. rewrite timeoutsSet_broadcast. lia.
  - cbn [fst snd monsters setFireballs]. rewrite timeoutsSet_broadcast. lia.
Qed.

Lemma forEachMonster_length gmap clients now rnd ms :
  forall i ps ms' ps' eff,
    forEachMonster gmap clients now rnd i ms ps = Ok (ms', ps', eff) ->
    length ms' = length ms.
Proof.
  induction ms as [|m ms IH]; intros i ps ms' ps' eff; cbn.
  - intros [= <- <- <-]. reflexivity.
  - destruct (monsterTick _ _ _ _ _ _ _) as [[[m1 ps1] eff1]| |];
      cbn; try discriminate.
    destruct (forEachMonster _ _ _ _ _ _ _) as [[[ms2 ps2] eff2]| |] eqn:E2;
      cbn; try discriminate.
    intros [= <- <- <-]. cbn. f_equal. eapply IH; eauto.
Qed.

Lemma step_population w ev w' eff :
  step w ev = Some (w', eff) ->
  (length (monsters (gameState w')) + pendingRespawns w'
   <= length (monsters (gameState w)) + pendingRespawns w)%nat.
Proof.
  unfold step. intros H.
  destruct ev as [s rnd|s message env|s|s|now rnd|env].
  - destruct (findClient _ s); [discriminate|].
    unfold onConnection in H.
    destruct (findSpawnPosition _ _) as [[x y]| |]; cbn in H; try discriminate.
    inversion H; subst; cbn. lia.
  - destruct (findClient _ s) as [ws|]; [|discriminate].
    pose proof (onMessage_population (gameState w) (wssClients w) ws message env)
      as Hp.
    destruct (onMessage _ _ _ _ _) as [g1 e1]. inversion H; subst.
    cbn [fst snd gameState pendingRespawns] in *. lia.
  - destruct (findClient _ s); [|discriminate]. inversion H; subst; cbn. lia.
  - destruct (findClient _ s); [|discriminate]. inversion H; subst; cbn. lia.
  - unfold gameLoop in H.
    destruct (forEachMonster _ _ _ _ _ _ _) as [[[ms ps] e]| |] eqn:E;
      cbn in H; try discriminate.
    inversion H; subst; cbn.
    rewrite (forEachMonster_length _ _ _ _ _ _ _ _ _ _ E).
    lia.
  - destruct (pendingRespawns w) as [|n]; [discriminate|].
    unfold respawnCallback in H.
    destruct (spawnMonster _ _) as [[g1 m]| |] eqn:E; cbn in H;
      try discriminate.
    apply spawnMonster_Ok in E. destruct E as (-> & _).
    inversion H; subst; cbn. rewrite length_app. cbn. lia.
Qed.

(** X14. The monster population is bounded: the game starts with exactly
    [MONSTER_COUNT] monsters and no pending respawn, no operation raises the
    number of live monsters plus pending respawns, and so in every reachable
    world that number is at most [MONSTER_COUNT] (3). *)
Theorem monster_population_bounded :
  (forall pick envs g,
      initGame pick envs = Ok g ->
      length (monsters g) = CONFIG.MONSTER_COUNT
      /\ players g = [] /\ fireballs g = [] /\ nextPlayerId g = 1
      /\ map g = generateMap pick)
  /\ (forall w ev w' eff,
        step w ev = Some (w', eff) ->
        (length (monsters (gameState w')) + pendingRespawns w'
         <= length (monsters (gameState w)) + pendingRespawns w)%nat)
  /\ (forall w, reachable w ->
        (length (monsters (gameState w)) + pendingRespawns w
         <= CONFIG.MONSTER_COUNT)%nat).
Proof.
  assert (Hinit : forall pick envs g,
             initGame pick envs = Ok g ->
             length (monsters g) = CONFIG.MONSTER_COUNT
             /\ players g = [] /\ fireballs g = [] /\ nextPlayerId g = 1
             /\ map g = generateMap pick).
  { intros pick envs g H. unfold initGame in H.
    apply spawnMonsters_players in H. cbn in H. tauto. }
  split; [exact Hinit|]. split; [exact step_population|].
  induction 1 as [pick envs g Hg | w ev w' eff Hr IH Hs].
  - apply Hinit in Hg. cbn. destruct Hg as (-> & _). lia.
  - apply step_population in Hs. lia.
Qed.

Lemma monster_population_bounded_witness :
  reachable Demo.onePlayer
  /\ (length (monsters (gameState Demo.onePlayer))
      + pendingRespawns Demo.onePlayer <= CONFIG.MONSTER_COUNT)%nat.
Proof.
  split; [exact onePlayer_reachable|].
  exact (proj2 (proj2 monster_population_bounded)
               Demo.onePlayer onePlayer_reachable).
Defined.

(** ** The closed arena *)

Lemma step_map w ev w' eff :
  step w ev = Some (w', eff) -> map (gameState w') = map (gameState w).
Proof.
  unfold step. intros Hs.
  destruct ev as [s rnd|s message env|s|s|now rnd|env].
  - destruct (findClient _ s); [discriminate|].
    unfold onConnection in Hs.
    destruct (findSpawnPosition _ _) as [[x y]| |]; cbn in Hs;
      try discriminate.
    inversion Hs; subst; reflexivity.
  - destruct (findClient _ s) as [ws|]; [|discriminate].
    unfold onMessage in Hs.
    destruct message; [| |rewrite attack_is_applyDamage in Hs
                      |rewrite fireballHit_is_applyDamage in Hs|];
      unfold handleClientMessage, Spec.applyDamage in Hs;
      destruct (JsMap.get _ _);
      try (inversion Hs; subst; reflexivity).
    + destruct (isValidMove _ _ _) as [[|]| |]; cbn in Hs;
        inversion Hs; subst; reflexivity.
    + destruct (findMonster _ _); [|inversion Hs; subst; reflexivity].
      cbv zeta in Hs. destruct (0 <? _); inversion Hs; subst; reflexivity.
    + destruct (findMonster _ _); [|inversion Hs; subst; reflexivity].
      cbv zeta in Hs. destruct (0 <? _); inversion Hs; subst; reflexivity.
  - destruct (findClient _ s); [|discriminate].
    inversion Hs; subst; reflexivity.
  - destruct (findClient _ s); [|discriminate].
    inversion Hs; subst; reflexivity.
  - destruct (gameLoop _ _ _ _) as [[g1 e1]| |] eqn:E; try discriminate.
    inversion Hs; subst. apply gameLoop_frame in E. cbn. tauto.
  - destruct (pendingRespawns w); [discriminate|].
    unfold respawnCallback in Hs.
    destruct (spawnMonster _ _) as [[g1 m]| |] eqn:E; cbn in Hs;
      try discriminate.
    apply spawnMonster_Ok in E. destruct E as (-> & _).
    inversion Hs; subst; reflexivity.
Qed.

(** Every step keeps a property of player positions that holds for every
    spawn sample and every valid move target. *)
Lemma step_player_positions (P : Z -> Z -> Prop) w ev w' eff :
  (forall e, P (fst (spawnSample e)) (snd (spawnSample e))) ->
  (forall x y,
      inBounds x y && walkableAt (map (gameState w)) x y = true -> P x y) ->
  wellFormed (map (gameState w)) = true ->
  Forall (fun kp => P (Player.x (snd kp)) (Player.y (snd kp)))
         (players (gameState w)) ->
  step w ev = Some (w', eff) ->
  Forall (fun kp => P (Player.x (snd kp)) (Player.y (snd kp)))
         (players (gameState w')).
Proof.
  intros Hspawn Hmove Hwf HP. unfold step. intros H.
  destruct ev as [s rnd|s message env|s|s|now rnd|env].
  - destruct (findClient _ s); [discriminate|].
    unfold onConnection, findSpawnPosition, findSpawnPositionCount in H.
    cbn [map] in H.
    destruct (spawnSearch_spec _ rnd Hwf 99 0) as (x & y & n & Hr & _ & Hs & _).
    rewrite Hr in H. cbn in H. inversion H; subst; cbn.
    apply Forall_set; [exact HP|]. cbn.
    pose proof (Hspawn (rnd (n - 1)%nat)) as Hp. now rewrite <- Hs in Hp.
  - destruct (findClient _ s) as [ws|]; [|discriminate].
    pose proof (onMessage_players (gameState w) (wssClients w) ws message env)
      as Hp.
    destruct (onMessage _ _ _ _ _) as [g1 e1]. inversion H; subst; cbn in *.
    destruct Hp as [->|(player & x & y & Hg & Hv & _ & ->)]; [exact HP|].
    apply Forall_set; [exact HP|]. cbn. apply Hmove.
    now apply isValidMove_true.
  - destruct (findClient _ s); [|discriminate]. inversion H; subst. exact HP.
  - destruct (findClient _ s) as [ws|]; [|discriminate].
    unfold onClose in H. inversion H; subst; cbn.
    unfold JsMap.delete. now apply Forall_filter.
  - unfold gameLoop in H.
    destruct (forEachMonster _ _ _ _ _ _ _) as [[[ms ps] e]| |] eqn:E;
      cbn in H; try discriminate.
    inversion H; subst; cbn.
    destruct (forEachMonster_players
                (fun kp => P (Player.x (snd kp)) (Player.y (snd kp)))
                _ _ _ _ _ (fun k p h H => H) _ _ _ _ _ E) as [_ HF].
    auto.
  - destruct (pendingRespawns w); [discriminate|].
    unfold respawnCallback in H.
    destruct (spawnMonster _ _) as [[g1 m]| |] eqn:E; cbn in H;
      try discriminate.
    apply spawnMonster_Ok in E. destruct E as (-> & _).
    inversion H; subst. exact HP.
Qed.

Lemma walkable_generated_is_interior pick x y :
  inBounds x y && walkableAt (generateMap pick) x y = true -> interior x y.
Proof.
  intros H. apply andb_true_iff in H. destruct H as [Hb Hw].
  split; [exact Hb|]. unfold walkableAt in Hw.
  rewrite tileAt_generateMap in Hw by exact Hb.
  destruct (border x y); [discriminate | reflexivity].
Qed.

Lemma spawnSample_interior e :
  interior (fst (spawnSample e)) (snd (spawnSample e)).
Proof.
  split; [apply spawnSample_inBounds|].
  pose proof (spawnSample_range e) as H. unfold border.
  unfold CONFIG.MAP_WIDTH, CONFIG.MAP_HEIGHT in *.
  rewrite !orb_false_iff, !Z.eqb_neq. lia.
Qed.

Lemma reachable_arena w :
  reachable w ->
  (exists pick, map (gameState w) = generateMap pick)
  /\ Forall (fun kp => interior (Player.x (snd kp)) (Player.y (snd kp)))
            (players (gameState w)).
Proof.
  induction 1 as [pick envs g Hg | w ev w' eff Hr IH Hs].
  - unfold initGame in Hg. apply spawnMonsters_players in Hg.
    destruct Hg as (Hp & _ & _ & Hm & _). cbn in *. rewrite Hp.
    split; [eauto | constructor].
  - destruct IH as [[pick Hm] HP].
    rewrite (step_map _ _ _ _ Hs). split; [eauto|].
    eapply step_player_positions; [| | |exact HP|exact Hs].
    + apply spawnSample_interior.
    + rewrite Hm. apply walkable_generated_is_interior.
    + rewrite Hm. apply generateMap_wellFormed.
Qed.

(** X15. The map never changes after generation, so the arena stays
    closed: in every reachable world the map is a generated map (water on
    the whole border) and every player and every monster stands in bounds
    on a cell that is not on the border; a player whose spawn search fell
    back on a non-walkable tile is inside the border ring as well. *)
Theorem entities_stay_inside_the_border :
  forall w : World, reachable w ->
    (exists pick, map (gameState w) = generateMap pick)
    /\ (forall ev w' eff, step w ev = Some (w', eff) ->
          map (gameState w') = map (gameState w))
    /\ (forall k p, In (k, p) (players (gameState w)) ->
          inBounds (Player.x p) (Player.y p) = true
          /\ border (Player.x p) (Player.y p) = false)
    /\ (forall m, In m (monsters (gameState w)) ->
          inBounds (Monster.x m) (Monster.y m) = true
          /\ border (Monster.x m) (Monster.y m) = false).
Proof.
  intros w Hr. destruct (reachable_arena w Hr) as [[pick Hm] HP].
  split; [eauto|]. split; [intros ev w' eff; apply step_map|]. split.
  - intros k p Hin. rewrite Forall_forall in HP. apply (HP _ Hin).
  - intros m Hin.
    destruct (reachable_invariant w Hr) as (_ & Hms & _).
    rewrite Forall_forall in Hms. destruct (Hms _ Hin) as (Hb & Hw & _).
    apply (walkable_generated_is_interior pick).
    rewrite <- Hm, Hb, Hw. reflexivity.
Qed.

Lemma entities_stay_inside_the_border_witness :
  reachable Demo.unluckyPlayer
  /\ In (1, Player.mk 1 2 2 100 100) (players (gameState Demo.unluckyPlayer))
  /\ border 2 2 = false.
Proof.
  split; [exact unluckyPlayer_reachable|]. split; [left; reflexivity|].
  exact (proj2 (proj1 (proj2 (proj2 (entities_stay_inside_the_border
                                       Demo.unluckyPlayer
                                       unluckyPlayer_reachable)))
                      1 (Player.mk 1 2 2 100 100) (or_introl eq_refl))).
Defined.

(** ** Sequences of damage messages *)

Lemma applyDamage_players damage g clients ws id :
  players (fst (Spec.applyDamage damage g clients ws id)) = players g.
Proof.
  unfold Spec.applyDamage.
  destruct (JsMap.get _ _); [|reflexivity].
  destruct (findMonster _ id); [|reflexivity].
  cbv zeta. destruct (0 <? _); reflexivity.
Qed.

Lemma damage_message_is_applyDamage g clients ws id env message :
  message = attack id \/ message = fireballHit id ->
  exists damage,
    8 <= damage <= 15
    /\ onMessage g clients ws message env
       = Spec.applyDamage damage g clients ws id.
Proof.
  unfold onMessage. intros [-> | ->].
  - exists (randomInt 5 (entropy env) + 8). rewrite attack_is_applyDamage.
    pose proof (randomInt_range 5 (entropy env)). split; [lia | reflexivity].
  - exists 15. rewrite fireballHit_is_applyDamage. split; [lia | reflexivity].
Qed.

(** X16. A monster dies once: when a damage message ([attack] or
    [fireballHit]) has brought a monster's health to 0 or below, any further
    damage message for the same id, from any session, changes nothing and
    sends nothing, so there is no second death broadcast and no second
    respawn timer. *)
Theorem dead_monster_ignores_further_hits :
  forall (g : GameState) (clients : list WebSocket) (ws ws2 : WebSocket)
         (player : Player.t) (id : Z) (env env2 : Env) (monster : Monster.t)
         (message message2 : ClientMsg) (damage : Z),
    JsMap.get (players g) (playerId ws) = Some player ->
    findMonster (monsters g) id = Some monster ->
    (message = attack id /\ damage = randomInt 5 (entropy env) + 8
     \/ message = fireballHit id /\ damage = 15) ->
    Monster.health monster - damage <= 0 ->
    (message2 = attack id \/ message2 = fireballHit id) ->
    let g1 := fst (onMessage g clients ws message env) in
    findMonster (monsters g1) id = None
    /\ onMessage g1 clients ws2 message2 env2 = (g1, []).
Proof.
  intros g clients ws ws2 player id env env2 monster message message2 damage
         Hp Hf Hm Hdead Hm2 g1.
  assert (Hg1 : findMonster (monsters g1) id = None).
  { subst g1.
    assert (E : onMessage g clients ws message env
                = Spec.applyDamage damage g clients ws id).
    { unfold onMessage. destruct Hm as [[-> ->]|[-> ->]].
      - now rewrite attack_is_applyDamage.
      - now rewrite fireballHit_is_applyDamage. }
    rewrite E. unfold Spec.applyDamage. rewrite Hp, Hf. cbv zeta.
    destruct (Z.ltb_spec 0 (Monster.health monster - damage)); [lia|].
    cbn. apply findMonster_filtered. }
  split; [exact Hg1|].
  destruct (damage_message_is_applyDamage g1 clients ws2 id env2 message2 Hm2)
    as (d2 & _ & ->).
  unfold Spec.applyDamage. rewrite Hg1.
  destruct (JsMap.get (players g1) (playerId ws2)); reflexivity.
Qed.

Lemma dead_monster_ignores_further_hits_witness :
  JsMap.get (players (gameState Demo.onePlayer)) (playerId Demo.ws1)
    = Some Demo.player1
  /\ findMonster [Monster.mk 101 5 5 5 50 0] 101
     = Some (Monster.mk 101 5 5 5 50 0)
  /\ 5 - 15 <= 0
  /\ let g := setMonsters (gameState Demo.onePlayer)
                          [Monster.mk 101 5 5 5 50 0] in
     let g1 := fst (onMessage g [Demo.ws1] Demo.ws1 (fireballHit 101)
                              Demo.env0) in
     onMessage g1 [Demo.ws1] Demo.ws1 (attack 101) Demo.env0 = (g1, []).
Proof.
  split; [reflexivity|]. split; [reflexivity|]. split; [lia|].
  exact (proj2 (dead_monster_ignores_further_hits
                  (setMonsters (gameState Demo.onePlayer)
                               [Monster.mk 101 5 5 5 50 0])
                  [Demo.ws1] Demo.ws1 Demo.ws1 Demo.player1 101
                  Demo.env0 Demo.env0 (Monster.mk 101 5 5 5 50 0)
                  (fireballHit 101) (attack 101) 15
                  eq_refl eq_refl (or_intror (conj eq_refl eq_refl))
                  ltac:(cbn; lia) (or_introl eq_refl))).
Defined.

(** X17. No lost update: two [fireballHit] messages for the same monster,
    from the same or from two different sessions, both apply their damage
    when the monster's health exceeds 30: its health ends 30 lower, and the
    two broadcasts report health - 15 and then health - 30. *)
Theorem two_fireball_hits_both_apply :
  forall (g : GameState) (clients : list WebSocket) (wsA wsB : WebSocket)
         (playerA playerB : Player.t) (id : Z) (envA envB : Env)
         (monster : Monster.t),
    JsMap.get (players g) (playerId wsA) = Some playerA ->
    JsMap.get (players g) (playerId wsB) = Some playerB ->
    findMonster (monsters g) id = Some monster ->
    30 < Monster.health monster ->
    let r1 := onMessage g clients wsA (fireballHit id) envA in
    let r2 := onMessage (fst r1) clients wsB (fireballHit id) envB in
    snd r1 = broadcast clients
               (monsterDamaged id (Monster.health monster - 15) 15) None
    /\ snd r2 = broadcast clients
                  (monsterDamaged id (Monster.health monster - 30) 15) None
    /\ findMonster (monsters (fst r2)) id
       = Some (Monster.setHealth monster (Monster.health monster - 30))
    /\ length (monsters (fst r2)) = length (monsters g).
Proof.
  intros g clients wsA wsB playerA playerB id envA envB monster
         HpA HpB Hf Hh r1 r2.
  assert (E1 : r1 = Spec.applyDamage 15 g clients wsA id).
  { subst r1. unfold onMessage. now rewrite fireballHit_is_applyDamage. }
  assert (E2 : r2 = Spec.applyDamage 15 (fst r1) clients wsB id).
  { subst r2. unfold onMessage. now rewrite fireballHit_is_applyDamage. }
  destruct (applyDamage_found 15 g clients wsA playerA id monster HpA Hf)
    as (_ & H1 & _); [lia|].
  destruct H1 as [H1e H1f]; [lia|]. rewrite <- E1 in H1e, H1f.
  assert (HpB1 : JsMap.get (players (fst r1)) (playerId wsB) = Some playerB).
  { rewrite E1, applyDamage_players. exact HpB. }
  destruct (applyDamage_found 15 (fst r1) clients wsB playerB id _ HpB1 H1f)
    as (_ & H2 & _); [lia|].
  cbn [Monster.health Monster.setHealth] in H2.
  destruct H2 as [H2e H2f]; [lia|]. rewrite <- E2 in H2e, H2f.
  split; [exact H1e|].
  replace (Monster.health monster - 15 - 15)
    with (Monster.health monster - 30) in * by lia.
  split; [exact H2e|]. split; [exact H2f|].
  rewrite E2, E1. unfold Spec.applyDamage at 1. rewrite <- E1, HpB1, H1f.
  cbv zeta. cbn [Monster.health Monster.setHealth].
  destruct (Z.ltb_spec 0 (Monster.health monster - 15 - 15)); [|lia].
  cbn [fst monsters setMonsters]. rewrite length_updateFound.
  rewrite E1. unfold Spec.applyDamage. rewrite HpA, Hf. cbv zeta.
  destruct (Z.ltb_spec 0 (Monster.health monster - 15)); [|lia].
  cbn. apply length_updateFound.
Qed.

Lemma two_fireball_hits_both_apply_witness :
  JsMap.get (players (gameState Demo.twoPlayers)) (playerId Demo.ws1)
    = Some Demo.player1
  /\ JsMap.get (players (gameState Demo.twoPlayers)) (playerId Demo.ws2)
     = Some Demo.player2
  /\ findMonster (monsters (gameState Demo.twoPlayers)) 102
     = Some (Monster.mk 102 8 7 50 50 0)
  /\ 30 < 50
  /\ snd (onMessage
            (fst (onMessage (gameState Demo.twoPlayers) [Demo.ws1; Demo.ws2]
                            Demo.ws1 (fireballHit 102) Demo.env0))
            [Demo.ws1; Demo.ws2] Demo.ws2 (fireballHit 102) Demo.env0)
     = broadcast [Demo.ws1; Demo.ws2] (monsterDamaged 102 (50 - 30) 15) None.
Proof.
  split; [reflexivity|]. split; [reflexivity|]. split; [reflexivity|].
  split; [lia|].
  exact (proj1 (proj2 (two_fireball_hits_both_apply
                         (gameState Demo.twoPlayers) [Demo.ws1; Demo.ws2]
                         Demo.ws1 Demo.ws2 Demo.player1 Demo.player2 102
                         Demo.env0 Demo.env0 (Monster.mk 102 8 7 50 50 0)
                         eq_refl eq_refl eq_refl ltac:(cbn; lia)))).
Defined.

(** ** Moves *)

(** X18. An accepted move touches the sender's player only: the order and
    the keys of the player collection stay, every other key still maps to
    the same player, the mover keeps its id and health, and monsters,
    fireballs, map and id counter are unchanged. A rejected move, an unknown
    message type, and a damage message for an unknown monster id change
    nothing and send nothing. *)
Theorem move_affects_only_the_mover :
  forall (g : GameState) (clients : list WebSocket) (ws : WebSocket)
         (player : Player.t) (x y : Z) (env : Env),
    JsMap.get (players g) (playerId ws) = Some player ->
    let g' := fst (onMessage g clients ws (move x y) env) in
    (isValidMove (map g) x y = Ok true ->
       List.map fst (players g') = List.map fst (players g)
       /\ JsMap.get (players g') (playerId ws)
          = Some (Player.mk (Player.id player) x y
                            (Player.health player) (Player.maxHealth player))
       /\ (forall k, k <> playerId ws ->
             JsMap.get (players g') k = JsMap.get (players g) k)
       /\ monsters g' = monsters g /\ fireballs g' = fireballs g
       /\ map g' = map g /\ nextPlayerId g' = nextPlayerId g)
    /\ (isValidMove (map g) x y <> Ok true ->
        onMessage g clients ws (move x y) env = (g, []))
    /\ onMessage g clients ws unknownType env = (g, [])
    /\ (forall id message,
          findMonster (monsters g) id = None ->
          message = attack id \/ message = fireballHit id ->
          onMessage g clients ws message env = (g, [])).
Proof.
  intros g clients ws player x y env Hp g'. splits.
  - intros Hv. subst g'. unfold onMessage, handleClientMessage.
    rewrite Hp, Hv. cbn [bind fst players setPlayers monsters fireballs map
                         nextPlayerId].
    splits; auto.
    + apply keys_set_existing.
      destruct (in_dec Z.eq_dec (playerId ws) (List.map fst (players g)));
        [auto|]. apply get_None_keys in n. congruence.
    + apply get_set_same.
    + intros k Hk. now apply get_set_other.
  - intros Hv. unfold onMessage, handleClientMessage. rewrite Hp.
    destruct (isValidMove (map g) x y) as [[|]| |]; try reflexivity.
    congruence.
  - unfold onMessage, handleClientMessage. now rewrite Hp.
  - intros id message Hf Hm.
    destruct (damage_message_is_applyDamage g clients ws id env message Hm)
      as (d & _ & ->).
    unfold Spec.applyDamage. now rewrite Hp, Hf.
Qed.

Lemma move_affects_only_the_mover_witness :
  JsMap.get (players (gameState Demo.twoPlayers)) (playerId Demo.ws1)
    = Some Demo.player1
  /\ isValidMove (map (gameState Demo.twoPlayers)) 8 8 = Ok true
  /\ JsMap.get (players (fst (onMessage (gameState Demo.twoPlayers)
                                        [Demo.ws1; Demo.ws2] Demo.ws1
                                        (move 8 8) Demo.env0))) 2
     = JsMap.get (players (gameState Demo.twoPlayers)) 2.
Proof.
  split; [reflexivity|]. split; [reflexivity|].
  refine (proj1 (proj2 (proj2 (proj1
    (move_affects_only_the_mover (gameState Demo.twoPlayers)
       [Demo.ws1; Demo.ws2] Demo.ws1 Demo.player1 8 8 Demo.env0 eq_refl)
    eq_refl))) 2 _).
  discriminate.
Defined.

(** * Properties of the single-player client *)

(** X19. The client's [takeDamage] clamps: whatever the damage, the
    resulting health is never negative, position and maximal health are
    untouched, and the method reports a kill exactly when the damage is at
    least the health before. With a non-negative damage, health within
    [0 .. maxHealth] stays within it and does not rise. *)
Theorem takeDamage_never_negative :
  forall (this : Client.Entity) (damage : Z),
    let this' := fst (Client.takeDamage this damage) in
    let killed := snd (Client.takeDamage this damage) in
    0 <= Client.health this'
    /\ Client.x this' = Client.x this /\ Client.y this' = Client.y this
    /\ Client.maxHealth this' = Client.maxHealth this
    /\ (killed = true <-> Client.health this <= damage)
    /\ (killed = true <-> Client.health this' = 0)
    /\ (Client.health this <= damage \/
        Client.health this' = Client.health this - damage)
    /\ (0 <= damage -> 0 <= Client.health this <= Client.maxHealth this ->
        Client.health this' <= Client.health this
        /\ Client.health this' <= Client.maxHealth this').
Proof.
  intros this damage. unfold Client.takeDamage. cbn.
  rewrite Z.leb_le. splits; try lia.
Qed.

Lemma takeDamage_never_negative_witness :
  0 <= 30 /\ 0 <= 10 <= 100
  /\ Client.health (fst (Client.takeDamage (Client.mkEntity 7 7 10 100) 30))
     <= 10.
Proof.
  split; [lia|]. split; [lia|].
  exact (proj1 (proj2 (proj2 (proj2 (proj2 (proj2 (proj2 (proj2
    (takeDamage_never_negative (Client.mkEntity 7 7 10 100) 30)))))))
    ltac:(lia) ltac:(cbn; lia))).
Defined.

(** X20. The player's melee attack does nothing while the cooldown of
    500 ms runs, and nothing (not even starting the cooldown) when the
    monster is further than one cell away, diagonals included. Otherwise it
    starts the cooldown and takes between 8 and 12 health from the monster,
    which is removed from the game exactly when its health is used up. The
    player, the map and the running flag are never changed. *)
Theorem player_attack_contract :
  forall (g : SinglePlayer.Game) (this : Client.Entity)
         (target : SinglePlayer.Monster) (now e : Z),
    let g' := SinglePlayer.attack g this target now e in
    let hp := Client.health (SinglePlayer.entity target) in
    SinglePlayer.player g' = SinglePlayer.player g
    /\ SinglePlayer.gmap g' = SinglePlayer.gmap g
    /\ SinglePlayer.running g' = SinglePlayer.running g
    /\ (now - SinglePlayer.lastPlayerAttack g < 500 -> g' = g)
    /\ (2 < SinglePlayer.getDistance2 this (SinglePlayer.entity target) ->
        g' = g)
    /\ (500 <= now - SinglePlayer.lastPlayerAttack g ->
        SinglePlayer.getDistance2 this (SinglePlayer.entity target) <= 2 ->
        SinglePlayer.lastPlayerAttack g' = now
        /\ exists damage,
             8 <= damage <= 12
             /\ (hp <= damage -> SinglePlayer.monster g' = None)
             /\ (damage < hp ->
                 SinglePlayer.monster g'
                 = Some (SinglePlayer.mkMonster
                           (Client.mkEntity
                              (Client.x (SinglePlayer.entity target))
                              (Client.y (SinglePlayer.entity target))
                              (hp - damage)
                              (Client.maxHealth (SinglePlayer.entity target)))
                           (SinglePlayer.state target)))).
Proof.
  intros g this target now e g' hp. subst g'. unfold SinglePlayer.attack.
  unfold SinglePlayer.PLAYER_ATTACK_COOLDOWN, Client.takeDamage.
  destruct (Z.ltb_spec (now - SinglePlayer.lastPlayerAttack g) 500);
    [splits; auto; lia|].
  destruct (Z.leb_spec
              (SinglePlayer.getDistance2 this (SinglePlayer.entity target)) 2);
    [|splits; auto; lia].
  cbv zeta.
  assert (Hr : 0 <= randomInt (12 - 8 + 1) e < 5)
    by (apply randomInt_range; lia).
  cbn [fst snd Client.health Client.x Client.y Client.maxHealth]. fold hp.
  destruct (Z.leb_spec (Z.max 0 (hp - (randomInt (12 - 8 + 1) e + 8))) 0);
    cbn; splits; auto; try (intros; exfalso; lia); intros _ _;
    (split; [reflexivity|]);
    exists (randomInt (12 - 8 + 1) e + 8); splits; try lia;
    try reflexivity; try (intros; exfalso; lia).
  intros Hlt. f_equal. f_equal. f_equal.
  change (12 - 8 + 1) with 5 in *. lia.
Qed.

Lemma player_attack_contract_witness :
  500 <= 1000 - 0
  /\ SinglePlayer.getDistance2 (Client.mkEntity 7 7 100 100)
                               (Client.mkEntity 8 8 50 50) <= 2
  /\ SinglePlayer.lastPlayerAttack
       (SinglePlayer.attack
          (SinglePlayer.mkGame Demo.gmap (Some (Client.mkEntity 7 7 100 100))
             (Some (SinglePlayer.mkMonster (Client.mkEntity 8 8 50 50)
                                           SinglePlayer.hunting))
             0 0 0 true)
          (Client.mkEntity 7 7 100 100)
          (SinglePlayer.mkMonster (Client.mkEntity 8 8 50 50)
                                  SinglePlayer.hunting)
          1000 3)
     = 1000.
Proof.
  assert (H1 : 500 <= 1000 - 0) by lia.
  assert (H2 : SinglePlayer.getDistance2 (Client.mkEntity 7 7 100 100)
                                         (Client.mkEntity 8 8 50 50) <= 2)
    by (cbn; lia).
  split; [exact H1|]. split; [exact H2|].
  exact (proj1 (proj2 (proj2 (proj2 (proj2 (proj2
    (player_attack_contract
       (SinglePlayer.mkGame Demo.gmap (Some (Client.mkEntity 7 7 100 100))
          (Some (SinglePlayer.mkMonster (Client.mkEntity 8 8 50 50)
                                        SinglePlayer.hunting))
          0 0 0 true)
       (Client.mkEntity 7 7 100 100)
       (SinglePlayer.mkMonster (Client.mkEntity 8 8 50 50)
                               SinglePlayer.hunting)
       1000 3))))) H1 H2)).
Defined.

(** ** The client's monster *)

Lemma direction_components dx dy :
  let mx := fst (direction dx dy) in
  let my := snd (direction dx dy) in
  -1 <= mx <= 1 /\ -1 <= my <= 1
  /\ (mx = 0 \/ (dx - mx) * (dx - mx) < dx * dx)
  /\ (my = 0 \/ (dy - my) * (dy - my) < dy * dy).
Proof.
  unfold direction, toward.
  rewrite !Z.gtb_ltb.
  destruct (Z.ltb_spec (Z.abs dy) (Z.abs dx));
    [|destruct (Z.ltb_spec (Z.abs dx) (Z.abs dy));
      [|destruct (Z.eqb_spec dx 0)]];
    repeat match goal with |- context [0 <? ?a] => destruct (Z.ltb_spec 0 a) end;
    cbn [fst snd negb]; splits; try lia; auto; right; nia.
Qed.

(** A candidate step is the current cell or strictly closer to the target. *)
Lemma candidate_closer fx fy tx ty mx my :
  -1 <= mx <= 1 -> -1 <= my <= 1 ->
  (mx = 0 \/ (tx - fx - mx) * (tx - fx - mx) < (tx - fx) * (tx - fx)) ->
  (my = 0 \/ (ty - fy - my) * (ty - fy - my) < (ty - fy) * (ty - fy)) ->
  (fx + mx, fy + my) = (fx, fy)
  \/ distance2 tx ty (fx + mx) (fy + my) < distance2 tx ty fx fy.
Proof.
  intros Hx Hy Hcx Hcy. unfold distance2.
  replace (tx - (fx + mx)) with (tx - fx - mx) by lia.
  replace (ty - (fy + my)) with (ty - fy - my) by lia.
  destruct Hcx as [->|Hcx], Hcy as [->|Hcy].
  - left. now rewrite !Z.add_0_r.
  - right. rewrite Z.sub_0_r. lia.
  - right. rewrite Z.sub_0_r. lia.
  - right. lia.
Qed.

(** The result of [moveTowardsPlayer] on a well-formed map. *)
Lemma moveTowardsPlayer_cases gmap player this :
  wellFormed gmap = true ->
  exists this',
    Client.moveTowardsPlayer gmap player this = Ok this'
    /\ Client.health this' = Client.health this
    /\ Client.maxHealth this' = Client.maxHealth this
    /\ ((Client.x this', Client.y this') = (Client.x this, Client.y this)
        \/ onWalkable gmap this'
           /\ Z.abs (Client.x this' - Client.x this) <= 1
           /\ Z.abs (Client.y this' - Client.y this) <= 1
           /\ SinglePlayer.getDistance2 player this'
              < SinglePlayer.getDistance2 player this).
Proof.
  intros Hwf.
  destruct (client_moveTowardsPlayer_is_stepToward gmap player this Hwf)
    as (this' & Hr & Hpos & Hh & Hm).
  exists this'. splits; auto.
  unfold Spec.stepToward, Spec.candidates in Hpos.
  pose proof (direction_components (Client.x player - Client.x this)
                                   (Client.y player - Client.y this)) as Hd.
  destruct (direction _ _) as [mx my]. cbn [fst snd] in Hd.
  destruct Hd as (Hx & Hy & Hcx & Hcy).
  unfold onWalkable, SinglePlayer.getDistance2.
  cbn [find fst snd] in Hpos.
  assert (Hc : forall ax ay,
             -1 <= ax <= 1 -> -1 <= ay <= 1 ->
             (ax = 0 \/ (Client.x player - Client.x this - ax)
                        * (Client.x player - Client.x this - ax)
                        < (Client.x player - Client.x this)
                          * (Client.x player - Client.x this)) ->
             (ay = 0 \/ (Client.y player - Client.y this - ay)
                        * (Client.y player - Client.y this - ay)
                        < (Client.y player - Client.y this)
                          * (Client.y player - Client.y this)) ->
             inBounds (Client.x this + ax) (Client.y this + ay)
             && walkableAt gmap (Client.x this + ax) (Client.y this + ay) = true ->
             (Client.x this', Client.y this')
             = (Client.x this + ax, Client.y this + ay) ->
             (Client.x this', Client.y this') = (Client.x this, Client.y this)
             \/ inBounds (Client.x this') (Client.y this')
                && walkableAt gmap (Client.x this') (Client.y this') = true
                /\ Z.abs (Client.x this' - Client.x this) <= 1
                /\ Z.abs (Client.y this' - Client.y this) <= 1
                /\ distance2 (Client.x player) (Client.y player)
                             (Client.x this') (Client.y this')
                   < distance2 (Client.x player) (Client.y player)
                               (Client.x this) (Client.y this)).
  { intros ax ay Hax Hay Hcax Hcay Hv He. inversion He as [[Hex Hey]].
    destruct (candidate_closer (Client.x this) (Client.y this)
                (Client.x player) (Client.y player) ax ay Hax Hay Hcax Hcay)
      as [Hs|Hlt].
    - left. rewrite Hex, Hey. exact Hs.
    - right. rewrite Hex, Hey. splits; auto; lia. }
  destruct (inBounds (Client.x this + mx) (Client.y this + my)
            && walkableAt gmap (Client.x this + mx) (Client.y this + my))
    eqn:E1.
  { apply (Hc mx my); auto. }
  destruct (inBounds (Client.x this + mx) (Client.y this)
            && walkableAt gmap (Client.x this + mx) (Client.y this))
    eqn:E2.
  { apply (Hc mx 0); auto; try lia; rewrite ?Z.add_0_r; auto. }
  destruct (inBounds (Client.x this) (Client.y this + my)
            && walkableAt gmap (Client.x this) (Client.y this + my))
    eqn:E3.
  { apply (Hc 0 my); auto; try lia; rewrite ?Z.add_0_r; auto. }
  left. exact Hpos.
Qed.

(** X22. On a well-formed map the client's [moveTowardsPlayer] always
    returns and keeps the monster's health. The monster either stays on its
    cell, or ends one king-move away on a cell that is in bounds, walkable
    and strictly closer to the player. It stays only when it is blocked:
    if it has not moved although the player is elsewhere, the greedy step is
    not a valid move, and when that step was diagonal neither are the
    horizontal-only and the vertical-only steps. *)
Theorem client_monster_moves_closer_or_is_blocked :
  forall (gmap : GameMap) (player this : Client.Entity),
    wellFormed gmap = true ->
    exists this',
      Client.moveTowardsPlayer gmap player this = Ok this'
      /\ Client.health this' = Client.health this
      /\ Client.maxHealth this' = Client.maxHealth this
      /\ ((Client.x this', Client.y this') = (Client.x this, Client.y this)
          \/ onWalkable gmap this'
             /\ Z.abs (Client.x this' - Client.x this) <= 1
             /\ Z.abs (Client.y this' - Client.y this) <= 1
             /\ SinglePlayer.getDistance2 player this'
                < SinglePlayer.getDistance2 player this)
      /\ let mx := fst (direction (Client.x player - Client.x this)
                                  (Client.y player - Client.y this)) in
         let my := snd (direction (Client.x player - Client.x this)
                                  (Client.y player - Client.y this)) in
         ((Client.x this', Client.y this') = (Client.x this, Client.y this) ->
          (mx, my) <> (0, 0) ->
          Client.canMoveTo gmap (Client.x this + mx) (Client.y this + my)
            = Ok false
          /\ (mx <> 0 -> my <> 0 ->
              Client.canMoveTo gmap (Client.x this + mx) (Client.y this)
                = Ok false
              /\ Client.canMoveTo gmap (Client.x this) (Client.y this + my)
                 = Ok false)).
Proof.
  intros gmap player this Hwf.
  destruct (moveTowardsPlayer_cases gmap player this Hwf)
    as (this' & Hr & Hh & Hm & Hcases).
  exists this'. splits; auto.
  destruct (client_moveTowardsPlayer_is_stepToward gmap player this Hwf)
    as (this2 & Hr2 & Hpos & _).
  rewrite Hr in Hr2. inversion Hr2; subst this2. clear Hr2.
  unfold Spec.stepToward, Spec.candidates in Hpos.
  destruct (direction _ _) as [mx my]. cbn [fst snd find] in *.
  intros Hstay Hne. rewrite !canMoveTo_wellFormed by exact Hwf.
  rewrite Hstay in Hpos.
  destruct (inBounds (Client.x this + mx) (Client.y this + my)
            && walkableAt gmap (Client.x this + mx) (Client.y this + my)).
  { exfalso. apply Hne. inversion Hpos. f_equal; lia. }
  split; [reflexivity|]. intros Hmx Hmy.
  destruct (inBounds (Client.x this + mx) (Client.y this)
            && walkableAt gmap (Client.x this + mx) (Client.y this)).
  { exfalso. inversion Hpos. lia. }
  split; [reflexivity|].
  destruct (inBounds (Client.x this) (Client.y this + my)
            && walkableAt gmap (Client.x this) (Client.y this + my)).
  { exfalso. inversion Hpos. lia. }
  reflexivity.
Qed.

Lemma client_monster_moves_closer_or_is_blocked_witness :
  wellFormed Demo.gmap = true
  /\ exists this',
       Client.moveTowardsPlayer Demo.gmap (Client.mkEntity 7 7 100 100)
                                (Client.mkEntity 5 5 50 50) = Ok this'
       /\ Client.health this' = 50.
Proof.
  split; [reflexivity|].
  destruct (client_monster_moves_closer_or_is_blocked
              Demo.gmap (Client.mkEntity 7 7 100 100)
              (Client.mkEntity 5 5 50 50) eq_refl)
    as (this' & H1 & H2 & _).
  exists this'. split; [exact H1 | exact H2].
Defined.

(** X21. The client's monster has two states. Within one cell of the player
    (diagonals included) it is [attacking]: it never moves, and it hits only
    when 1500 ms have passed since its last hit, then taking between 5 and
    10 health from the player, clamped at 0, and ending the game exactly
    when the player's health is used up. Further away it is [hunting]: it
    never hurts the player, and it takes one [moveTowardsPlayer] step only
    when 500 ms have passed since its last step. *)
Theorem client_monster_update_contract :
  forall (g : SinglePlayer.Game) (this : SinglePlayer.Monster) (now e : Z)
         (p : Client.Entity),
    SinglePlayer.player g = Some p ->
    wellFormed (SinglePlayer.gmap g) = true ->
    exists g',
      SinglePlayer.update g this now e = Ok g'
      /\ SinglePlayer.gmap g' = SinglePlayer.gmap g
      /\ SinglePlayer.lastPlayerAttack g' = SinglePlayer.lastPlayerAttack g
      /\ (SinglePlayer.getDistance2 (SinglePlayer.entity this) p <= 2 ->
          SinglePlayer.monster g'
            = Some (SinglePlayer.mkMonster (SinglePlayer.entity this)
                                           SinglePlayer.attacking)
          /\ SinglePlayer.lastMonsterMove g' = SinglePlayer.lastMonsterMove g
          /\ (now - SinglePlayer.lastMonsterAttack g < 1500 ->
              SinglePlayer.player g' = Some p
              /\ SinglePlayer.running g' = SinglePlayer.running g
              /\ SinglePlayer.lastMonsterAttack g'
                 = SinglePlayer.lastMonsterAttack g)
          /\ (1500 <= now - SinglePlayer.lastMonsterAttack g ->
              SinglePlayer.lastMonsterAttack g' = now
              /\ exists damage,
                   5 <= damage <= 10
                   /\ SinglePlayer.player g'
                      = Some (Client.mkEntity (Client.x p) (Client.y p)
                                (Z.max 0 (Client.health p - damage))
                                (Client.maxHealth p))
                   /\ SinglePlayer.running g'
                      = if Client.health p <=? damage then false
                        else SinglePlayer.running g))
      /\ (2 < SinglePlayer.getDistance2 (SinglePlayer.entity this) p ->
          SinglePlayer.player g' = Some p
          /\ SinglePlayer.running g' = SinglePlayer.running g
          /\ SinglePlayer.lastMonsterAttack g'
             = SinglePlayer.lastMonsterAttack g
          /\ (now - SinglePlayer.lastMonsterMove g < 500 ->
              SinglePlayer.monster g'
                = Some (SinglePlayer.mkMonster (SinglePlayer.entity this)
                                               SinglePlayer.hunting)
              /\ SinglePlayer.lastMonsterMove g'
                 = SinglePlayer.lastMonsterMove g)
          /\ (500 <= now - SinglePlayer.lastMonsterMove g ->
              SinglePlayer.lastMonsterMove g' = now
              /\ exists moved,
                   Client.moveTowardsPlayer (SinglePlayer.gmap g) p
                                            (SinglePlayer.entity this)
                     = Ok moved
                   /\ SinglePlayer.monster g'
                      = Some (SinglePlayer.mkMonster moved
                                                     SinglePlayer.hunting))).
Proof.
  intros g this now e p Hp Hwf. unfold SinglePlayer.update.
  rewrite Hp. cbv zeta.
  unfold SinglePlayer.MONSTER_ATTACK_INTERVAL, SinglePlayer.MONSTER_MOVE_INTERVAL.
  rewrite !Z.geb_leb.
  destruct (Z.leb_spec
              (SinglePlayer.getDistance2 (SinglePlayer.entity this) p) 2)
    as [Hnear|Hfar].
  - eexists. split; [reflexivity|].
    destruct (Z.leb_spec 1500 (now - SinglePlayer.lastMonsterAttack g))
      as [Hdue|Hwait].
    + unfold SinglePlayer.attackPlayer, Client.takeDamage.
      cbn [fst snd Client.health Client.x Client.y Client.maxHealth].
      assert (Hr : 0 <= randomInt (10 - 5 + 1) e < 6)
        by (apply randomInt_range; lia).
      assert (Hk : (Z.max 0 (Client.health p - (randomInt (10 - 5 + 1) e + 5))
                    <=? 0)
                   = (Client.health p <=? randomInt (10 - 5 + 1) e + 5)).
      { destruct (Z.leb_spec (Client.health p) (randomInt (10 - 5 + 1) e + 5));
          [apply Z.leb_le | apply Z.leb_gt]; lia. }
      rewrite Hk.
      destruct (Client.health p <=? randomInt (10 - 5 + 1) e + 5) eqn:Ek;
        cbn; splits; auto; try (intros; exfalso; lia); intros _;
        splits; auto; try (intros; exfalso; lia); intros _;
        (split; [reflexivity|]);
        exists (randomInt (10 - 5 + 1) e + 5); rewrite Ek;
        splits; auto; lia.
    + cbn. splits; auto; try (intros; exfalso; lia); intros _.
      splits; auto; try (intros; exfalso; lia).
  - destruct (Z.leb_spec 500 (now - SinglePlayer.lastMonsterMove g))
      as [Hdue|Hwait].
    + cbn [SinglePlayer.entity SinglePlayer.state].
      destruct (moveTowardsPlayer_cases (SinglePlayer.gmap g) p
                  (SinglePlayer.entity this) Hwf) as (moved & Hm & _).
      rewrite Hm. cbn [bind]. eexists. split; [reflexivity|].
      cbn. splits; auto; try (intros; exfalso; lia); intros _.
      splits; auto; try (intros; exfalso; lia); intros _.
      split; [reflexivity|]. exists moved. auto.
    + eexists. split; [reflexivity|].
      cbn. splits; auto; try (intros; exfalso; lia); intros _.
      splits; auto; try (intros; exfalso; lia).
Qed.

Lemma client_monster_update_contract_witness :
  wellFormed Demo.gmap = true
  /\ exists g',
       SinglePlayer.update
         (SinglePlayer.mkGame Demo.gmap (Some (Client.mkEntity 7 7 100 100))
            (Some (SinglePlayer.mkMonster (Client.mkEntity 5 5 50 50)
                                          SinglePlayer.hunting))
            0 0 0 true)
         (SinglePlayer.mkMonster (Client.mkEntity 5 5 50 50)
                                 SinglePlayer.hunting)
         1000 0
       = Ok g'
       /\ SinglePlayer.gmap g' = Demo.gmap.
Proof.
  split; [reflexivity|].
  destruct (client_monster_update_contract
              (SinglePlayer.mkGame Demo.gmap
                 (Some (Client.mkEntity 7 7 100 100))
                 (Some (SinglePlayer.mkMonster (Client.mkEntity 5 5 50 50)
                                               SinglePlayer.hunting))
                 0 0 0 true)
              (SinglePlayer.mkMonster (Client.mkEntity 5 5 50 50)
                                      SinglePlayer.hunting)
              1000 0 (Client.mkEntity 7 7 100 100) eq_refl eq_refl)
    as (g' & H1 & H2 & _).
  exists g'. split; [exact H1 | exact H2].
Defined.

(** ** The single-player game keeps its invariant *)

Lemma attack_ok g this target now e :
  singlePlayerOk g ->
  SinglePlayer.monster g = Some target ->
  singlePlayerOk (SinglePlayer.attack g this target now e).
Proof.
  intros Hok Ht. pose proof Hok as (Hwf & Hp & Hm).
  unfold SinglePlayer.attack.
  destruct (now - SinglePlayer.lastPlayerAttack g
            <? SinglePlayer.PLAYER_ATTACK_COOLDOWN); [exact Hok|].
  cbv zeta.
  destruct (SinglePlayer.getDistance2 this (SinglePlayer.entity target) <=? 2);
    [|exact Hok].
  unfold Client.takeDamage.
  cbn [fst snd Client.health Client.x Client.y Client.maxHealth].
  change (12 - 8 + 1) with 5.
  assert (Hr : 0 <= randomInt 5 e < 5) by (apply randomInt_range; lia).
  destruct (Hm _ Ht) as (Hw & Hh).
  destruct (Z.leb_spec
              (Z.max 0 (Client.health (SinglePlayer.entity target)
                        - (randomInt 5 e + 8))) 0) as [Hk|Hk].
  - split; [exact Hwf|]. split; [exact Hp|]. intros m Hm'. discriminate Hm'.
  - split; [exact Hwf|]. split; [exact Hp|]. cbn. intros m [= <-]. cbn.
    split; [exact Hw | lia].
Qed.

Lemma update_ok g this now e :
  singlePlayerOk g ->
  SinglePlayer.monster g = Some this ->
  exists g', SinglePlayer.update g this now e = Ok g' /\ singlePlayerOk g'.
Proof.
  intros (Hwf & Hp & Hm) Ht. unfold SinglePlayer.update.
  destruct (SinglePlayer.player g) as [p|] eqn:Ep;
    [|eexists; split; [reflexivity|]; split; [exact Hwf|]; split;
      [intros p' Hp'; congruence | exact Hm]].
  destruct (Hp p eq_refl) as (Hpw & Hph & Hp0).
  destruct (Hm _ Ht) as (Hmw & Hmh).
  cbv zeta.
  destruct (SinglePlayer.getDistance2 (SinglePlayer.entity this) p <=? 2).
  - eexists. split; [reflexivity|].
    destruct (now - SinglePlayer.lastMonsterAttack g
              >=? SinglePlayer.MONSTER_ATTACK_INTERVAL).
    + unfold SinglePlayer.attackPlayer, Client.takeDamage.
      cbn [fst snd Client.health Client.x Client.y Client.maxHealth].
      change (10 - 5 + 1) with 6.
      assert (Hr : 0 <= randomInt 6 e < 6) by (apply randomInt_range; lia).
      destruct (Z.leb_spec
                  (Z.max 0 (Client.health p - (randomInt 6 e + 5)))
                  0) as [Hk|Hk]; cbn.
      * split; [exact Hwf|]. split.
        -- intros p' [= <-]. cbn. split; [exact Hpw|]. split; [lia | auto].
        -- intros m [= <-]. cbn. auto.
      * split; [exact Hwf|]. split.
        -- intros p' [= <-]. cbn. split; [exact Hpw|]. split; [lia|].
           intros H0. exfalso. lia.
        -- intros m [= <-]. cbn. auto.
    + cbn. split; [exact Hwf|]. split.
      * intros p' Hp'. cbn in Hp'. rewrite ?Ep in Hp'.
        inversion Hp'; subst. auto.
      * intros m [= <-]. cbn. auto.
  - destruct (now - SinglePlayer.lastMonsterMove g
              >=? SinglePlayer.MONSTER_MOVE_INTERVAL).
    + cbn [SinglePlayer.entity SinglePlayer.state].
      destruct (moveTowardsPlayer_cases (SinglePlayer.gmap g) p
                  (SinglePlayer.entity this) Hwf)
        as (moved & Hmv & Hh & Hmax & Hcases).
      rewrite Hmv. cbn [bind]. eexists. split; [reflexivity|]. cbn.
      split; [exact Hwf|]. split.
      * intros p' Hp'. cbn in Hp'. rewrite ?Ep in Hp'.
        inversion Hp'; subst. auto.
      * intros m [= <-]. cbn. split; [|lia].
        destruct Hcases as [Hsame|(Hw & _)]; [|exact Hw].
        unfold onWalkable in *. inversion Hsame as [[Hx Hy]].
        now rewrite Hx, Hy.
    + eexists. split; [reflexivity|]. cbn.
      split; [exact Hwf|]. split.
      * intros p' Hp'. cbn in Hp'. rewrite ?Ep in Hp'.
        inversion Hp'; subst. auto.
      * intros m [= <-]. cbn. auto.
Qed.

(** X23. The single-player game keeps its state valid. If the map is
    well-formed, both entities stand on walkable tiles, the player's health
    is within [0 .. maxHealth] (zero only when the game is over) and the
    stored monster is alive, then every key press and every monster turn
    returns a game in which all of this still holds; and once the game is
    over neither the keyboard nor the monster changes anything. *)
Theorem single_player_game_stays_valid :
  forall g : SinglePlayer.Game,
    singlePlayerOk g ->
    (forall key now e,
        exists g', SinglePlayer.keydown g key now e = Ok g'
                   /\ singlePlayerOk g')
    /\ (forall now e,
          exists g', monsterFrame g now e = Ok g' /\ singlePlayerOk g')
    /\ (SinglePlayer.running g = false ->
        forall key now e,
          SinglePlayer.keydown g key now e = Ok g
          /\ monsterFrame g now e = Ok g).
Proof.
  intros g Hok. pose proof Hok as (Hwf & Hp & Hm). splits.
  - intros key now e. unfold SinglePlayer.keydown.
    destruct (SinglePlayer.running g) eqn:Er; [|eauto].
    destruct (SinglePlayer.player g) as [p|] eqn:Ep; [|eauto].
    destruct (Hp p eq_refl) as (Hpw & Hph & Hp0).
    assert (Hmove : forall x y,
               exists g',
                 ('(p', _) <- Client.moveTo (SinglePlayer.gmap g) p x y ;;
                  Ok (SinglePlayer.setPlayer g (Some p'))) = Ok g'
                 /\ singlePlayerOk g').
    { intros x y. unfold Client.moveTo.
      rewrite canMoveTo_wellFormed by exact Hwf. cbn [bind].
      destruct (inBounds x y && walkableAt (SinglePlayer.gmap g) x y) eqn:Ev;
        cbn [bind]; eexists; (split; [reflexivity|]);
        (split; [exact Hwf|]); cbn; (split; [|exact Hm]);
        intros p' [= <-]; cbn; rewrite ?Er; auto. }
    destruct key; try apply Hmove; try (eexists; split; [reflexivity|exact Hok]).
    destruct (SinglePlayer.monster g) as [m|] eqn:Em;
      [|eexists; split; [reflexivity|exact Hok]].
    eexists. split; [reflexivity|]. now apply attack_ok.
  - intros now e. unfold monsterFrame.
    destruct (SinglePlayer.running g); [|eauto].
    destruct (SinglePlayer.monster g) as [m|] eqn:Em; [|eauto].
    now apply update_ok.
  - intros Er key now e. unfold SinglePlayer.keydown, monsterFrame.
    rewrite Er. auto.
Qed.

Lemma single_player_game_stays_valid_witness :
  singlePlayerOk
    (SinglePlayer.mkGame Demo.gmap (Some (Client.mkEntity 7 7 100 100))
       (Some (SinglePlayer.mkMonster (Client.mkEntity 5 5 50 50)
                                     SinglePlayer.hunting))
       0 0 0 true)
  /\ exists g',
       SinglePlayer.keydown
         (SinglePlayer.mkGame Demo.gmap (Some (Client.mkEntity 7 7 100 100))
            (Some (SinglePlayer.mkMonster (Client.mkEntity 5 5 50 50)
                                          SinglePlayer.hunting))
            0 0 0 true)
         SinglePlayer.KeyW 10 0 = Ok g'
       /\ singlePlayerOk g'.
Proof.
  assert (H : singlePlayerOk
                (SinglePlayer.mkGame Demo.gmap
                   (Some (Client.mkEntity 7 7 100 100))
                   (Some (SinglePlayer.mkMonster (Client.mkEntity 5 5 50 50)
                                                 SinglePlayer.hunting))
                   0 0 0 true)).
  { split; [reflexivity|]. split.
    - intros p [= <-]. split; [reflexivity|]. cbn. split; [lia|].
      intros H0. discriminate H0.
    - intros m [= <-]. split; [reflexivity|]. cbn. lia. }
  split; [exact H|].
  exact (proj1 (single_player_game_stays_valid _ H) SinglePlayer.KeyW 10 0).
Defined.

(** * Properties of the multiplayer client *)

(** ** The view of the server state commutes with the map operations *)

Lemma viewPlayers_set ps k p :
  viewPlayers (JsMap.set ps k p)
  = JsMap.set (viewPlayers ps) k
      (Multiplayer.mkEntity (Player.id p) (Player.x p) (Player.y p)
                            (Player.health p) 100).
Proof.
  unfold viewPlayers.
  induction ps as [|[k0 p0] ps IH]; cbn; [reflexivity|].
  destruct (k0 =? k); cbn; [reflexivity | now rewrite IH].
Qed.

Lemma viewPlayers_delete ps k :
  viewPlayers (JsMap.delete ps k) = JsMap.delete (viewPlayers ps) k.
Proof.
  unfold JsMap.delete, viewPlayers.
  induction ps as [|[k0 p0] ps IH]; cbn; [reflexivity|].
  destruct (k0 =? k); cbn; now rewrite IH.
Qed.

Lemma viewPlayers_get ps k :
  JsMap.get (viewPlayers ps) k
  = option_map
      (fun p => Multiplayer.mkEntity (Player.id p) (Player.x p) (Player.y p)
                                     (Player.health p) 100)
      (JsMap.get ps k).
Proof.
  unfold viewPlayers.
  induction ps as [|[k0 p0] ps IH]; cbn; [reflexivity|].
  destruct (k0 =? k); [reflexivity | exact IH].
Qed.

Lemma delete_absent {V} (m : JsMap.t V) k :
  JsMap.get m k = None -> JsMap.delete m k = m.
Proof.
  unfold JsMap.delete. induction m as [|[k0 v0] m IH]; cbn; [reflexivity|].
  destruct (k0 =? k); [discriminate|]. cbn. intros H. now rewrite IH.
Qed.

Lemma viewMonsters_delete ms id :
  JsMap.delete (viewMonsters ms) id
  = viewMonsters (filter (fun m => negb (Monster.id m =? id)) ms).
Proof.
  unfold JsMap.delete, viewMonsters.
  induction ms as [|m ms IH]; cbn; [reflexivity|].
  destruct (Monster.id m =? id); cbn; now rewrite IH.
Qed.

Lemma viewMonsters_keys ms :
  List.map fst (viewMonsters ms) = List.map Monster.id ms.
Proof. unfold viewMonsters. rewrite map_map. reflexivity. Qed.

Lemma viewMonsters_app ms1 ms2 :
  viewMonsters (ms1 ++ ms2) = viewMonsters ms1 ++ viewMonsters ms2.
Proof. unfold viewMonsters. apply map_app. Qed.

Lemma get_zipper {V} (l : JsMap.t V) k v rest :
  ~ In k (List.map fst l) -> JsMap.get (l ++ (k, v) :: rest) k = Some v.
Proof.
  induction l as [|[k0 v0] l IH]; cbn; intros H.
  - now rewrite Z.eqb_refl.
  - destruct (Z.eqb_spec k0 k); [exfalso; auto|]. apply IH. tauto.
Qed.

Lemma set_zipper {V} (l : JsMap.t V) k v v' rest :
  ~ In k (List.map fst l) ->
  JsMap.set (l ++ (k, v) :: rest) k v' = l ++ (k, v') :: rest.
Proof.
  induction l as [|[k0 v0] l IH]; cbn; intros H.
  - now rewrite Z.eqb_refl.
  - destruct (Z.eqb_spec k0 k); [exfalso; auto|]. rewrite IH; tauto.
Qed.

(** Updating the entry of the key of the monster that follows [done], none
    of which has that key. *)
Lemma update_zipper done m rest f m' :
  ~ In (Monster.id m) (List.map Monster.id done) ->
  Monster.id m' = Monster.id m ->
  f (Multiplayer.mkEntity (Monster.id m) (Monster.x m) (Monster.y m)
                          (Monster.health m) 50)
  = Multiplayer.mkEntity (Monster.id m') (Monster.x m') (Monster.y m')
                         (Monster.health m') 50 ->
  Multiplayer.update (viewMonsters (done ++ m :: rest)) (Monster.id m) f
  = viewMonsters (done ++ m' :: rest).
Proof.
  intros Hnotin Hid Hf. unfold Multiplayer.update.
  rewrite !viewMonsters_app.
  change (viewMonsters (m :: rest))
    with ((Monster.id m,
           Multiplayer.mkEntity (Monster.id m) (Monster.x m) (Monster.y m)
                                (Monster.health m) 50) :: viewMonsters rest).
  change (viewMonsters (m' :: rest))
    with ((Monster.id m',
           Multiplayer.mkEntity (Monster.id m') (Monster.x m') (Monster.y m')
                                (Monster.health m') 50) :: viewMonsters rest).
  rewrite <- viewMonsters_keys in Hnotin.
  rewrite get_zipper by exact Hnotin.
  rewrite set_zipper by exact Hnotin.
  now rewrite Hf, Hid.
Qed.

Lemma update_found ms id f f' :
  (forall m, Monster.id (f' m) = Monster.id m) ->
  (forall m,
      f (Multiplayer.mkEntity (Monster.id m) (Monster.x m) (Monster.y m)
                              (Monster.health m) 50)
      = Multiplayer.mkEntity (Monster.id (f' m)) (Monster.x (f' m))
                             (Monster.y (f' m)) (Monster.health (f' m)) 50) ->
  Multiplayer.update (viewMonsters ms) id f
  = viewMonsters (updateFound ms id f').
Proof.
  intros Hid Hf. unfold Multiplayer.update.
  induction ms as [|m ms IH]; [reflexivity|].
  change (viewMonsters (m :: ms))
    with ((Monster.id m,
           Multiplayer.mkEntity (Monster.id m) (Monster.x m) (Monster.y m)
                                (Monster.health m) 50) :: viewMonsters ms).
  cbn [JsMap.get updateFound].
  destruct (Z.eqb_spec (Monster.id m) id) as [He|Hne].
  - subst id. cbn [JsMap.set]. rewrite Z.eqb_refl.
    unfold viewMonsters. cbn [List.map]. rewrite Hf, Hid. reflexivity.
  - destruct (JsMap.get (viewMonsters ms) id) as [a|] eqn:Eg.
    + cbn [JsMap.set]. destruct (Z.eqb_spec (Monster.id m) id);
        [contradiction|]. unfold viewMonsters in *. cbn [List.map].
      rewrite IH. reflexivity.
    + unfold viewMonsters in *. cbn [List.map]. rewrite <- IH. reflexivity.
Qed.

Lemma NoDup_get {V} (m : JsMap.t V) k v :
  NoDup (List.map fst m) -> In (k, v) m -> JsMap.get m k = Some v.
Proof.
  induction m as [|[k0 v0] m IH]; cbn; [tauto|].
  intros Hnd Hin. inversion Hnd as [|? ? Hnotin Hnd']; subst.
  destruct Hin as [Hin|Hin].
  - inversion Hin; subst. now rewrite Z.eqb_refl.
  - destruct (Z.eqb_spec k0 k) as [->|Hne]; [|auto].
    exfalso. apply Hnotin. eapply In_get_keys; eauto.
Qed.

(** ** What a session receives from a broadcast *)

Lemma messagesTo_app s effs1 effs2 :
  messagesTo s (effs1 ++ effs2) = messagesTo s effs1 ++ messagesTo s effs2.
Proof. unfold messagesTo. apply flat_map_app. Qed.

Lemma messagesTo_sends s (message : ServerMsg) (l : list WebSocket) :
  messagesTo s (List.map (fun c => Send (sock c) message) l)
  = flat_map (fun c => if Nat.eqb (sock c) s then [message] else []) l.
Proof.
  unfold messagesTo. induction l as [|c l IH]; cbn; [reflexivity|].
  now rewrite IH.
Qed.

Lemma once_among_distinct s (message : ServerMsg) (l : list WebSocket) ws :
  NoDup (List.map sock l) -> In ws l -> sock ws = s ->
  flat_map (fun c => if Nat.eqb (sock c) s then [message] else []) l
  = [message].
Proof.
  induction l as [|c l IH]; cbn; [tauto|].
  intros Hnd Hin Hs. inversion Hnd as [|? ? Hnotin Hnd']; subst.
  destruct Hin as [->|Hin].
  - rewrite Nat.eqb_refl. cbn. f_equal.
    clear IH Hnd. induction l as [|d l IHl]; cbn; [reflexivity|].
    cbn in Hnotin. destruct (Nat.eqb_spec (sock d) (sock ws)) as [He|Hne].
    + exfalso. apply Hnotin. left. exact He.
    + apply IHl. tauto. now inversion Hnd'.
  - destruct (Nat.eqb_spec (sock c) (sock ws)) as [He|Hne].
    + exfalso. apply Hnotin. rewrite He. now apply in_map.
    + cbn. apply IH; auto.
Qed.

Lemma never_among_others s (message : ServerMsg) (l : list WebSocket) :
  ~ In s (List.map sock l) ->
  flat_map (fun c => if Nat.eqb (sock c) s then [message] else []) l = [].
Proof.
  induction l as [|c l IH]; cbn; [reflexivity|].
  intros H. destruct (Nat.eqb_spec (sock c) s); [exfalso; auto|].
  apply IH. tauto.
Qed.

Lemma NoDup_map_filter {A B} (f : A -> B) (p : A -> bool) (l : list A) :
  NoDup (List.map f l) -> NoDup (List.map f (filter p l)).
Proof.
  induction l as [|a l IH]; cbn; [constructor|].
  intros Hnd. inversion Hnd as [|? ? Hnotin Hnd']; subst.
  destruct (p a); cbn; [|auto].
  constructor; [|auto]. intros Hin. apply Hnotin.
  apply in_map_iff in Hin. destruct Hin as (b & Hb & Hin).
  apply filter_In in Hin. rewrite <- Hb. apply in_map. tauto.
Qed.

(** An open session with a socket of its own receives a broadcast exactly
    once, unless it is the excluded one. *)
Lemma messagesTo_broadcast s clients message excl :
  NoDup (List.map sock clients) ->
  (exists ws, In ws clients /\ sock ws = s /\ readyState ws = OPEN) ->
  excl <> Some s ->
  messagesTo s (broadcast clients message excl) = [message].
Proof.
  intros Hnd (ws & Hin & Hs & Ho) Hx.
  rewrite broadcast_as_map, messagesTo_sends.
  apply (once_among_distinct _ _ _ ws); auto.
  - now apply NoDup_map_filter.
  - apply filter_In. split; [exact Hin|]. rewrite Ho. cbn.
    rewrite andb_true_r. destruct excl as [e|]; [|reflexivity]. cbn.
    destruct (Nat.eqb_spec (sock ws) e); [|reflexivity]. congruence.
Qed.

Lemma messagesTo_broadcast_excluded s clients message :
  messagesTo s (broadcast clients message (Some s)) = [].
Proof.
  rewrite broadcast_as_map, messagesTo_sends.
  induction clients as [|c cs IH]; cbn; [reflexivity|].
  destruct (Nat.eqb_spec (sock c) s) as [He|Hne]; cbn; [exact IH|].
  destruct (isOpen (readyState c)); cbn; [|exact IH].
  destruct (Nat.eqb_spec (sock c) s); [contradiction | exact IH].
Qed.

(** ** One server message keeps the client in step *)

Ltac sync_start H :=
  destruct H as (Hp & Hm & Hg); unfold inSync; cbn; rewrite ?Hp, ?Hm, ?Hg.

Lemma sync_playerJoined ps ms gm c p :
  inSync ps ms gm c ->
  inSync (JsMap.set ps (Player.id p) p) ms gm
         (fst (Multiplayer.handleServerMessage c (playerJoined p))).
Proof.
  intros H. sync_start H. rewrite viewPlayers_set. auto.
Qed.

Lemma sync_playerLeft ps ms gm c pid :
  inSync ps ms gm c ->
  inSync (JsMap.delete ps pid) ms gm
         (fst (Multiplayer.handleServerMessage c (playerLeft pid))).
Proof.
  intros H. destruct H as (Hp & Hm & Hg). unfold inSync. cbn.
  rewrite viewPlayers_delete, <- Hp.
  destruct (JsMap.get (Multiplayer.players c) pid) eqn:E; cbn; [auto|].
  rewrite (delete_absent _ _ E). auto.
Qed.

Lemma sync_player_update ps ms gm c key p p' f message :
  inSync ps ms gm c -> NoDup (List.map fst ps) -> In (key, p) ps ->
  f (Multiplayer.mkEntity (Player.id p) (Player.x p) (Player.y p)
                          (Player.health p) 100)
  = Multiplayer.mkEntity (Player.id p') (Player.x p') (Player.y p')
                         (Player.health p') 100 ->
  fst (Multiplayer.handleServerMessage c message)
  = Multiplayer.mkGame (Multiplayer.running c) (Multiplayer.gmap c)
      (Multiplayer.update (Multiplayer.players c) key f)
      (Multiplayer.myPlayerId c) (Multiplayer.monsters c)
      (Multiplayer.fireballs c) ->
  inSync (JsMap.set ps key p') ms gm
         (fst (Multiplayer.handleServerMessage c message)).
Proof.
  intros H Hnd Hin Hf ->. sync_start H. splits; auto.
  unfold Multiplayer.update.
  rewrite viewPlayers_get, (NoDup_get _ _ _ Hnd Hin). cbn.
  now rewrite Hf, viewPlayers_set.
Qed.

Lemma sync_playerMoved ps ms gm c key p x y :
  inSync ps ms gm c -> NoDup (List.map fst ps) -> In (key, p) ps ->
  inSync (JsMap.set ps key (Player.setPos p x y)) ms gm
         (fst (Multiplayer.handleServerMessage c (playerMoved key x y))).
Proof.
  intros H Hnd Hin.
  eapply sync_player_update with (f := fun a => Multiplayer.setPos a x y);
    eauto.
Qed.

Lemma sync_playerDamaged ps ms gm c key p h d :
  inSync ps ms gm c -> NoDup (List.map fst ps) -> In (key, p) ps ->
  inSync (JsMap.set ps key (Player.setHealth p h)) ms gm
         (fst (Multiplayer.handleServerMessage c (playerDamaged key h d))).
Proof.
  intros H Hnd Hin.
  eapply sync_player_update with (f := fun a => Multiplayer.setHealth a h);
    eauto.
Qed.

Lemma sync_playerDied ps ms gm c pid :
  inSync ps ms gm c ->
  inSync ps ms gm (fst (Multiplayer.handleServerMessage c (playerDied pid))).
Proof.
  intros H. cbn. destruct (Multiplayer.myPlayerId c) as [mine|]; [|exact H].
  destruct (pid =? mine); [|exact H]. sync_start H. auto.
Qed.

Lemma sync_fireballCast ps ms gm c fb :
  inSync ps ms gm c ->
  inSync ps ms gm (fst (Multiplayer.handleServerMessage c (fireballCast fb))).
Proof. intros H. sync_start H. auto. Qed.

Lemma sync_monsterMoved ps done m rest gm c m' :
  inSync ps (done ++ m :: rest) gm c ->
  ~ In (Monster.id m) (List.map Monster.id done) ->
  Monster.id m' = Monster.id m -> Monster.health m' = Monster.health m ->
  inSync ps (done ++ m' :: rest) gm
         (fst (Multiplayer.handleServerMessage c
                 (monsterMoved (Monster.id m) (Monster.x m') (Monster.y m')))).
Proof.
  intros H Hn Hid Hh. sync_start H. splits; auto.
  apply update_zipper; auto. cbn. now rewrite Hid, Hh.
Qed.

Lemma sync_monsterDamaged ps ms gm c id h d :
  inSync ps ms gm c ->
  inSync ps (updateFound ms id (fun m => Monster.setHealth m h)) gm
         (fst (Multiplayer.handleServerMessage c (monsterDamaged id h d))).
Proof.
  intros H. sync_start H. splits; auto.
  apply update_found; reflexivity.
Qed.

Lemma sync_monsterDied ps ms gm c id :
  inSync ps ms gm c ->
  inSync ps (filter (fun m => negb (Monster.id m =? id)) ms) gm
         (fst (Multiplayer.handleServerMessage c (monsterDied id))).
Proof.
  intros H. sync_start H. splits; auto. apply viewMonsters_delete.
Qed.

Lemma sync_monsterSpawned ps ms gm c m :
  inSync ps ms gm c ->
  ~ In (Monster.id m) (List.map Monster.id ms) ->
  inSync ps (ms ++ [m]) gm
         (fst (Multiplayer.handleServerMessage c (monsterSpawned m))).
Proof.
  intros H Hn. sync_start H. splits; auto.
  rewrite set_fresh by (now rewrite viewMonsters_keys).
  rewrite viewMonsters_app. reflexivity.
Qed.

(** Only [init] sets the client's own id. *)
Lemma handle_myPlayerId c message :
  (forall a b ps ms, message <> init a b ps ms) ->
  Multiplayer.myPlayerId (fst (Multiplayer.handleServerMessage c message))
  = Multiplayer.myPlayerId c.
Proof.
  intros H. destruct message; cbn; try reflexivity.
  - exfalso. eapply H. reflexivity.
  - destruct (JsMap.get _ _); reflexivity.
  - destruct (Multiplayer.myPlayerId c) as [mine|] eqn:E; [|now rewrite E].
    destruct (_ =? mine); [reflexivity | now rewrite E].
Qed.

Lemma receive_app c l1 l2 :
  Multiplayer.receive c (l1 ++ l2)
  = Multiplayer.receive (Multiplayer.receive c l1) l2.
Proof. unfold Multiplayer.receive. apply fold_left_app. Qed.

Lemma inSync_same_view ps done m m' rest gm c :
  inSync ps (done ++ m :: rest) gm c ->
  Monster.id m' = Monster.id m -> Monster.x m' = Monster.x m ->
  Monster.y m' = Monster.y m -> Monster.health m' = Monster.health m ->
  inSync ps (done ++ m' :: rest) gm c.
Proof.
  intros (Hp & Hm & Hg) Hi Hx Hy Hh. unfold inSync. splits; auto.
  rewrite Hm, !viewMonsters_app. unfold viewMonsters. cbn [List.map].
  now rewrite Hi, Hx, Hy, Hh.
Qed.

Ltac not_init := intros; discriminate.

(** ** The tick, seen from a client *)

Lemma monsterTick_replica gmap clients now roll e ps m m' ps' eff s c
      done rest gm :
  monsterTick gmap clients now roll e ps m = Ok (m', ps', eff) ->
  (forall message, messagesTo s (broadcast clients message None) = [message]) ->
  NoDup (List.map fst ps) ->
  Forall (fun kp => Player.id (snd kp) = fst kp) ps ->
  ~ In (Monster.id m) (List.map Monster.id done) ->
  inSync ps (done ++ m :: rest) gm c ->
  inSync ps' (done ++ m' :: rest) gm
         (Multiplayer.receive c (messagesTo s eff))
  /\ Multiplayer.myPlayerId (Multiplayer.receive c (messagesTo s eff))
     = Multiplayer.myPlayerId c.
Proof.
  unfold monsterTick. intros H Hb Hnd Hids Hn Hsync.
  destruct (Z.gtb_spec (now - Monster.lastMove m) 500) as [Hdue|Hdue];
    [|inversion H; subst; cbn; auto].
  destruct (nearestPlayer ps _) as [[[key nearest] d]|] eqn:Hnear;
    [|inversion H; subst; cbn; split; [|reflexivity];
      eapply inSync_same_view; eauto].
  apply nearestPlayer_In in Hnear.
  assert (Hkey : Player.id nearest = key).
  { rewrite Forall_forall in Hids. exact (Hids _ Hnear). }
  cbn [Monster.setLastMove Monster.x Monster.y Monster.id] in H.
  destruct (direction _ _) as [moveX moveY].
  destruct (isValidMove gmap _ _) as [valid| |] eqn:Hv; cbn [bind] in H;
    try discriminate.
  set (m1 := if valid
             then Monster.setPos (Monster.setLastMove m now)
                                 (Monster.x m + moveX) (Monster.y m + moveY)
             else Monster.setLastMove m now).
  set (moved := if valid
                then [monsterMoved (Monster.id m) (Monster.x m + moveX)
                                   (Monster.y m + moveY)]
                else []).
  assert (Hmoved :
            inSync ps (done ++ m1 :: rest) gm (Multiplayer.receive c moved)
            /\ Multiplayer.myPlayerId (Multiplayer.receive c moved)
               = Multiplayer.myPlayerId c).
  { subst m1 moved. destruct valid; cbn [Multiplayer.receive fold_left].
    - split; [|apply handle_myPlayerId; not_init].
      apply (sync_monsterMoved ps done m rest gm c
               (Monster.setPos (Monster.setLastMove m now)
                               (Monster.x m + moveX) (Monster.y m + moveY)));
        auto.
    - split; [|reflexivity]. eapply inSync_same_view; eauto. }
  destruct Hmoved as [Hs1 Hid1].
  destruct ((d <=? 2) && roll).
  - assert (E : m' = m1 /\ ps' = JsMap.set ps key
                   (Player.setHealth nearest
                      (Player.health nearest - (randomInt 6 e + 5)))
                /\ messagesTo s eff
                   = moved
                     ++ [playerDamaged key
                           (Player.health nearest - (randomInt 6 e + 5))
                           (randomInt 6 e + 5)]
                     ++ (if Player.health nearest - (randomInt 6 e + 5) <=? 0
                         then [playerDied key] else [])).
    { subst m1 moved. rewrite Hkey in H.
      destruct valid; inversion H; subst; splits; auto;
        rewrite !messagesTo_app, !Hb;
        destruct (_ <=? 0); rewrite ?Hb; reflexivity. }
    destruct E as (-> & -> & ->). rewrite !receive_app.
    set (c1 := Multiplayer.receive c moved) in *.
    cbn [Multiplayer.receive fold_left].
    pose proof (sync_playerDamaged ps (done ++ m1 :: rest) gm c1 key nearest
                  (Player.health nearest - (randomInt 6 e + 5))
                  (randomInt 6 e + 5) Hs1 Hnd Hnear) as Hs2.
    destruct (_ <=? 0); cbn [Multiplayer.receive fold_left].
    + split; [now apply sync_playerDied|].
      rewrite !handle_myPlayerId by not_init. exact Hid1.
    + split; [exact Hs2|].
      rewrite !handle_myPlayerId by not_init. exact Hid1.
  - assert (E : m' = m1 /\ ps' = ps /\ messagesTo s eff = moved).
    { subst m1 moved.
      destruct valid; inversion H; subst; splits; auto. }
    destruct E as (-> & -> & ->). auto.
Qed.

Lemma forEachMonster_replica gmap clients now rnd s gm ms :
  (forall message, messagesTo s (broadcast clients message None) = [message]) ->
  forall i ps done c ms' ps' eff,
    forEachMonster gmap clients now rnd i ms ps = Ok (ms', ps', eff) ->
    NoDup (List.map fst ps) ->
    Forall (fun kp => Player.id (snd kp) = fst kp) ps ->
    NoDup (List.map Monster.id (done ++ ms)) ->
    inSync ps (done ++ ms) gm c ->
    inSync ps' (done ++ ms') gm (Multiplayer.receive c (messagesTo s eff))
    /\ Multiplayer.myPlayerId (Multiplayer.receive c (messagesTo s eff))
       = Multiplayer.myPlayerId c.
Proof.
  intros Hb. induction ms as [|m ms IH]; intros i ps done c ms' ps' eff; cbn.
  - intros [= <- <- <-] _ _ _ Hs. cbn. auto.
  - destruct (monsterTick _ _ _ _ _ _ _) as [[[m1 ps1] eff1]| |] eqn:E1;
      cbn; try discriminate.
    destruct (forEachMonster _ _ _ _ _ _ _) as [[[ms2 ps2] eff2]| |] eqn:E2;
      cbn; try discriminate.
    intros [= <- <- <-] Hnd Hids Hm Hs.
    assert (Hfresh : ~ In (Monster.id m) (List.map Monster.id done)).
    { rewrite map_app in Hm. cbn in Hm. apply NoDup_remove_2 in Hm.
      intros Hin. apply Hm. apply in_or_app. auto. }
    destruct (monsterTick_replica _ _ _ _ _ _ _ _ _ _ s c done ms gm
                E1 Hb Hnd Hids Hfresh Hs) as [Hs1 Hid1].
    destruct (monsterTick_monster _ _ _ _ _ _ _ _ _ _ E1) as (Hi1 & _).
    assert (Hk1 : List.map fst ps1 = List.map fst ps
                  /\ Forall (fun kp => Player.id (snd kp) = fst kp) ps1).
    { destruct (monsterTick_players _ _ _ _ _ _ _ _ _ _ E1)
        as [->|(key & nearest & Hin & ->)]; [auto|].
      split.
      - apply keys_set_existing. eapply In_get_keys; eauto.
      - apply Forall_set; [exact Hids|]. cbn.
        rewrite Forall_forall in Hids. exact (Hids _ Hin). }
    destruct Hk1 as [Hk1 Hids1].
    rewrite messagesTo_app, receive_app.
    destruct (IH (S i) ps1 (done ++ [m1])
                 (Multiplayer.receive c (messagesTo s eff1)) ms2 ps2 eff2 E2)
      as [Hs2 Hid2].
    + now rewrite Hk1.
    + exact Hids1.
    + rewrite <- app_assoc. cbn. rewrite map_app in *. cbn. now rewrite Hi1.
    + rewrite <- app_assoc. exact Hs1.
    + rewrite <- app_assoc in Hs2. split; [exact Hs2 | congruence].
Qed.

Lemma get_Some_In {V} (m : JsMap.t V) k v :
  JsMap.get m k = Some v -> In (k, v) m.
Proof.
  induction m as [|[k0 v0] m IH]; cbn; [discriminate|].
  destruct (Z.eqb_spec k0 k) as [->|Hne].
  - intros [= ->]. auto.
  - auto.
Qed.

Lemma messagesTo_other s s' message effs :
  s' <> s -> messagesTo s (Send s' message :: effs) = messagesTo s effs.
Proof.
  intros H. cbn. destruct (Nat.eqb_spec s' s); [contradiction | reflexivity].
Qed.

(** ** One event of the server, seen from a client that stays connected *)

Ltac fields :=
  cbn [gameState wssClients pendingRespawns players monsters fireballs map
       nextPlayerId setPlayers setMonsters setFireballs fst snd] in *.

Lemma step_replica w ev w' eff s c :
  step w ev = Some (w', eff) ->
  sessionsOk w -> openSession w s -> keepsOpen s ev ->
  uniqueMonsterIds w -> uniqueMonsterIds w' ->
  replicaOf (gameState w) c ->
  replicaOf (gameState w') (Multiplayer.receive c (messagesTo s eff))
  /\ Multiplayer.myPlayerId (Multiplayer.receive c (messagesTo s eff))
     = Multiplayer.myPlayerId c
  /\ openSession w' s.
Proof.
  intros H Hok Hopen Hkeep Hu Hu' Hrep.
  pose proof (step_sessionsOk _ _ _ _ H Hok) as Hok'.
  destruct Hok as (Ikeys & Isock & Ind & Iall).
  destruct Hok' as (_ & Isock' & _ & _).
  assert (Hb : forall message,
             messagesTo s (broadcast (wssClients w) message None) = [message]).
  { intros message. apply messagesTo_broadcast; auto. discriminate. }
  assert (Hids : Forall (fun kp => Player.id (snd kp) = fst kp)
                        (players (gameState w))).
  { eapply Forall_impl; [|exact Iall]. cbn. tauto. }
  unfold replicaOf in *. unfold uniqueMonsterIds in *.
  destruct Hopen as (ws & Hin & Hsock & Hready).
  unfold step in H.
  destruct ev as [s0 rnd|s0 message env|s0|s0|now rnd|env].
  - (* connection of another socket *)
    destruct (findClient _ s0) eqn:Hf; [discriminate|].
    apply findClient_None in Hf.
    assert (Hne : s0 <> s).
    { intros ->. apply Hf. rewrite <- Hsock. now apply in_map. }
    unfold onConnection in H.
    destruct (findSpawnPosition _ _) as [[x y]| |]; cbn [bind] in H;
      try discriminate.
    cbv zeta in H. inversion H; subst w' eff; clear H. fields.
    assert (Hopen' : exists ws',
               In ws' (wssClients w ++ [mkWs s0 (nextPlayerId (gameState w)) OPEN])
               /\ sock ws' = s /\ readyState ws' = OPEN).
    { exists ws. split; [apply in_or_app; auto | auto]. }
    rewrite messagesTo_other by exact Hne.
    rewrite messagesTo_broadcast; auto; [|congruence].
    cbn [Multiplayer.receive fold_left].
    split; [|split; [apply handle_myPlayerId; not_init | exact Hopen']].
    apply (sync_playerJoined _ _ _ _
             (Player.mk (nextPlayerId (gameState w)) x y 100 100)), Hrep.
  - (* a message of some session *)
    destruct (findClient _ s0) as [ws0|] eqn:Hf; [|discriminate].
    destruct (onMessage _ _ ws0 message env) as [g' eff'] eqn:Hm.
    inversion H; subst w' eff; clear H. fields.
    assert (Hopen' : exists ws', In ws' (wssClients w)
                                 /\ sock ws' = s /\ readyState ws' = OPEN)
      by eauto.
    cut (inSync (players g') (monsters g') (map g')
                (Multiplayer.receive c (messagesTo s eff'))
         /\ Multiplayer.myPlayerId (Multiplayer.receive c (messagesTo s eff'))
            = Multiplayer.myPlayerId c); [tauto|].
    unfold onMessage in Hm.
    destruct message as [x y|tx ty|id|id|];
      [| |rewrite attack_is_applyDamage in Hm
       |rewrite fireballHit_is_applyDamage in Hm|];
      unfold handleClientMessage, Spec.applyDamage in Hm;
      destruct (JsMap.get (players (gameState w)) (playerId ws0))
        as [player|] eqn:Hp;
      try (inversion Hm; subst; cbn; auto; fail).
    + destruct (isValidMove _ x y) as [[|]| |]; cbn [bind] in Hm;
        try (inversion Hm; subst; cbn; auto; fail).
      inversion Hm; subst; clear Hm. rewrite Hb. cbn -[JsMap.set].
      split; [|destruct (Multiplayer.myPlayerId c); reflexivity].
      apply sync_playerMoved; auto. now apply get_Some_In.
    + inversion Hm; subst; clear Hm. rewrite Hb.
      cbn [Multiplayer.receive fold_left]. split; [|reflexivity].
      cbn. now apply sync_fireballCast.
    + destruct (findMonster _ id) as [monster|];
        [|inversion Hm; subst; cbn; auto].
      cbv zeta in Hm. destruct (0 <? _); inversion Hm; subst; clear Hm.
      * rewrite Hb. cbn [Multiplayer.receive fold_left]. split; [|reflexivity].
        cbn [players monsters map setMonsters]. now apply sync_monsterDamaged.
      * rewrite messagesTo_app, Hb. cbn [messagesTo flat_map app].
        cbn [Multiplayer.receive fold_left]. split; [|reflexivity].
        cbn [players monsters map setMonsters]. now apply sync_monsterDied.
    + destruct (findMonster _ id) as [monster|];
        [|inversion Hm; subst; cbn; auto].
      cbv zeta in Hm. destruct (0 <? _); inversion Hm; subst; clear Hm.
      * rewrite Hb. cbn [Multiplayer.receive fold_left]. split; [|reflexivity].
        cbn [players monsters map setMonsters]. now apply sync_monsterDamaged.
      * rewrite messagesTo_app, Hb. cbn [messagesTo flat_map app].
        cbn [Multiplayer.receive fold_left]. split; [|reflexivity].
        cbn [players monsters map setMonsters]. now apply sync_monsterDied.
  - (* another session starts closing *)
    destruct (findClient _ s0); [|discriminate].
    inversion H; subst w' eff; clear H. fields.
    splits; auto. exists ws. split; [|auto].
    apply in_map_iff. exists ws. split; [|exact Hin].
    destruct (Nat.eqb_spec (sock ws) s0); [congruence | reflexivity].
  - (* another session has closed *)
    destruct (findClient _ s0) as [ws0|] eqn:Hf; [|discriminate].
    apply findClient_Some in Hf. destruct Hf as [Hin0 Hs0].
    unfold onClose in H. inversion H; subst w' eff; clear H. fields.
    assert (Hopen' : exists ws',
               In ws' (filter (fun c0 => negb (Nat.eqb (sock c0) (sock ws0)))
                              (wssClients w))
               /\ sock ws' = s /\ readyState ws' = OPEN).
    { exists ws. split; [|auto]. apply filter_In. split; [exact Hin|].
      destruct (Nat.eqb_spec (sock ws) (sock ws0)); [congruence | reflexivity]. }
    rewrite messagesTo_broadcast; auto; [|discriminate].
    cbn [Multiplayer.receive fold_left].
    split; [|split; [apply handle_myPlayerId; not_init | exact Hopen']].
    now apply sync_playerLeft.
  - (* a tick *)
    unfold gameLoop in H.
    destruct (forEachMonster _ _ _ _ _ _ _) as [[[ms ps] eff']| |] eqn:E;
      cbn [bind] in H; try discriminate.
    inversion H; subst w' eff; clear H. fields.
    destruct (forEachMonster_replica _ _ _ _ s (map (gameState w)) _ Hb
                _ _ [] c _ _ _ E Ind Hids Hu Hrep) as [Hs Hi].
    splits; auto. exists ws. auto.
  - (* a respawn *)
    destruct (pendingRespawns w) as [|n]; [discriminate|].
    unfold respawnCallback, spawnMonster in H.
    destruct (spawnMonsterSearch _ _ _ _) as [[x y]| |]; cbn [bind] in H;
      try discriminate.
    inversion H; subst w' eff; clear H. fields.
    rewrite Hb. cbn [Multiplayer.receive fold_left].
    split; [|split; [apply handle_myPlayerId; not_init | exists ws; auto]].
    apply sync_monsterSpawned; [exact Hrep|].
    rewrite map_app in Hu'. cbn in Hu'. apply NoDup_remove_2 in Hu'.
    rewrite app_nil_r in Hu'. exact Hu'.
Qed.

(** ** The [init] message *)

Lemma fold_set_fresh {A V} (key : A -> Z) (val : A -> V) (l : list A) :
  forall acc : JsMap.t V,
    NoDup (List.map fst acc ++ List.map key l) ->
    fold_left (fun acc a => JsMap.set acc (key a) (val a)) l acc
    = acc ++ List.map (fun a => (key a, val a)) l.
Proof.
  induction l as [|a l IH]; intros acc Hnd; cbn.
  - now rewrite app_nil_r.
  - cbn in Hnd. pose proof (NoDup_remove_2 _ _ _ Hnd) as Hfresh.
    rewrite set_fresh by (intros Hin; apply Hfresh, in_or_app; auto).
    rewrite IH.
    + now rewrite <- app_assoc.
    + rewrite map_app, <- app_assoc. exact Hnd.
Qed.

Lemma viewPlayers_values ps :
  Forall (fun kp => Player.id (snd kp) = fst kp) ps ->
  List.map
    (fun p =>
       (Player.id p,
        Multiplayer.setHealth
          (Multiplayer.newPlayer (Player.id p) (Player.x p) (Player.y p))
          (Player.health p)))
    (JsMap.values ps)
  = viewPlayers ps /\ List.map Player.id (JsMap.values ps) = List.map fst ps.
Proof.
  unfold viewPlayers, JsMap.values.
  induction 1 as [|[k p] ps Hk Hps [IH1 IH2]]; cbn in *; [auto|].
  rewrite IH1, IH2, Hk. auto.
Qed.

(** X24. A client that opens a connection is sent exactly one message, the
    [init]; handling it from the page's initial state does not throw, starts
    the game with the id the server assigned, and leaves the client with the
    players, monsters and map of the server, provided monster ids are
    pairwise distinct. *)
Theorem init_builds_replica :
  forall (w w' : World) (s : nat) (rnd : nat -> Z * Z) (eff : list Effect),
    reachable w ->
    uniqueMonsterIds w ->
    step w (EvConnection s rnd) = Some (w', eff) ->
    exists message c,
      messagesTo s eff = [message]
      /\ Multiplayer.handleServerMessage Multiplayer.initial message
         = (c, true)
      /\ replicaOf (gameState w') c
      /\ Multiplayer.running c = true
      /\ Multiplayer.myPlayerId c = Some (nextPlayerId (gameState w))
      /\ openSession w' s.
Proof.
  intros w w' s rnd eff Hr Hu H.
  apply reachable_sessionsOk in Hr.
  pose proof (step_sessionsOk _ _ _ _ H Hr) as (_ & _ & Hnd' & Hall').
  unfold step in H.
  destruct (findClient _ s) eqn:Hf; [discriminate|].
  unfold onConnection in H.
  destruct (findSpawnPosition _ _) as [[x y]| |]; cbn [bind] in H;
    try discriminate.
  cbv zeta in H. inversion H; subst w' eff; clear H. fields.
  set (ps := JsMap.set (players (gameState w)) (nextPlayerId (gameState w))
                       (Player.mk (nextPlayerId (gameState w)) x y 100 100))
    in *.
  assert (Hids : Forall (fun kp => Player.id (snd kp) = fst kp) ps).
  { eapply Forall_impl; [|exact Hall']. cbn. tauto. }
  destruct (viewPlayers_values ps Hids) as [Hv Hk].
  eexists. eexists. splits.
  - cbn [messagesTo flat_map]. rewrite Nat.eqb_refl.
    fold (messagesTo s (broadcast
                          (wssClients w
                           ++ [mkWs s (nextPlayerId (gameState w)) OPEN])
                          (playerJoined
                             (Player.mk (nextPlayerId (gameState w)) x y
                                        100 100))
                          (Some s))).
    rewrite messagesTo_broadcast_excluded. reflexivity.
  - unfold Multiplayer.handleServerMessage, Multiplayer.initial.
    cbn [Multiplayer.players Multiplayer.monsters Multiplayer.fireballs].
    rewrite (fold_set_fresh Player.id
               (fun p => Multiplayer.setHealth
                           (Multiplayer.newPlayer (Player.id p) (Player.x p)
                                                  (Player.y p))
                           (Player.health p)))
      by (cbn; now rewrite Hk).
    rewrite (fold_set_fresh Monster.id
               (fun m => Multiplayer.setHealth
                           (Multiplayer.newMonster (Monster.id m) (Monster.x m)
                                                   (Monster.y m))
                           (Monster.health m)))
      by exact Hu.
    cbn [app]. rewrite Hv, viewPlayers_get. subst ps.
    rewrite get_set_same. reflexivity.
  - unfold replicaOf, inSync. cbn. auto.
  - reflexivity.
  - reflexivity.
  - eexists. split; [apply in_or_app; right; left; reflexivity | auto].
Qed.

Lemma init_builds_replica_witness :
  exists message c,
    messagesTo 1 (match step Demo.started Demo.join1 with
                  | Some (_, eff) => eff
                  | None => []
                  end) = [message]
    /\ Multiplayer.handleServerMessage Multiplayer.initial message = (c, true)
    /\ replicaOf (gameState Demo.onePlayer) c
    /\ Multiplayer.myPlayerId c = Some 1.
Proof.
  assert (Hu : uniqueMonsterIds Demo.started).
  { unfold uniqueMonsterIds. cbn.
    repeat constructor; cbn; intuition discriminate. }
  destruct (init_builds_replica Demo.started Demo.onePlayer 1
              (fun _ => (5, 5))
              (match step Demo.started Demo.join1 with
               | Some (_, eff) => eff
               | None => []
               end)
              started_reachable Hu eq_refl)
    as (message & c & Hm & Hh & Hrep & _ & Hid & _).
  exists message, c. auto.
Defined.

(** ** The replica along a run *)

(** X25. A connected client that handles every message sent to its socket
    stays an exact copy of the server: starting in agreement with the
    server's players, monsters and map, it agrees again after any run of
    events along which its session stays open and monster ids stay pairwise
    distinct, and its own id is never changed. *)
Theorem replica_follows_server :
  forall (s : nat) (w w' : World) (evs : list Event) (msgs : list ServerMsg)
         (c : Multiplayer.Game),
    reachable w ->
    uniqueMonsterIds w ->
    openSession w s ->
    replicaOf (gameState w) c ->
    runsWith s w evs w' msgs ->
    replicaOf (gameState w') (Multiplayer.receive c msgs)
    /\ Multiplayer.myPlayerId (Multiplayer.receive c msgs)
       = Multiplayer.myPlayerId c
    /\ openSession w' s.
Proof.
  intros s w w' evs msgs c Hr Hu Ho Hrep Hrun. revert c Hr Hu Ho Hrep.
  induction Hrun as [w|w ev w1 eff evs w2 msgs Hs Hk Hu1 Hrun IH];
    intros c Hr Hu Ho Hrep.
  - cbn. auto.
  - destruct (step_replica _ _ _ _ s c Hs (reachable_sessionsOk _ Hr)
                Ho Hk Hu Hu1 Hrep) as (Hrep1 & Hid1 & Ho1).
    rewrite receive_app.
    destruct (IH _ (reachable_step _ _ _ _ Hr Hs) Hu1 Ho1 Hrep1)
      as (Hrep2 & Hid2 & Ho2).
    splits; auto. congruence.
Qed.

Ltac distinct_ids :=
  unfold uniqueMonsterIds; cbn; repeat constructor; cbn; intuition discriminate.

Lemma replica_follows_server_witness :
  exists w' msgs,
    runsWith 1 Demo.onePlayer busyRun w' msgs
    /\ length msgs = 13%nat
    /\ replicaOf (gameState w') (Multiplayer.receive firstClient msgs)
    /\ Multiplayer.myPlayerId (Multiplayer.receive firstClient msgs) = Some 1.
Proof.
  assert (Hrun : exists w' msgs,
             runsWith 1 Demo.onePlayer busyRun w' msgs
             /\ length msgs = 13%nat).
  { eexists. eexists. split.
    - unfold busyRun.
      repeat (eapply runsWith_cons;
              [vm_compute; reflexivity
              | cbn; try exact I; discriminate
              | distinct_ids
              | ]).
      apply runsWith_nil.
    - reflexivity. }
  destruct Hrun as (w' & msgs & Hrun & Hlen).
  assert (Hu : uniqueMonsterIds Demo.onePlayer) by distinct_ids.
  assert (Ho : openSession Demo.onePlayer 1).
  { exists Demo.ws1. cbn. auto. }
  assert (Hrep : replicaOf (gameState Demo.onePlayer) firstClient).
  { unfold replicaOf, inSync. cbn. auto. }
  destruct (replica_follows_server 1 Demo.onePlayer w' busyRun msgs firstClient
              onePlayer_reachable Hu Ho Hrep Hrun) as (H1 & H2 & _).
  exists w', msgs. auto.
Defined.

(** ** The optimistic move *)

Lemma reachable_ids_positive w :
  reachable w ->
  0 < nextPlayerId (gameState w)
  /\ JsMap.get (players (gameState w)) 0 = None.
Proof.
  induction 1 as [pick envs g Hg | w ev w' eff Hr IH Hs].
  - unfold initGame in Hg. apply spawnMonsters_players in Hg.
    destruct Hg as (Hp & Hn & _). cbn in *. rewrite Hp, Hn. cbn.
    split; [lia | reflexivity].
  - destruct IH as [Hk Hg]. exact (step_keeps_absent _ _ _ _ _ Hs Hk Hg).
Qed.

Lemma set_same {V} (m : JsMap.t V) k v :
  JsMap.get m k = Some v -> JsMap.set m k v = m.
Proof.
  induction m as [|[k0 v0] m IH]; cbn; [discriminate|].
  destruct (Z.eqb_spec k0 k) as [->|Hne].
  - now intros [= ->].
  - intros H. now rewrite IH.
Qed.

(** X26. The client's optimistic move is the server's move. When a key
    press of a running, synchronised client sends a [move], the server
    accepts it, the client's state after the key press is already a copy of
    the server's state after the message, and the [playerMoved] echo that
    comes back changes nothing; when the key press sends nothing, the client
    has not changed. *)
Theorem optimistic_move_is_confirmed :
  forall (w : World) (s : nat) (ws : WebSocket) (c c' : Multiplayer.Game)
         (key : Multiplayer.Key) (sent : option ClientMsg) (env : Env),
    reachable w ->
    findClient (wssClients w) s = Some ws ->
    readyState ws = OPEN ->
    replicaOf (gameState w) c ->
    Multiplayer.myPlayerId c = Some (playerId ws) ->
    Multiplayer.keydown c key = Ok (c', sent) ->
    match sent with
    | Some message =>
        exists x y w' eff,
          message = move x y
          /\ isValidMove (map (gameState w)) x y = Ok true
          /\ step w (EvMessage s message env) = Some (w', eff)
          /\ replicaOf (gameState w') c'
          /\ messagesTo s eff = [playerMoved (playerId ws) x y]
          /\ Multiplayer.receive c' (messagesTo s eff) = c'
    | None => c' = c
    end.
Proof.
  intros w s ws c c' key sent env Hr Hf Hopen Hrep Hmine Hkey.
  pose proof (reachable_ids_positive _ Hr) as [_ Hzero].
  apply reachable_sessionsOk in Hr.
  destruct (session_has_player _ _ _ Hr Hf) as (p & Hp & Hpid & _).
  destruct Hr as (_ & Hsocks & Hnd & _).
  pose proof (findClient_Some _ _ _ Hf) as [Hin Hsock]. subst s.
  destruct Hrep as (Hps & Hms & Hgm).
  unfold Multiplayer.keydown in Hkey. rewrite Hmine in Hkey.
  destruct (Multiplayer.running c) eqn:Hrun;
    [|inversion Hkey; subst; reflexivity].
  destruct (Z.eqb_spec (playerId ws) 0) as [Hz|Hz];
    [rewrite Hz, Hzero in Hp; discriminate|].
  rewrite Hps, viewPlayers_get, Hp in Hkey. cbn [option_map] in Hkey.
  set (me := Multiplayer.mkEntity (Player.id p) (Player.x p) (Player.y p)
                                  (Player.health p) 100) in *.
  assert (Hgoal :
            forall x y,
              (ok <- Multiplayer.canMoveTo c x y ;;
               if ok
               then Ok (Multiplayer.mkGame true (Multiplayer.gmap c)
                          (JsMap.set (viewPlayers (players (gameState w)))
                                     (playerId ws)
                                     (Multiplayer.setPos me x y))
                          (Some (playerId ws)) (Multiplayer.monsters c)
                          (Multiplayer.fireballs c),
                        Some (move x y))
               else Ok (c, None)) = Ok (c', sent) ->
              match sent with
              | Some message =>
                  exists x y w' eff,
                    message = move x y
                    /\ isValidMove (map (gameState w)) x y = Ok true
                    /\ step w (EvMessage (sock ws) message env)
                       = Some (w', eff)
                    /\ replicaOf (gameState w') c'
                    /\ messagesTo (sock ws) eff
                       = [playerMoved (playerId ws) x y]
                    /\ Multiplayer.receive c' (messagesTo (sock ws) eff) = c'
              | None => c' = c
              end).
  { intros x y H. unfold Multiplayer.canMoveTo in H. rewrite Hgm in H.
    fold (isValidMove (map (gameState w)) x y) in H.
    destruct (isValidMove _ x y) as [[|]| |] eqn:Hv; cbn [bind] in H;
      try discriminate; inversion H; subst; clear H; [|reflexivity].
    assert (Hb : messagesTo (sock ws) (broadcast (wssClients w)
                                 (playerMoved (playerId ws) x y) None)
                 = [playerMoved (playerId ws) x y]).
    { apply messagesTo_broadcast; [exact Hsocks|eauto|discriminate]. }
    exists x, y. eexists. eexists. splits.
    - reflexivity.
    - exact Hv.
    - unfold step. rewrite Hf. unfold onMessage, handleClientMessage.
      rewrite Hp, Hv. cbn [bind]. reflexivity.
    - unfold replicaOf, inSync. fields. cbn. splits; auto.
      rewrite viewPlayers_set. reflexivity.
    - exact Hb.
    - rewrite Hb. cbn. unfold Multiplayer.update.
      rewrite get_set_same. cbn.
      rewrite set_same by apply get_set_same. reflexivity. }
  destruct key; cbn -[Multiplayer.canMoveTo] in Hkey;
    try (apply (Hgoal _ _ Hkey)).
  inversion Hkey; subst; reflexivity.
Qed.

Lemma optimistic_move_is_confirmed_witness :
  exists c' w' eff,
    Multiplayer.keydown firstClient Multiplayer.KeyD
    = Ok (c', Some (move 8 7))
    /\ step Demo.onePlayer (EvMessage 1 (move 8 7) Demo.env0) = Some (w', eff)
    /\ replicaOf (gameState w') c'
    /\ Multiplayer.receive c' (messagesTo 1 eff) = c'.
Proof.
  assert (Hk : exists c', Multiplayer.keydown firstClient Multiplayer.KeyD
                          = Ok (c', Some (move 8 7))).
  { eexists. vm_compute. reflexivity. }
  destruct Hk as [c' Hk].
  assert (Hrep : replicaOf (gameState Demo.onePlayer) firstClient).
  { unfold replicaOf, inSync. cbn. auto. }
  destruct (optimistic_move_is_confirmed Demo.onePlayer 1 Demo.ws1 firstClient
              c' Multiplayer.KeyD (Some (move 8 7)) Demo.env0
              onePlayer_reachable eq_refl eq_refl Hrep eq_refl Hk)
    as (x & y & w' & eff & Hm & _ & Hs & Hr & _ & He).
  exists c', w', eff. auto.
Defined.

(** * Monster health and player positions along every run *)

(** ** Monster health changes only by damage *)

Lemma applyDamage_descends damage g clients ws id :
  0 < damage ->
  forall m',
    In m' (monsters (fst (Spec.applyDamage damage g clients ws id))) ->
    exists m, In m (monsters g)
              /\ Monster.id m' = Monster.id m
              /\ Monster.maxHealth m' = Monster.maxHealth m
              /\ (m' = m \/ 0 < Monster.health m' < Monster.health m).
Proof.
  intros Hd m'. unfold Spec.applyDamage.
  destruct (JsMap.get _ _); [|cbn; intros H; exists m'; auto].
  destruct (findMonster _ id) as [monster|] eqn:Hf;
    [|cbn; intros H; exists m'; auto].
  cbv zeta.
  destruct (Z.ltb_spec 0 (Monster.health monster - damage)) as [Hpos|Hneg];
    cbn [fst monsters setMonsters]; intros Hin.
  - apply (In_updateFound _ _ _ _ _ Hf) in Hin. destruct Hin as [Hin| ->].
    + exists m'. auto.
    + exists monster. apply findMonster_Some in Hf.
      split; [tauto|]. split; [reflexivity|]. split; [reflexivity|].
      right. cbn. lia.
  - apply filter_In in Hin. exists m'. tauto.
Qed.

Lemma forEachMonster_vitals gmap clients now rnd ms :
  forall i ps ms' ps' eff,
    forEachMonster gmap clients now rnd i ms ps = Ok (ms', ps', eff) ->
    List.map vitals ms' = List.map vitals ms.
Proof.
  induction ms as [|m ms IH]; intros i ps ms' ps' eff; cbn.
  - intros [= <- <- <-]. reflexivity.
  - destruct (monsterTick _ _ _ _ _ _ _) as [[[m1 ps1] eff1]| |] eqn:E1;
      cbn; try discriminate.
    destruct (forEachMonster _ _ _ _ _ _ _) as [[[ms2 ps2] eff2]| |] eqn:E2;
      cbn; try discriminate.
    intros [= <- <- <-]. cbn.
    destruct (monsterTick_monster _ _ _ _ _ _ _ _ _ _ E1) as (Hi & Hh & Hm & _).
    rewrite (IH _ _ _ _ _ E2). unfold vitals. now rewrite Hi, Hh, Hm.
Qed.

(** What one event does to the monsters' health. *)
Lemma step_monster_health w ev w' eff :
  step w ev = Some (w', eff) ->
  match ev with
  | EvMessage _ (attack _) _ | EvMessage _ (fireballHit _) _ =>
      forall m', In m' (monsters (gameState w')) ->
        exists m, In m (monsters (gameState w))
                  /\ Monster.id m' = Monster.id m
                  /\ Monster.maxHealth m' = Monster.maxHealth m
                  /\ (m' = m \/ 0 < Monster.health m' < Monster.health m)
  | EvRespawn env =>
      exists x y,
        monsters (gameState w')
        = monsters (gameState w)
          ++ [Monster.mk (spawnId env) x y 50 50 (spawnNow env)]
  | _ =>
      List.map vitals (monsters (gameState w'))
      = List.map vitals (monsters (gameState w))
  end.
Proof.
  unfold step. intros H.
  destruct ev as [s rnd|s message env|s|s|now rnd|env].
  - destruct (findClient _ s); [discriminate|].
    unfold onConnection in H.
    destruct (findSpawnPosition _ _) as [[x y]| |]; cbn in H; try discriminate.
    inversion H; subst; reflexivity.
  - destruct (findClient _ s) as [ws|]; [|discriminate].
    destruct (onMessage _ _ ws message env) as [g' eff'] eqn:Hm.
    inversion H; subst w' eff; clear H. cbn [gameState].
    unfold onMessage in Hm.
    destruct message as [x y|tx ty|id|id|].
    + unfold handleClientMessage in Hm.
      destruct (JsMap.get _ _); [|inversion Hm; subst; reflexivity].
      destruct (isValidMove _ x y) as [[|]| |]; cbn in Hm;
        inversion Hm; subst; reflexivity.
    + unfold handleClientMessage in Hm.
      destruct (JsMap.get _ _); inversion Hm; subst; reflexivity.
    + rewrite attack_is_applyDamage in Hm. inversion Hm as [Hg].
      intros m' Hin.
      apply (applyDamage_descends (randomInt 5 (entropy env) + 8) (gameState w)
               (wssClients w) ws id).
      * pose proof (randomInt_range 5 (entropy env)). lia.
      * now rewrite Hg.
    + rewrite fireballHit_is_applyDamage in Hm. inversion Hm as [Hg].
      intros m' Hin.
      apply (applyDamage_descends 15 (gameState w) (wssClients w) ws id);
        [lia | now rewrite Hg].
    + unfold handleClientMessage in Hm.
      destruct (JsMap.get _ _); inversion Hm; subst; reflexivity.
  - destruct (findClient _ s); [|discriminate].
    inversion H; subst; reflexivity.
  - destruct (findClient _ s); [|discriminate].
    inversion H; subst; reflexivity.
  - unfold gameLoop in H.
    destruct (forEachMonster _ _ _ _ _ _ _) as [[[ms ps] e]| |] eqn:E;
      cbn in H; try discriminate.
    inversion H; subst; cbn. eapply forEachMonster_vitals; eauto.
  - destruct (pendingRespawns w); [discriminate|].
    unfold respawnCallback, spawnMonster in H.
    destruct (spawnMonsterSearch _ _ _ _) as [[x y]| |]; cbn in H;
      try discriminate.
    inversion H; subst; cbn. eauto.
Qed.

Lemma In_vitals m' ms' ms :
  List.map vitals ms' = List.map vitals ms ->
  In m' ms' ->
  exists m, In m ms
            /\ Monster.id m' = Monster.id m
            /\ Monster.maxHealth m' = Monster.maxHealth m
            /\ Monster.health m' = Monster.health m.
Proof.
  intros He Hin. apply (in_map vitals) in Hin. rewrite He in Hin.
  apply in_map_iff in Hin. destruct Hin as (m & Hv & Hin).
  exists m. unfold vitals in Hv. inversion Hv. auto.
Qed.

(** Every monster after an event descends from a monster before it, with
    no more health, or has just been spawned with full health. *)
Lemma step_descends w ev w' eff :
  step w ev = Some (w', eff) ->
  forall m', In m' (monsters (gameState w')) ->
    (exists m, In m (monsters (gameState w))
               /\ Monster.id m' = Monster.id m
               /\ Monster.maxHealth m' = Monster.maxHealth m
               /\ Monster.health m' <= Monster.health m)
    \/ (exists env, ev = EvRespawn env
                    /\ Monster.id m' = spawnId env
                    /\ Monster.maxHealth m' = 50
                    /\ Monster.health m' = 50).
Proof.
  intros H m' Hin. pose proof (step_monster_health _ _ _ _ H) as Hs.
  assert (Hsame : List.map vitals (monsters (gameState w'))
                  = List.map vitals (monsters (gameState w)) ->
                  exists m, In m (monsters (gameState w))
                            /\ Monster.id m' = Monster.id m
                            /\ Monster.maxHealth m' = Monster.maxHealth m
                            /\ Monster.health m' <= Monster.health m).
  { intros He. destruct (In_vitals _ _ _ He Hin) as (m & H1 & H2 & H3 & H4).
    exists m. repeat split; auto; lia. }
  assert (Hdmg : (forall m', In m' (monsters (gameState w')) ->
                    exists m, In m (monsters (gameState w))
                              /\ Monster.id m' = Monster.id m
                              /\ Monster.maxHealth m' = Monster.maxHealth m
                              /\ (m' = m
                                  \/ 0 < Monster.health m' < Monster.health m))
                 -> exists m, In m (monsters (gameState w))
                              /\ Monster.id m' = Monster.id m
                              /\ Monster.maxHealth m' = Monster.maxHealth m
                              /\ Monster.health m' <= Monster.health m).
  { intros Hd. destruct (Hd _ Hin) as (m & H1 & H2 & H3 & H4).
    exists m. repeat split; auto; destruct H4 as [->|H4]; lia. }
  destruct ev as [s rnd|s message env|s|s|now rnd|env]; auto.
  - destruct message; auto.
  - destruct Hs as (x & y & Hs). rewrite Hs in Hin.
    apply in_app_or in Hin. destruct Hin as [Hin|[<-|[]]].
    + left. exists m'. repeat split; auto; lia.
    + right. exists env. cbn. auto.
Qed.

Lemma run_descends evs :
  forall w w' eff,
    run w evs = Some (w', eff) ->
    forall m', In m' (monsters (gameState w')) ->
      (exists m, In m (monsters (gameState w))
                 /\ Monster.id m' = Monster.id m
                 /\ Monster.maxHealth m' = Monster.maxHealth m
                 /\ Monster.health m' <= Monster.health m)
      \/ (exists env, In (EvRespawn env) evs
                      /\ Monster.id m' = spawnId env
                      /\ Monster.maxHealth m' = 50
                      /\ Monster.health m' <= 50).
Proof.
  induction evs as [|ev evs IH]; intros w w' eff; cbn [run].
  - intros [= <- _] m' Hin. left. exists m'. repeat split; auto; lia.
  - destruct (step w ev) as [[w1 e1]|] eqn:E; [|discriminate].
    destruct (run w1 evs) as [[w2 e2]|] eqn:E2; [|discriminate].
    intros [= <- _] m' Hin.
    destruct (IH _ _ _ E2 _ Hin)
      as [(m1 & Hin1 & Hi & Hm & Hh)|(env & Hev & Hi & Hm & Hh)].
    + destruct (step_descends _ _ _ _ E _ Hin1)
        as [(m & Hin0 & Hi0 & Hm0 & Hh0)|(env & -> & Hi0 & Hm0 & Hh0)].
      * left. exists m. repeat split; try congruence; lia.
      * right. exists env. split; [left; reflexivity|].
        repeat split; try congruence; lia.
    + right. exists env. split; [right; exact Hev | auto].
Qed.

(** C2. Monster health is monotonically non-increasing and never zero or
    negative in the collection or in a broadcast. A damage message ([attack]
    with its drawn damage or [fireballHit] with 15) that brings the found
    monster's health to 0 or below sends exactly one [monsterDied]
    broadcast, schedules exactly one respawn (5000 ms) and removes the
    monster; otherwise it sends one [monsterDamaged] broadcast carrying the
    new, positive health. In every reachable world every monster has
    [0 < health <= maxHealth]. A monster at health 50 hit by four
    [fireballHit] messages is reported at 35, 20 and 5 and dies on the
    fourth. No other operation touches health: a connection, a close, a
    move, a fireball cast, an unknown message and a tick leave the list of
    (id, health, maxHealth) of the monsters as it is, a damage message
    leaves every monster as it is or with less, still positive, health, and
    a respawn only appends a new monster with health 50 of 50. So after any
    run of events every monster either descends from a monster of the start
    with the same id and maximal health and no more health, or was spawned
    during the run and has at most its initial health 50. *)
Theorem monster_health_never_negative :
  (forall (g : GameState) (clients : list WebSocket) (ws : WebSocket)
          (player : Player.t) (id : Z) (env : Env) (monster : Monster.t)
          (message : ClientMsg) (damage : Z),
      JsMap.get (players g) (playerId ws) = Some player ->
      findMonster (monsters g) id = Some monster ->
      (message = attack id /\ damage = randomInt 5 (entropy env) + 8
       \/ message = fireballHit id /\ damage = 15) ->
      let health := Monster.health monster - damage in
      let r := onMessage g clients ws message env in
      (health <= 0 ->
         snd r = broadcast clients (monsterDied id) None
                 ++ [SetTimeoutRespawn 5000]
         /\ monsters (fst r)
            = filter (fun m => negb (Monster.id m =? id)) (monsters g)
         /\ findMonster (monsters (fst r)) id = None)
      /\ (0 < health ->
         snd r = broadcast clients (monsterDamaged id health damage) None
         /\ findMonster (monsters (fst r)) id
            = Some (Monster.setHealth monster health))
      /\ (forall m', In m' (monsters (fst r)) ->
            exists m, In m (monsters g) /\ Monster.id m' = Monster.id m
                      /\ (m' = m \/ 0 < Monster.health m' < Monster.health m)))
  /\ (forall w : World, reachable w ->
        forall m, In m (monsters (gameState w)) ->
          0 < Monster.health m <= Monster.maxHealth m)
  /\ (exists w',
        run Demo.onePlayer Demo.fourFireballHits
          = Some (w', [Send 1%nat (monsterDamaged 101 35 15);
                       Send 1%nat (monsterDamaged 101 20 15);
                       Send 1%nat (monsterDamaged 101 5 15);
                       Send 1%nat (monsterDied 101);
                       SetTimeoutRespawn 5000])
        /\ findMonster (monsters (gameState Demo.onePlayer)) 101
           = Some (Monster.mk 101 5 5 50 50 0)
        /\ findMonster (monsters (gameState w')) 101 = None
        /\ pendingRespawns w' = 1%nat)
  /\ (forall (w w' : World) (ev : Event) (eff : list Effect),
        step w ev = Some (w', eff) ->
        match ev with
        | EvMessage _ (attack _) _ | EvMessage _ (fireballHit _) _ =>
            forall m', In m' (monsters (gameState w')) ->
              exists m, In m (monsters (gameState w))
                        /\ Monster.id m' = Monster.id m
                        /\ Monster.maxHealth m' = Monster.maxHealth m
                        /\ (m' = m
                            \/ 0 < Monster.health m' < Monster.health m)
        | EvRespawn env =>
            exists x y,
              monsters (gameState w')
              = monsters (gameState w)
                ++ [Monster.mk (spawnId env) x y 50 50 (spawnNow env)]
        | _ =>
            List.map vitals (monsters (gameState w'))
            = List.map vitals (monsters (gameState w))
        end)
  /\ (forall (w w' : World) (evs : list Event) (eff : list Effect),
        run w evs = Some (w', eff) ->
        forall m', In m' (monsters (gameState w')) ->
          (exists m, In m (monsters (gameState w))
                     /\ Monster.id m' = Monster.id m
                     /\ Monster.maxHealth m' = Monster.maxHealth m
                     /\ Monster.health m' <= Monster.health m)
          \/ (exists env, In (EvRespawn env) evs
                          /\ Monster.id m' = spawnId env
                          /\ Monster.maxHealth m' = 50
                          /\ Monster.health m' <= 50)).
Proof.
  split; [|split; [|split; [|split]]].
  - intros g clients ws player id env monster message damage Hp Hf Hm health r.
    assert (Hr : r = Spec.applyDamage damage g clients ws id
                 /\ 0 < damage).
    { subst r. unfold onMessage.
      destruct Hm as [[-> ->]|[-> ->]].
      - rewrite attack_is_applyDamage.
        pose proof (randomInt_range 5 (entropy env)). split; [reflexivity | lia].
      - rewrite fireballHit_is_applyDamage. split; [reflexivity | lia]. }
    destruct Hr as [-> Hd].
    exact (applyDamage_found damage g clients ws player id monster Hp Hf Hd).
  - intros w Hr m Hin. apply reachable_invariant in Hr.
    destruct Hr as (_ & Hms & _). rewrite Forall_forall in Hms.
    apply (Hms _ Hin).
  - eexists. split; [reflexivity|]. repeat split.
  - intros w w' ev eff H. exact (step_monster_health _ _ _ _ H).
  - intros w w' evs eff H. exact (run_descends _ _ _ _ H).
Qed.

Lemma monster_health_never_negative_witness :
  (JsMap.get (players (gameState Demo.onePlayer)) (playerId Demo.ws1)
     = Some Demo.player1
   /\ findMonster (monsters (gameState Demo.onePlayer)) 101
       = Some (Monster.mk 101 5 5 50 50 0)
   /\ 0 < 50 - 15
   /\ snd (onMessage (gameState Demo.onePlayer) [Demo.ws1] Demo.ws1
                     (fireballHit 101) Demo.env0)
      = broadcast [Demo.ws1] (monsterDamaged 101 35 15) None)
  /\ reachable Demo.onePlayer
  /\ In (Monster.mk 101 5 5 50 50 0) (monsters (gameState Demo.onePlayer))
  /\ 0 < Monster.health (Monster.mk 101 5 5 50 50 0)
     <= Monster.maxHealth (Monster.mk 101 5 5 50 50 0)
  /\ step Demo.onePlayer (EvClose 1)
     = Some (mkWorld (mkGameState [] (monsters (gameState Demo.onePlayer)) []
                                  Demo.gmap 2) [] 0, [])
  /\ List.map vitals
       (monsters (gameState
          (mkWorld (mkGameState [] (monsters (gameState Demo.onePlayer)) []
                                Demo.gmap 2) [] 0)))
     = List.map vitals (monsters (gameState Demo.onePlayer)).
Proof.
  split.
  - split; [reflexivity|]. split; [reflexivity|]. split; [lia|].
    refine (proj1 (proj1 (proj2
      (proj1 monster_health_never_negative
             (gameState Demo.onePlayer) [Demo.ws1] Demo.ws1 Demo.player1
             101 Demo.env0 (Monster.mk 101 5 5 50 50 0) (fireballHit 101) 15
             eq_refl eq_refl (or_intror (conj eq_refl eq_refl)))) _)).
    cbn. lia.
  - split; [exact onePlayer_reachable|].
    split; [left; reflexivity|].
    split.
    + apply (proj1 (proj2 monster_health_never_negative)
                   Demo.onePlayer onePlayer_reachable).
      left; reflexivity.
    + split; [reflexivity|].
      exact (proj1 (proj2 (proj2 (proj2 monster_health_never_negative)))
                   Demo.onePlayer
                   (mkWorld (mkGameState [] (monsters (gameState Demo.onePlayer))
                                         [] Demo.gmap 2) [] 0)
                   (EvClose 1) [] eq_refl).
Defined.

(** ** Where players stand *)

Lemma unlucky_search gmap rnd :
  wellFormed gmap = true ->
  ~ luckySpawn gmap rnd ->
  findSpawnPosition gmap rnd = Ok (spawnSample (rnd 99%nat))
  /\ walkableAt gmap (fst (spawnSample (rnd 99%nat)))
                (snd (spawnSample (rnd 99%nat))) = false.
Proof.
  intros Hwf Hun.
  assert (Hall : forall i, (i < 100)%nat ->
            walkableAt gmap (fst (spawnSample (rnd i)))
                       (snd (spawnSample (rnd i))) = false).
  { intros i Hi.
    destruct (walkableAt gmap _ _) eqn:E; [|reflexivity].
    exfalso. apply Hun. exists i. auto. }
  unfold findSpawnPosition, findSpawnPositionCount.
  destruct (spawnSearch_spec _ rnd Hwf 99 0)
    as (x & y & n & Hr & Hn & Hs & _ & Hlast).
  rewrite Hr. cbn [bind].
  assert (Hw : walkableAt gmap x y = false).
  { replace x with (fst (spawnSample (rnd (n - 1)%nat))) by now rewrite <- Hs.
    replace y with (snd (spawnSample (rnd (n - 1)%nat))) by now rewrite <- Hs.
    apply Hall. lia. }
  destruct Hlast as [Habs| ->]; [congruence|].
  cbn in Hs. rewrite <- Hs. cbn. auto.
Qed.

(** What one event does to the tile of each player. *)
Lemma step_player_tiles w ev w' eff :
  wellFormed (map (gameState w)) = true ->
  step w ev = Some (w', eff) ->
  forall k p', In (k, p') (players (gameState w')) ->
    (exists p, In (k, p) (players (gameState w))
               /\ Player.x p' = Player.x p /\ Player.y p' = Player.y p)
    \/ walkableAt (map (gameState w')) (Player.x p') (Player.y p') = true
    \/ (exists s rnd,
          ev = EvConnection s rnd
          /\ ~ luckySpawn (map (gameState w)) rnd
          /\ k = nextPlayerId (gameState w)
          /\ (Player.x p', Player.y p') = spawnSample (rnd 99%nat)
          /\ walkableAt (map (gameState w')) (Player.x p') (Player.y p')
             = false).
Proof.
  intros Hwf H k p' Hin. pose proof (step_map _ _ _ _ H) as Hmap.
  rewrite Hmap. unfold step in H.
  destruct ev as [s rnd|s message env|s|s|now rnd|env].
  - destruct (findClient _ s); [discriminate|].
    unfold onConnection, findSpawnPosition, findSpawnPositionCount in H.
    cbn [map] in H.
    destruct (spawnSearch_spec _ rnd Hwf 99 0)
      as (x & y & n & Hr & Hn & Hs & Hprev & Hlast).
    rewrite Hr in H. cbn in H. inversion H; subst w' eff; clear H.
    cbn [gameState players setPlayers] in Hin.
    apply In_set in Hin. destruct Hin as [Hnew|Hold].
    + inversion Hnew; subst k p'. cbn [Player.x Player.y].
      destruct (walkableAt (map (gameState w)) x y) eqn:W; [auto|].
      right. right. exists s, rnd.
      destruct Hlast as [Habs| ->]; [discriminate|].
      cbn in Hs. repeat split; auto.
      intros (i & Hi & Hw).
      destruct (Nat.eq_dec i 99) as [->|Hne].
      * rewrite <- Hs in Hw. cbn in Hw. congruence.
      * rewrite Hprev in Hw; [discriminate | lia].
    + left. exists p'. auto.
  - destruct (findClient _ s) as [ws|]; [|discriminate].
    pose proof (onMessage_players (gameState w) (wssClients w) ws message env)
      as Hp.
    destruct (onMessage _ _ _ _ _) as [g1 e1].
    inversion H; subst w' eff; clear H. cbn [gameState fst] in *.
    destruct Hp as [Hp|(player & x & y & Hg & Hv & _ & Hp)];
      rewrite Hp in Hin.
    + left. exists p'. auto.
    + apply In_set in Hin. destruct Hin as [Hnew|Hold].
      * inversion Hnew; subst k p'. cbn [Player.x Player.y Player.setPos].
        apply isValidMove_true in Hv. apply andb_true_iff in Hv. tauto.
      * left. exists p'. auto.
  - destruct (findClient _ s); [|discriminate].
    inversion H; subst. left. exists p'. auto.
  - destruct (findClient _ s) as [ws|]; [|discriminate].
    unfold onClose in H. inversion H; subst w' eff; clear H.
    cbn [gameState players setPlayers] in Hin.
    apply filter_In in Hin. left. exists p'. tauto.
  - unfold gameLoop in H.
    destruct (forEachMonster _ _ _ _ _ _ _) as [[[ms ps] e]| |] eqn:E;
      cbn [bind] in H; try discriminate.
    inversion H; subst w' eff; clear H.
    cbn [gameState players setPlayers setMonsters] in Hin.
    destruct (forEachMonster_players
                (fun kp => exists p, In (fst kp, p) (players (gameState w))
                                     /\ Player.x (snd kp) = Player.x p
                                     /\ Player.y (snd kp) = Player.y p)
                _ _ _ _ _ (fun _ _ _ H => H) _ _ _ _ _ E) as [_ HF].
    left. assert (HP : Forall
                    (fun kp => exists p, In (fst kp, p) (players (gameState w))
                                         /\ Player.x (snd kp) = Player.x p
                                         /\ Player.y (snd kp) = Player.y p)
                    (players (gameState w))).
    { apply Forall_forall. intros [k0 p0] Hin0. exists p0. auto. }
    specialize (HF HP). rewrite Forall_forall in HF.
    exact (HF _ Hin).
  - destruct (pendingRespawns w); [discriminate|].
    unfold respawnCallback in H.
    destruct (spawnMonster _ _) as [[g1 m]| |] eqn:E; cbn in H;
      try discriminate.
    apply spawnMonster_Ok in E. destruct E as (-> & _).
    inversion H; subst. left. exists p'. auto.
Qed.

Lemma run_map evs :
  forall w w' eff,
    run w evs = Some (w', eff) -> map (gameState w') = map (gameState w).
Proof.
  induction evs as [|ev evs IH]; intros w w' eff; cbn [run].
  - now intros [= <- _].
  - destruct (step w ev) as [[w1 e1]|] eqn:E; [|discriminate].
    destruct (run w1 evs) as [[w2 e2]|] eqn:E2; [|discriminate].
    intros [= <- _]. rewrite (IH _ _ _ E2). exact (step_map _ _ _ _ E).
Qed.

(** A connection whose search samples no walkable position. *)
Lemma unlucky_connection w s rnd :
  wellFormed (map (gameState w)) = true ->
  findClient (wssClients w) s = None ->
  ~ luckySpawn (map (gameState w)) rnd ->
  exists w' eff,
    step w (EvConnection s rnd) = Some (w', eff)
    /\ JsMap.get (players (gameState w')) (nextPlayerId (gameState w))
       = Some (Player.mk (nextPlayerId (gameState w))
                         (fst (spawnSample (rnd 99%nat)))
                         (snd (spawnSample (rnd 99%nat))) 100 100)
    /\ inBounds (fst (spawnSample (rnd 99%nat)))
                (snd (spawnSample (rnd 99%nat))) = true
    /\ walkableAt (map (gameState w')) (fst (spawnSample (rnd 99%nat)))
                  (snd (spawnSample (rnd 99%nat))) = false.
Proof.
  intros Hwf Hf Hun. destruct (unlucky_search _ _ Hwf Hun) as [Hs Hw].
  pose proof (spawnSample_inBounds (rnd 99%nat)) as Hb.
  unfold step. rewrite Hf. unfold onConnection. cbn [map].
  rewrite Hs. destruct (spawnSample (rnd 99%nat)) as [x y]. cbn [bind].
  eexists. eexists. split; [reflexivity|].
  cbn [gameState players setPlayers map fst snd] in *.
  split; [apply get_set_same|]. split; [exact Hb | exact Hw].
Qed.

Lemma run_player_tiles evs :
  forall w w' eff,
    reachable w ->
    run w evs = Some (w', eff) ->
    forall k p', In (k, p') (players (gameState w')) ->
      (exists p, In (k, p) (players (gameState w))
                 /\ Player.x p' = Player.x p /\ Player.y p' = Player.y p)
      \/ walkableAt (map (gameState w')) (Player.x p') (Player.y p') = true
      \/ (exists s rnd,
            In (EvConnection s rnd) evs
            /\ ~ luckySpawn (map (gameState w')) rnd
            /\ (Player.x p', Player.y p') = spawnSample (rnd 99%nat)
            /\ walkableAt (map (gameState w')) (Player.x p') (Player.y p')
               = false).
Proof.
  induction evs as [|ev evs IH]; intros w w' eff Hr; cbn [run].
  - intros [= <- _] k p' Hin. left. exists p'. auto.
  - destruct (step w ev) as [[w1 e1]|] eqn:E; [|discriminate].
    destruct (run w1 evs) as [[w2 e2]|] eqn:E2; [|discriminate].
    intros [= <- _] k p' Hin.
    pose proof (run_map _ _ _ _ E2) as Hm2.
    pose proof (step_map _ _ _ _ E) as Hm1.
    pose proof (reachable_invariant _ Hr) as (Hwf & _).
    destruct (IH _ _ _ (reachable_step _ _ _ _ Hr E) E2 _ _ Hin)
      as [(p1 & Hin1 & Hx & Hy)|[Hw|(s & rnd & Hev & Hun & Hs & Hw)]].
    + destruct (step_player_tiles _ _ _ _ Hwf E _ _ Hin1)
        as [(p & Hin0 & Hx0 & Hy0)
           |[Hw|(s & rnd & -> & Hun & _ & Hs & Hw)]].
      * left. exists p. split; [exact Hin0|]. split; congruence.
      * right. left. rewrite Hm2, Hx, Hy. exact Hw.
      * right. right. exists s, rnd. split; [left; reflexivity|].
        rewrite Hm2, Hm1, Hx, Hy. rewrite Hm1 in Hw. auto.
    + auto.
    + right. right. exists s, rnd. split; [right; exact Hev | auto].
Qed.

Lemma run_snoc evs :
  forall w w1 e1 ev w2 e2,
    run w evs = Some (w1, e1) ->
    step w1 ev = Some (w2, e2) ->
    run w (evs ++ [ev]) = Some (w2, e1 ++ e2).
Proof.
  induction evs as [|ev0 evs IH]; intros w w1 e1 ev w2 e2; cbn [run app].
  - intros [= <- <-] Hs. rewrite Hs. cbn. now rewrite app_nil_r.
  - destruct (step w ev0) as [[wa ea]|]; [|discriminate].
    destruct (run wa evs) as [[wb eb]|] eqn:E; [|discriminate].
    intros [= <- <-] Hs. rewrite (IH _ _ _ _ _ _ E Hs).
    now rewrite app_assoc.
Qed.

(** Every reachable world is the end of a run from start-up. *)
Lemma reachable_history w :
  reachable w ->
  exists pick envs g evs eff,
    initGame pick envs = Ok g /\ run (mkWorld g [] 0) evs = Some (w, eff).
Proof.
  induction 1 as [pick envs g Hg | w ev w' eff Hr IH Hs].
  - exists pick, envs, g, [], []. auto.
  - destruct IH as (pick & envs & g & evs & eff0 & Hg & Hrun).
    exists pick, envs, g, (evs ++ [ev]), (eff0 ++ eff).
    split; [exact Hg|]. eapply run_snoc; eauto.
Qed.

(** C6, as the code has it. In every reachable world every player and every
    monster is in bounds and every monster stands on a walkable tile. No
    operation changes the map, and after an operation each player either
    stands where it stood before, or stands on a walkable tile, or is the
    new player of a connection whose spawn search sampled no walkable
    position in its 100 attempts: such a connection places the new player
    on the last sampled position, which is in bounds and not walkable. So
    every operation keeps all players on walkable tiles except such a
    connection, and after any run a player that is not on a walkable tile
    has not moved since the run began or stands on the last sample of such
    a connection of the run. In every reachable world, therefore, each
    player stands on a walkable tile or on the last sampled position of a
    connection of the server's history whose search sampled no walkable
    position. *)
Theorem entity_positions_valid_up_to_spawn_fallback :
  forall w : World, reachable w ->
    (forall k p, In (k, p) (players (gameState w)) ->
       inBounds (Player.x p) (Player.y p) = true)
    /\ (forall m, In m (monsters (gameState w)) ->
       inBounds (Monster.x m) (Monster.y m) = true
       /\ walkableAt (map (gameState w)) (Monster.x m) (Monster.y m) = true)
    /\ (forall ev w' eff,
       step w ev = Some (w', eff) ->
       noUnluckySpawn (map (gameState w)) ev ->
       Spec.everyEntityOnWalkableTile w ->
       Spec.everyEntityOnWalkableTile w')
    /\ (forall ev w' eff,
       step w ev = Some (w', eff) ->
       map (gameState w') = map (gameState w)
       /\ forall k p', In (k, p') (players (gameState w')) ->
            (exists p, In (k, p) (players (gameState w))
                       /\ Player.x p' = Player.x p
                       /\ Player.y p' = Player.y p)
            \/ walkableAt (map (gameState w')) (Player.x p') (Player.y p')
               = true
            \/ (exists s rnd,
                  ev = EvConnection s rnd
                  /\ ~ luckySpawn (map (gameState w)) rnd
                  /\ k = nextPlayerId (gameState w)
                  /\ (Player.x p', Player.y p') = spawnSample (rnd 99%nat)
                  /\ walkableAt (map (gameState w'))
                                (Player.x p') (Player.y p') = false))
    /\ (forall s rnd,
       findClient (wssClients w) s = None ->
       ~ luckySpawn (map (gameState w)) rnd ->
       exists w' eff,
         step w (EvConnection s rnd) = Some (w', eff)
         /\ JsMap.get (players (gameState w')) (nextPlayerId (gameState w))
            = Some (Player.mk (nextPlayerId (gameState w))
                              (fst (spawnSample (rnd 99%nat)))
                              (snd (spawnSample (rnd 99%nat))) 100 100)
         /\ inBounds (fst (spawnSample (rnd 99%nat)))
                     (snd (spawnSample (rnd 99%nat))) = true
         /\ walkableAt (map (gameState w')) (fst (spawnSample (rnd 99%nat)))
                       (snd (spawnSample (rnd 99%nat))) = false)
    /\ (forall evs w' eff,
       run w evs = Some (w', eff) ->
       forall k p', In (k, p') (players (gameState w')) ->
         (exists p, In (k, p) (players (gameState w))
                    /\ Player.x p' = Player.x p /\ Player.y p' = Player.y p)
         \/ walkableAt (map (gameState w')) (Player.x p') (Player.y p') = true
         \/ (exists s rnd,
               In (EvConnection s rnd) evs
               /\ ~ luckySpawn (map (gameState w')) rnd
               /\ (Player.x p', Player.y p') = spawnSample (rnd 99%nat)
               /\ walkableAt (map (gameState w'))
                             (Player.x p') (Player.y p') = false))
    /\ (forall k p, In (k, p) (players (gameState w)) ->
         walkableAt (map (gameState w)) (Player.x p) (Player.y p) = true
         \/ (exists pick envs g evs eff s rnd,
               initGame pick envs = Ok g
               /\ run (mkWorld g [] 0) evs = Some (w, eff)
               /\ In (EvConnection s rnd) evs
               /\ ~ luckySpawn (map (gameState w)) rnd
               /\ (Player.x p, Player.y p) = spawnSample (rnd 99%nat)
               /\ walkableAt (map (gameState w)) (Player.x p) (Player.y p)
                  = false)).
Proof.
  intros w Hr. pose proof (reachable_invariant _ Hr) as (Hwf & Hms & Hps).
  rewrite Forall_forall in Hms, Hps.
  split; [|split; [|split; [|split; [|split; [|split]]]]].
  - intros k p Hin. apply (Hps _ Hin).
  - intros m Hin. destruct (Hms _ Hin) as (Hb & Hw & _). auto.
  - intros ev w' eff Hs Hl [Hpw Hmw].
    assert (Hstrict : stateOk true (gameState w)).
    { split; [exact Hwf|]. split; rewrite Forall_forall; [exact Hms|].
      intros [k p] Hin. destruct (Hps _ Hin) as (Hb & _ & Hh).
      split; [exact Hb|]. split; [|exact Hh].
      intros _. apply (Hpw k p Hin). }
    pose proof (step_inv true _ _ _ _ Hs Hstrict (fun _ => Hl))
      as (_ & Hms' & Hps').
    rewrite Forall_forall in Hms', Hps'.
    split.
    + intros k p Hin. destruct (Hps' _ Hin) as (Hb & Hw & _).
      split; [exact Hb | exact (Hw eq_refl)].
    + intros m Hin. destruct (Hms' _ Hin) as (Hb & Hw & _). auto.
  - intros ev w' eff Hs. split; [exact (step_map _ _ _ _ Hs)|].
    exact (step_player_tiles _ _ _ _ Hwf Hs).
  - intros s rnd. exact (unlucky_connection w s rnd Hwf).
  - intros evs w' eff. exact (run_player_tiles evs w w' eff Hr).
  - intros k p Hin.
    destruct (reachable_history _ Hr) as (pick & envs & g & evs & eff & Hg & Hrun).
    destruct (run_player_tiles evs _ _ _ (reachable_init _ _ _ Hg) Hrun _ _ Hin)
      as [(p0 & Hin0 & _)|[Hw|(s & rnd & Hev & Hun & Hs & Hw)]].
    + unfold initGame in Hg. apply spawnMonsters_players in Hg.
      destruct Hg as (Hp & _). cbn [gameState] in Hin0.
      rewrite Hp in Hin0. destruct Hin0.
    + auto.
    + right. exists pick, envs, g, evs, eff, s, rnd. repeat split; auto.
Qed.

Lemma entity_positions_valid_up_to_spawn_fallback_witness :
  reachable Demo.onePlayer
  /\ step Demo.onePlayer Demo.join2
     = Some (Demo.twoPlayers,
             [Send 2%nat (init 2 Demo.gmap [Demo.player1; Demo.player2]
                               (monsters (gameState Demo.started)));
              Send 1%nat (playerJoined Demo.player2)])
  /\ noUnluckySpawn (map (gameState Demo.onePlayer)) Demo.join2
  /\ Spec.everyEntityOnWalkableTile Demo.onePlayer
  /\ Spec.everyEntityOnWalkableTile Demo.twoPlayers
  /\ reachable Demo.started
  /\ ~ luckySpawn (map (gameState Demo.started)) (fun _ => (0, 0))
  /\ exists w' eff,
       step Demo.started Demo.joinUnlucky = Some (w', eff)
       /\ JsMap.get (players (gameState w')) 1
          = Some (Player.mk 1 2 2 100 100)
       /\ walkableAt (map (gameState w')) 2 2 = false.
Proof.
  assert (Hs : step Demo.onePlayer Demo.join2
               = Some (Demo.twoPlayers,
                       [Send 2%nat (init 2 Demo.gmap [Demo.player1; Demo.player2]
                                         (monsters (gameState Demo.started)));
                        Send 1%nat (playerJoined Demo.player2)]))
    by (vm_compute; reflexivity).
  assert (Hl : noUnluckySpawn (map (gameState Demo.onePlayer)) Demo.join2)
    by (exists 0%nat; split; [lia | reflexivity]).
  assert (Hw : Spec.everyEntityOnWalkableTile Demo.onePlayer).
  { split.
    - intros k p [H|[]]. inversion H; subst. split; reflexivity.
    - intros m [H|[H|[H|[]]]]; subst; split; reflexivity. }
  assert (Hun : ~ luckySpawn (map (gameState Demo.started)) (fun _ => (0, 0))).
  { intros (i & _ & H). vm_compute in H. discriminate H. }
  split; [exact onePlayer_reachable|].
  split; [exact Hs|]. split; [exact Hl|]. split; [exact Hw|].
  split.
  { exact (proj1 (proj2 (proj2 (entity_positions_valid_up_to_spawn_fallback
                                  Demo.onePlayer onePlayer_reachable)))
                 Demo.join2 Demo.twoPlayers _ Hs Hl Hw). }
  split; [exact started_reachable|]. split; [exact Hun|].
  destruct (proj1 (proj2 (proj2 (proj2 (proj2
              (entity_positions_valid_up_to_spawn_fallback
                 Demo.started started_reachable)))))
              1%nat (fun _ => (0, 0)) eq_refl Hun)
    as (w' & eff & Hstep & Hget & _ & Hnw).
  exists w', eff. auto.
Defined.
